(** * terminalTanks: the terrain generator, the projectile simulator and the
      game's state machine (src/main.go), embedded over IEEE binary64.

    Numbers are modelled as the program has them: [int] is a 64-bit two's
    complement integer (a [Z] with the wrap-around written out where the
    code can overflow), [float64] is Rocq's primitive binary64 [float], whose
    [+ - * /] and comparisons are the IEEE operations Go uses.  The two
    transcendental functions of Go's [math] package, the result of an
    unrepresentable float-to-int conversion (implementation-dependent in Go)
    and the longest slice the machine's memory holds are the fields of the
    class [GoRuntime]; every general theorem holds for all of its
    instances. *)

From Stdlib Require Import ZArith List Bool String Lia Floats.
Import ListNotations.
Set Warnings "-inexact-float".
Open Scope Z_scope.

(** ** Machine integers *)

Definition wrap64 (z : Z) : Z := (z + 2 ^ 63) mod 2 ^ 64 - 2 ^ 63.

Definition in_int64 (z : Z) : bool := (- 2 ^ 63 <=? z) && (z <? 2 ^ 63).

(** [l[i]] on a Go slice: [None] is the run-time panic "index out of range". *)
Definition index {A : Type} (l : list A) (i : Z) : option A :=
  if i <? 0 then None else nth_error l (Z.to_nat i).

Definition len {A : Type} (l : list A) : Z := Z.of_nat (List.length l).

(** ** float64 and the exactly specified part of package math *)

Class GoRuntime : Type := {
  math_Cos : float -> float;
  math_Sin : float -> float;
  (** what [int(f)] yields when [f] is NaN, infinite or outside int64 *)
  int_unrepresentable : float -> Z;
  (** the longest slice of 8-byte values the runtime can hold: [make] and
      [append] have no result beyond it (makeslice panics with len out of
      range, or the process runs out of memory).  The runtime's own limit is
      [maxAlloc = 2^48] bytes, that is [2^45] values; how much less a
      machine has is left open, down to [2^10] values. *)
  max_len : Z;
  max_len_range : 2 ^ 10 <= max_len <= 2 ^ 45
}.

(** [float64(z)]: the nearest binary64, ties to even. *)
Definition float64_of_int (z : Z) : float :=
  SF2Prim (binary_normalize prec emax z 0 false).

(** The integer part of a finite binary64, rounded toward zero. *)
Definition SFtrunc (x : spec_float) : option Z :=
  match x with
  | S754_zero _ => Some 0
  | S754_finite s m e => Some (cond_Zopp s (Z.shiftl (Zpos m) e))
  | S754_infinity _ | S754_nan => None
  end.

(** [int(f)]: truncation toward zero. *)
Definition int_of_float64 `{GoRuntime} (f : float) : Z :=
  match SFtrunc (Prim2SF f) with
  | Some z => if in_int64 z then z else int_unrepresentable f
  | None => int_unrepresentable f
  end.

Definition math_Pi : float := 0x1.921fb54442d18p+1%float.

Definition math_Abs (x : float) : float := abs x.

Definition math_Copysign (f sign : float) : float :=
  if get_sign sign then (- abs f)%float else abs f.

(** [math.Trunc]: the integer part as a float; ±0, ±Inf and NaN unchanged. *)
Definition math_Trunc (x : float) : float :=
  match Prim2SF x with
  | S754_finite s m e =>
      if e <? 0 then
        let t := float64_of_int (Z.shiftl (Zpos m) e) in
        if s then (- t)%float else t
      else x
  | _ => x
  end.

(** [math.Round]: nearest integer, halves away from zero (the reference
    implementation given in the package's documentation). *)
Definition math_Round (x : float) : float :=
  let t := math_Trunc x in
  if (0.5 <=? math_Abs (x - t))%float then (t + math_Copysign 1 x)%float else t.

(** [math.Pow(2, float64(n))] for an integer [n]: the exact power of two
    ([+Inf] from [2^1024] on). *)
Definition math_Pow2 (n : Z) : float := Z.ldexp 1 n.

(** ** The random source

    [rand.Intn(n)] is outside the repository: a source is the stream of its
    future raw draws, and [Intn n] consumes the next one, reduced into
    [[0, n)]. *)

Definition rng : Type := nat -> Z.

Definition rand_Intn (n : Z) (g : rng) : Z * rng :=
  (g O mod n, fun k => g (S k)).

(** ** The model (main.go, lines 16-27) *)

Record model : Type := {
  terrain : list Z;
  tankPos : Z;
  targetPos : Z;
  ballPosX : Z;
  ballPosY : Z;
  angle : float;
  power : float;
  simulating : bool;
  hit : bool;
  timePassed : float
}.

Definition gravity : float := 9.81%float.

(** ** generateTerrain (main.go, lines 36-91) *)

Definition cosineInterpolation `{GoRuntime} (a b mu : float) : float :=
  let mu2 := ((1 - math_Cos (mu * math_Pi)) / 2)%float in
  (a * (1 - mu2) + b * mu2)%float.

(** Lines 37-40: [width] draws, each [float64(rand.Intn(10) + 5)].
    [make] panics on a negative length and on a length the runtime cannot
    hold. *)
Fixpoint naive_draws (n : nat) (g : rng) : list float * rng :=
  match n with
  | O => ([], g)
  | S n' =>
      let (r, g1) := rand_Intn 10 g in
      let (rest, g2) := naive_draws n' g1 in
      (float64_of_int (r + 5) :: rest, g2)
  end.

Definition naiveTerrain `{GoRuntime} (width : Z) (g : rng)
  : option (list float * rng) :=
  if (width <? 0) || (max_len <? width) then None
  else Some (naive_draws (Z.to_nat width) g).

(** Lines 50-53: [for i := 0; i < len(naiveTerrain); i += sample].  The loop
    needs at most [len] rounds when [sample >= 1]; with [sample = 0] it never
    ends (no fuel suffices), with [sample < 0] it indexes out of range. *)
Fixpoint samplePoints_loop (fuel : nat) (naive : list float) (i sample : Z)
  : option (list float) :=
  match fuel with
  | O => None
  | S fuel' =>
      if i <? len naive then
        match index naive i with
        | None => None
        | Some v =>
            option_map (cons v)
              (samplePoints_loop fuel' naive (wrap64 (i + sample)) sample)
        end
      else Some []
  end.

Definition samplePoints (naive : list float) (sample : Z) : option (list float) :=
  samplePoints_loop (S (List.length naive)) naive 0 sample.

(** Lines 59-65: the [sample - 1] interpolated values after control point [i]. *)
Definition between `{GoRuntime} (weight : float) (sample : Z) (a b : float)
  : list float :=
  map (fun j : nat =>
         let mu := (float64_of_int (Z.of_nat j) / float64_of_int sample)%float in
         (weight * cosineInterpolation a b mu)%float)
      (seq 1 (Z.to_nat (sample - 1))).

(** Lines 57-66, one round of the outer loop per control point: the scaled
    control point, then the interpolated values (which read the cyclic
    successor [(i+1) % len(samplePoints)] only when [sample > 1]). *)
Definition octave_segment `{GoRuntime} (weight : float) (sample : Z)
  (pts : list float) (i : nat) : option (list float) :=
  match nth_error pts i with
  | None => None
  | Some p =>
      if sample <=? 1 then Some [(weight * p)%float]
      else
        match index pts (Z.of_nat (S i) mod len pts) with
        | Some b => Some ((weight * p)%float :: between weight sample p b)
        | None => None
        end
  end.

Fixpoint octave_fill `{GoRuntime} (weight : float) (sample : Z)
  (pts : list float) (i n : nat) : option (list float) :=
  match n with
  | O => Some []
  | S n' =>
      match octave_segment weight sample pts i,
            octave_fill weight sample pts (S i) n' with
      | Some s, Some rest => Some (s ++ rest)
      | _, _ => None
      end
  end.

(** Lines 46-67: the layer of octave [z].  The layer grows by [append],
    one value for a control point and [sample - 1] values after it: it
    reaches [len(samplePoints) * sample] values, and [append] has no result
    once that is more than the runtime can hold. *)
Definition octave `{GoRuntime} (naive : list float) (iterations z : Z)
  : option (list float * float) :=
  let weight := (1 / math_Pow2 (z - 1))%float in
  let sample := wrap64 (Z.shiftl 1 (iterations - z)) in
  match samplePoints naive sample with
  | None => None
  | Some pts =>
      if max_len <? len pts * sample then None
      else
        match octave_fill weight sample pts 0 (List.length pts) with
        | None => None
        | Some t => Some (t, weight)
        end
  end.

(** Lines 45-68: [for z := iterations; z > 0; z--], with the accumulators
    [terrains] and [weightSum]. *)
Fixpoint octaves_loop `{GoRuntime} (naive : list float) (iterations : Z)
  (z : nat) (terrains : list (list float)) (weightSum : float)
  : option (list (list float) * float) :=
  match z with
  | O => Some (terrains, weightSum)
  | S z' =>
      match octave naive iterations (Z.of_nat z) with
      | None => None
      | Some (t, weight) =>
          octaves_loop naive iterations z' (terrains ++ [t]) (weightSum + weight)%float
      end
  end.

(** Lines 70-78: column [i] of the blend. *)
Definition blend_column (terrains : list (list float)) (weightSum : float)
  (i : nat) : float :=
  (fold_left (fun acc t =>
                match nth_error t i with
                | Some v => (acc + v)%float
                | None => acc
                end) terrains 0%float / weightSum)%float.

(** Steps 2-4 of the algorithm: everything after the base sequence is drawn. *)
Definition blend `{GoRuntime} (naive : list float) (iterations : Z)
  : option (list Z) :=
  match octaves_loop naive iterations (Z.to_nat iterations) [] 0%float with
  | None => None
  | Some (terrains, weightSum) =>
      Some (map (fun i => int_of_float64 (math_Round (blend_column terrains weightSum i)))
                (seq 0 (List.length naive)))
  end.

Definition generateTerrain `{GoRuntime} (width iterations : Z) (g : rng)
  : option (list Z * rng) :=
  match naiveTerrain width g with
  | None => None
  | Some (naive, g') =>
      match blend naive iterations with
      | None => None
      | Some t => Some (t, g')
      end
  end.

(** ** Messages and commands of the bubbletea runtime *)

Inductive Msg : Type :=
| KeyMsg (key : string)
| tickMsg
| resetMsg
| otherMsg.

Inductive Cmd : Type :=
| CmdNil
| CmdQuit
| CmdTick     (* tick(): a tickMsg after 100 ms *)
| CmdReset.   (* reset(): a resetMsg after 2 s *)

Definition set_aim (m : model) (a p : float) : model :=
  {| terrain := terrain m; tankPos := tankPos m; targetPos := targetPos m;
     ballPosX := ballPosX m; ballPosY := ballPosY m;
     angle := a; power := p;
     simulating := simulating m; hit := hit m; timePassed := timePassed m |}.

Definition set_flight (m : model) (sim h : bool) (t : float) : model :=
  {| terrain := terrain m; tankPos := tankPos m; targetPos := targetPos m;
     ballPosX := ballPosX m; ballPosY := ballPosY m;
     angle := angle m; power := power m;
     simulating := sim; hit := h; timePassed := t |}.

Definition set_ball (m : model) (x y : Z) : model :=
  {| terrain := terrain m; tankPos := tankPos m; targetPos := targetPos m;
     ballPosX := x; ballPosY := y;
     angle := angle m; power := power m;
     simulating := simulating m; hit := hit m; timePassed := timePassed m |}.

(** ** simulate (main.go, lines 175-204) *)

(** Lines 180-186: the position after the time step. *)
Definition newXPos `{GoRuntime} (m : model) (t : float) : float :=
  let angleRad := (angle m * math_Pi / 180)%float in
  (float64_of_int (tankPos m) + power m * math_Cos angleRad * t)%float.

Definition newYPos `{GoRuntime} (m : model) (yPos t : float) : float :=
  let angleRad := (angle m * math_Pi / 180)%float in
  (yPos + power m * math_Sin angleRad * t - 0.5 * gravity * t * t)%float.

(** Line 188.  [||] evaluates left to right and stops early, so the terrain
    is read only at a column inside the slice. *)
Definition out_or_ground `{GoRuntime} (tr : list Z) (x y : float) : bool :=
  let col := int_of_float64 x in
  if len tr <=? col then true
  else if col <? 0 then true
  else match index tr col with
       | Some h => (y <=? float64_of_int h)%float
       | None => true
       end.

(** Lines 196-197.  [None] is the panic of [m.terrain[m.targetPos]], which
    is read only when the first conjunct holds. *)
Definition target_hit `{GoRuntime} (m : model) : option bool :=
  if int_of_float64 (math_Abs (float64_of_int (wrap64 (targetPos m - ballPosX m)))) <=? 3
  then
    match index (terrain m) (targetPos m) with
    | None => None
    | Some h =>
        Some ((wrap64 (h - 2) <=? ballPosY m) && (ballPosY m <=? wrap64 (h + 2)))
    end
  else Some false.

Definition simulate `{GoRuntime} (m : model) : option (model * Cmd) :=
  if negb (simulating m) then Some (m, CmdNil)
  else
    match index (terrain m) (tankPos m) with
    | None => None
    | Some h0 =>
        let yPos := float64_of_int h0 in
        let t := (timePassed m + 0.1)%float in
        let m1 := set_flight m (simulating m) (hit m) t in
        let x := newXPos m t in
        let y := newYPos m yPos t in
        if out_or_ground (terrain m) x y then
          Some (set_flight m1 false (hit m1) t, CmdReset)
        else
          let m2 := set_ball m1 (int_of_float64 (math_Round x))
                                (int_of_float64 (math_Round y)) in
          match target_hit m2 with
          | None => None
          | Some true => Some (set_flight m2 false true t, CmdNil)
          | Some false => Some (m2, CmdTick)
          end
    end.

(** ** resetGame (main.go, lines 206-218)

    The fields of the composite literal are evaluated in the order written:
    the terrain first, then four draws. *)
Definition resetGame `{GoRuntime} (m : model) (g : rng) : option (model * rng) :=
  match generateTerrain 100 6 g with
  | None => None
  | Some (t, g0) =>
      let (r1, g1) := rand_Intn 5 g0 in
      let (r2, g2) := rand_Intn 5 g1 in
      let (r3, g3) := rand_Intn 5 g2 in
      let (r4, g4) := rand_Intn 5 g3 in
      match index (terrain m) (r4 + 1) with
      | None => None
      | Some y =>
          Some ({| terrain := t;
                   tankPos := r1 + 1;
                   targetPos := r2 + 75;
                   ballPosX := r3 + 1;
                   ballPosY := y;
                   angle := 45%float;
                   power := 20%float;
                   simulating := false;
                   hit := false;
                   timePassed := 0%float |}, g4)
      end
  end.

(** ** Update (main.go, lines 97-125) *)

Definition key_update (m : model) (key : string) : model * Cmd :=
  if String.eqb key "q" then (m, CmdQuit)
  else if negb (simulating m) then
    if String.eqb key "a" then (set_aim m (angle m - 5)%float (power m), CmdNil)
    else if String.eqb key "d" then (set_aim m (angle m + 5)%float (power m), CmdNil)
    else if String.eqb key "w" then (set_aim m (angle m) (power m + 1)%float, CmdNil)
    else if String.eqb key "s" then (set_aim m (angle m) (power m - 1)%float, CmdNil)
    else if String.eqb key "enter" then (set_flight m true (hit m) 0%float, CmdTick)
    else (m, CmdNil)
  else (m, CmdNil).

Definition Update `{GoRuntime} (m : model) (msg : Msg) (g : rng)
  : option (model * Cmd * rng) :=
  match msg with
  | KeyMsg key => let (m', c) := key_update m key in Some (m', c, g)
  | tickMsg =>
      match simulate m with
      | None => None
      | Some (m', c) => Some (m', c, g)
      end
  | resetMsg =>
      match resetGame m g with
      | None => None
      | Some (m', g') => Some (m', CmdNil, g')
      end
  | otherMsg => Some (m, CmdNil, g)
  end.

(** ** main (main.go, lines 220-236): the initial model *)

Definition initialModel `{GoRuntime} (g : rng) : option (model * rng) :=
  match generateTerrain 100 6 g with
  | None => None
  | Some (t, g0) =>
      let (r1, g1) := rand_Intn 5 g0 in
      let (r2, g2) := rand_Intn 5 g1 in
      match index t (r1 + 1) with
      | None => None
      | Some y =>
          Some ({| terrain := t;
                   tankPos := r1 + 1;
                   targetPos := r2 + 75;
                   ballPosX := r1 + 1;
                   ballPosY := y;
                   angle := 45%float;
                   power := 20%float;
                   simulating := false;
                   hit := false;
                   timePassed := 0%float |}, g2)
      end
  end.

(** ** A concrete runtime: Go on amd64

    [math.Cos] and [math.Sin] as Go's package math computes them in
    software (the Cephes polynomials of sin.go) for arguments below the
    large-argument threshold [2^29]; float-to-int conversion as the amd64
    instruction does it (the "integer indefinite" value [-2^63]); a machine
    whose memory holds slices of up to [2^27] values (1 GiB).  This instance
    is what the worked examples below are evaluated with. *)

Definition sin_coef : list float :=
  [ 1.58962301576546568060e-10; -2.50507477628578072866e-8;
    2.75573136213857245213e-6; -1.98412698295895385996e-4;
    8.33333333332211858878e-3; -1.66666666666666307295e-1 ]%float.

Definition cos_coef : list float :=
  [ -1.13585365213876817300e-11; 2.08757008419747316778e-9;
    -2.75573141792967388112e-7; 2.48015872888517045348e-5;
    -1.38888888888730564116e-3; 4.16666666666665929218e-2 ]%float.

Definition PI4A : float := 7.85398125648498535156e-1%float.
Definition PI4B : float := 3.77489470793079817668e-8%float.
Definition PI4C : float := 2.69515142907905952645e-15%float.

(** [((((c0*zz + c1)*zz + c2)*zz + c3)*zz + c4)*zz + c5] *)
Definition horner (c : list float) (zz : float) : float :=
  match c with
  | [] => 0%float
  | c0 :: cs => fold_left (fun acc k => (acc * zz + k)%float) cs c0
  end.

Definition poly_sin (z : float) : float :=
  let zz := (z * z)%float in (z + z * zz * horner sin_coef zz)%float.

Definition poly_cos (z : float) : float :=
  let zz := (z * z)%float in
  (1 - 0.5 * zz + zz * zz * horner cos_coef zz)%float.

(** The octant [j] of a non-negative [x] and the reduced argument [z]. *)
Definition reduce (x : float) : Z * float :=
  let j := match SFtrunc (Prim2SF (x * (4 / math_Pi))%float) with
           | Some z => z
           | None => 0
           end in
  let j1 := if Z.odd j then j + 1 else j in
  let y := float64_of_int j1 in
  (Z.land j1 7, (x - y * PI4A - y * PI4B - y * PI4C)%float).

Definition go_cos (x : float) : float :=
  if is_nan x || is_infinity x then nan
  else
    let x := abs x in
    if (0x1p+29 <=? x)%float then nan
    else
      let (j, z) := reduce x in
      let sign := false in
      let (j, sign) := if 3 <? j then (j - 4, negb sign) else (j, sign) in
      let sign := if 1 <? j then negb sign else sign in
      let y := if (j =? 1) || (j =? 2) then poly_sin z else poly_cos z in
      if sign then (- y)%float else y.

Definition go_sin (x : float) : float :=
  if (x =? 0)%float || is_nan x then x
  else if is_infinity x then nan
  else
    let sign := (x <? 0)%float in
    let x := abs x in
    if (0x1p+29 <=? x)%float then nan
    else
      let (j, z) := reduce x in
      let (j, sign) := if 3 <? j then (j - 4, negb sign) else (j, sign) in
      let y := if (j =? 1) || (j =? 2) then poly_cos z else poly_sin z in
      if sign then (- y)%float else y.

Definition go_amd64 : GoRuntime :=
  {| math_Cos := go_cos;
     math_Sin := go_sin;
     int_unrepresentable := fun _ => - 2 ^ 63;
     max_len := 2 ^ 27;
     max_len_range := conj (proj1 (Z.leb_le (2 ^ 10) (2 ^ 27)) eq_refl)
                           (proj1 (Z.leb_le (2 ^ 27) (2 ^ 45)) eq_refl) |}.

(** ** Traces

    The runtime feeds [Update] one message at a time; [run] does so for a
    list of messages, [reachable] is the set of worlds (model and random
    source) that arise from [main] under any messages at all. *)

Fixpoint run `{GoRuntime} (msgs : list Msg) (m : model) (g : rng)
  : option (model * rng) :=
  match msgs with
  | [] => Some (m, g)
  | msg :: rest =>
      match Update m msg g with
      | None => None
      | Some (m', _, g') => run rest m' g'
      end
  end.

Inductive reachable `{GoRuntime} : model -> rng -> Prop :=
| reach_init : forall g m g',
    initialModel g = Some (m, g') -> reachable m g'
| reach_step : forall m g msg m' c g',
    reachable m g -> Update m msg g = Some (m', c, g') -> reachable m' g'.

Definition keys (n : nat) (key : string) : list Msg := repeat (KeyMsg key) n.
Definition ticks (n : nat) : list Msg := repeat tickMsg n.

(** [run], keeping the commands [Update] hands back to the runtime, in
    the order of the messages. *)
Fixpoint run_cmds `{GoRuntime} (msgs : list Msg) (m : model) (g : rng)
  : option (model * list Cmd * rng) :=
  match msgs with
  | [] => Some (m, [], g)
  | msg :: rest =>
      match Update m msg g with
      | None => None
      | Some (m', c, g') =>
          match run_cmds rest m' g' with
          | None => None
          | Some (m'', cs, g'') => Some (m'', c :: cs, g'')
          end
      end
  end.

(** ** View and displayTerrainWithTank (main.go, lines 127-158)

    The screen is a string of styled glyphs.  lipgloss's [Render] and
    [fmt.Sprintf] are outside the repository, so the embedding keeps what the
    code decides: which status line is appended, and which glyph (with which
    style) each cell of the grid gets. *)

Inductive Banner : Type :=
| BannerHit       (* "You hit the target! Press 'q' to quit." *)
| BannerMissed    (* "Missed! Game restarting..." *)
| BannerNone.

(** Lines 129-133. *)
Definition banner (m : model) : Banner :=
  if hit m then BannerHit
  else if negb (simulating m) && negb (hit m) then BannerMissed
  else BannerNone.

Inductive Cell : Type :=
| CBall      (* ballStyle "O" *)
| CTank      (* tankStyle "T" *)
| CTarget    (* targetStyle "X" *)
| CGround    (* terrainStyle "|" *)
| CBlank.    (* " " *)

(** Lines 142-153: the [switch] for column [x] of height [h] on row [y]. *)
Definition cell_at (tank target bx by_ x h y : Z) : Cell :=
  if (x =? bx) && (y =? by_) then CBall
  else if (x =? tank) && (h =? y) then CTank
  else if (x =? target) && (h =? y) then CTarget
  else if y <=? h then CGround
  else CBlank.

(** Line 141: [for x, h := range terrain], from column [x0] on. *)
Fixpoint display_row (tr : list Z) (tank target bx by_ x0 y : Z) : list Cell :=
  match tr with
  | [] => []
  | h :: rest =>
      cell_at tank target bx by_ x0 h y
        :: display_row rest tank target bx by_ (x0 + 1) y
  end.

(** Line 140: [for y := 30; y >= 0; y--]; one list of cells per line of text. *)
Definition displayTerrainWithTank (tr : list Z) (tank target bx by_ : Z)
  : list (list Cell) :=
  map (fun k : nat => display_row tr tank target bx by_ 0 (30 - Z.of_nat k))
      (seq 0 31).

(** Line 134: the grid [View] draws for a model. *)
Definition view_grid (m : model) : list (list Cell) :=
  displayTerrainWithTank (terrain m) (tankPos m) (targetPos m)
    (ballPosX m) (ballPosY m).

(** The timers behind the two commands (lines 163-173), in milliseconds. *)
Definition cmd_delay (c : Cmd) : option Z :=
  match c with
  | CmdTick => Some 100
  | CmdReset => Some 2000
  | CmdNil | CmdQuit => None
  end.

(** ** Worked inputs

    [flat_rng] draws 0 every time: the base sequence is constantly 5, the
    tank stands at column 1 and the target at column 75. *)

Definition flat_rng : rng := fun _ => 0.

(** A hand-made model in flight, used to instantiate the general theorems:
    a ramp of heights, tank at column 2, target at column 5. *)
Definition ramp : model :=
  {| terrain := [3; 3; 3; 4; 7; 5; 5; 5; 5; 5];
     tankPos := 2; targetPos := 5;
     ballPosX := 2; ballPosY := 3;
     angle := 0%float; power := 20%float;
     simulating := true; hit := false; timePassed := 0%float |}.

(** ** Predicates and worked models of the statements

    What the theorems below say of the code is phrased with the
    definitions of this part; none of them is used by the code's embedding
    above. *)

(** The values the base sequence can hold: [float64(k)] for [5 <= k <= 14]. *)
Definition base_value (x : float) : Prop :=
  exists k, 5 <= k <= 14 /\ x = float64_of_int k.

(** The shape every model built by [main] or [resetGame] has. *)
Definition well_formed (m : model) : Prop :=
  len (terrain m) = 100 /\ 1 <= tankPos m <= 5 /\ 75 <= targetPos m <= 79.

(** Worlds reached when the fire key is never pressed on a model whose hit
    flag is set. *)
Inductive played `{GoRuntime} : model -> rng -> Prop :=
| played_init : forall g m g',
    initialModel g = Some (m, g') -> played m g'
| played_step : forall m g msg m' c g',
    played m g ->
    (msg = KeyMsg "enter" -> hit m = false) ->
    Update m msg g = Some (m', c, g') -> played m' g'.

(** *** The clock of a simulation run *)

(** The clock after [k] ticks of a run: [0.1] added [k] times to [0]. *)
Definition tick_time (k : nat) : float :=
  Nat.iter k (fun t => (t + 0.1)%float) 0%float.

(** *** Worked models *)

Definition flat_terrain : list Z := repeat 5 100.

(** The model [main] builds from [flat_rng]. *)
Definition flat_start : model :=
  {| terrain := flat_terrain; tankPos := 1; targetPos := 75;
     ballPosX := 1; ballPosY := 5;
     angle := 45%float; power := 20%float;
     simulating := false; hit := false; timePassed := 0%float |}.

(** Power raised to 27, fire, 38 ticks (the shot lands on the target), fire. *)
Definition fire_hit_fire : list Msg :=
  keys 7 "w" ++ KeyMsg "enter" :: ticks 38 ++ [KeyMsg "enter"].

Definition both_flags : model :=
  {| terrain := flat_terrain; tankPos := 1; targetPos := 75;
     ballPosX := 74; ballPosY := 7;
     angle := 45%float; power := 27%float;
     simulating := true; hit := true; timePassed := 0%float |}.

(** Angle turned to 135 degrees, power raised to 24, fire. *)
Definition left_shot : model :=
  {| terrain := flat_terrain; tankPos := 1; targetPos := 75;
     ballPosX := 1; ballPosY := 5;
     angle := 135%float; power := 24%float;
     simulating := true; hit := false; timePassed := 0%float |}.

Definition left_flying : model :=
  {| terrain := flat_terrain; tankPos := 1; targetPos := 75;
     ballPosX := -1; ballPosY := 7;
     angle := 135%float; power := 24%float;
     simulating := true; hit := false; timePassed := (0 + 0.1)%float |}.



(** A shot over a pit in front of a cliff: on its first tick the computed
    position is [x = 4.616..., y = 5.567...], above the pit at column 4 and
    below the top of the cliff at column 5, where the target stands. *)
Definition buried_shot : model :=
  {| terrain := [3; 3; 3; 3; 1; 8; 8; 8; 8; 8];
     tankPos := 2; targetPos := 5;
     ballPosX := 2; ballPosY := 3;
     angle := 45%float; power := 37%float;
     simulating := true; hit := false; timePassed := 0%float |}.

Definition buried_hit : model :=
  {| terrain := [3; 3; 3; 3; 1; 8; 8; 8; 8; 8];
     tankPos := 2; targetPos := 5;
     ballPosX := 5; ballPosY := 6;
     angle := 45%float; power := 37%float;
     simulating := false; hit := true; timePassed := (0 + 0.1)%float |}.

(** The model [resetGame] builds from [ramp] and [flat_rng]. *)
Definition ramp_reset : model :=
  {| terrain := flat_terrain; tankPos := 1; targetPos := 75;
     ballPosX := 1; ballPosY := 3;
     angle := 45%float; power := 20%float;
     simulating := false; hit := false; timePassed := 0%float |}.

(** *** Ranges of binary64 values

    The heights are computed in [float64]; the ranges the intermediate
    values stay in are stated on the [spec_float] view of a number (sign,
    mantissa, exponent), where rounding is a function on integers. *)

(** A shift record that has lost no bit so far. *)
Definition exact_record (mrs : shr_record) : Prop :=
  shr_r mrs = false /\ shr_s mrs = false.

(** The result of a float operation known to lie in [[0, c]] (up to sign [s]). *)
Definition sf_bound (s : bool) (x : spec_float) (c : Z) : Prop :=
  match x with
  | S754_zero s' => s' = s
  | S754_finite s' m e => s' = s /\ e <= 0 /\ Zpos m <= c * 2 ^ (- e)
  | S754_infinity _ | S754_nan => False
  end.

(** A value in [[0, c]]: a zero, or a positive finite number with a
    non-positive exponent whose mantissa is at most [c * 2^(-e)]. *)
Definition sf_upto (x : spec_float) (c : Z) : Prop :=
  match x with
  | S754_zero _ => True
  | S754_finite false m e => e <= 0 /\ Zpos m <= c * 2 ^ (- e)
  | _ => False
  end.

(** A value in [[-1, 1]]. *)
Definition sf_unit (x : spec_float) : Prop :=
  match x with
  | S754_zero _ => True
  | S754_finite _ m e => e <= 0 /\ Zpos m <= 2 ^ (- e)
  | _ => False
  end.

(** A positive finite value that is at least [k]. *)
Definition sf_atleast (x : spec_float) (k : Z) : Prop :=
  match x with
  | S754_finite false m e => e <= 0 /\ k * 2 ^ (- e) <= Zpos m
  | _ => False
  end.

(** The number 1. *)
Definition sf_one : spec_float := S754_finite false 4503599627370496 (-52).

(** The same ranges on primitive floats. *)
Definition upto (x : float) (c : Z) : Prop := sf_upto (Prim2SF x) c.
Definition in_unit (x : float) : Prop := sf_unit (Prim2SF x).
Definition atleast (x : float) (k : Z) : Prop := sf_atleast (Prim2SF x) k.

(** Decidable forms, for constants. *)
Definition sf_uptob (x : spec_float) (c : Z) : bool :=
  match x with
  | S754_zero _ => true
  | S754_finite false m e => (e <=? 0) && (Zpos m <=? c * 2 ^ (- e))
  | _ => false
  end.

Definition sf_atleastb (x : spec_float) (k : Z) : bool :=
  match x with
  | S754_finite false m e => (e <=? 0) && (k * 2 ^ (- e) <=? Zpos m)
  | _ => false
  end.

(** The weight sum after the layers [z, z-1, ..., 1], starting from [ws]. *)
Fixpoint weight_sum (z : nat) (ws : float) : float :=
  match z with
  | O => ws
  | S z' => weight_sum z' (ws + 1 / math_Pow2 (Z.of_nat z - 1))%float
  end.

(** Every weight [1 / 2^(z-1)] is at most 1 and every weight sum at least 1,
    for the 63 octave counts the generator has a result for. *)
Definition weights_checked : bool :=
  forallb (fun z => sf_uptob (Prim2SF (1 / math_Pow2 (Z.of_nat z - 1))%float) 1
                    && sf_atleastb (Prim2SF (weight_sum z 0%float)) 1)
          (seq 1 63).

(** [math.Cos] stays within [[-1, 1]] at the arguments the interpolation
    passes to it: [float64(j) / float64(2^k) * Pi] for the strides [2^k] of
    the layers and [1 <= j < 2^k]. *)
Definition cos_in_range `{GoRuntime} (octaves : Z) : Prop :=
  forall k j, 1 <= k < octaves -> 1 <= j < 2 ^ k ->
    ((-1 <=? math_Cos (float64_of_int j / float64_of_int (2 ^ k) * math_Pi))
     && (math_Cos (float64_of_int j / float64_of_int (2 ^ k) * math_Pi) <=? 1))%float = true.

(** The same as a check over the finitely many arguments, for a runtime
    that computes. *)
Definition cos_in_rangeb `{GoRuntime} (octaves : nat) : bool :=
  forallb (fun k =>
    forallb (fun j =>
      let c := math_Cos (float64_of_int (Z.of_nat j) / float64_of_int (2 ^ Z.of_nat k)
                         * math_Pi)%float in
      ((-1 <=? c) && (c <=? 1))%float)
      (seq 1 (2 ^ k - 1)))
    (seq 1 (octaves - 1)).

(** A layer whose values all lie in [[0, 28]]. *)
Definition low (t : list float) : Prop := Forall (fun v => upto v 28) t.

(** The range proved for the heights of a profile. *)
Definition heights_in_range (t : list Z) : Prop := Forall (fun h => 0 <= h <= 1765) t.

(** *** Magnitudes of binary64 values

    For the clock of a flight the ranges are wider, and are stated by
    powers of two: the magnitude of a finite number [m * 2^e] is [e] plus
    the number of binary digits of [m]. *)

(** A value that is not NaN and carries the sign [s]. *)
Definition sf_signed (s : bool) (x : spec_float) : Prop :=
  match x with
  | S754_zero s' | S754_infinity s' | S754_finite s' _ _ => s' = s
  | S754_nan => False
  end.

(** A finite value of magnitude below [2^n]. *)
Definition sf_mag_lt (x : spec_float) (n : Z) : Prop :=
  match x with
  | S754_zero _ => True
  | S754_finite _ m e => e + Zpos (digits2_pos m) <= n
  | _ => False
  end.

(** A value of magnitude at least [2^n], infinities included. *)
Definition sf_mag_ge (x : spec_float) (n : Z) : Prop :=
  match x with
  | S754_infinity _ => True
  | S754_finite _ m e => n < e + Zpos (digits2_pos m)
  | _ => False
  end.

(** A value that is neither negative nor NaN. *)
Definition sf_nonneg (x : spec_float) : Prop :=
  match x with
  | S754_zero _ | S754_finite false _ _ | S754_infinity false => True
  | _ => False
  end.

(** A float that is not NaN. *)
Definition number (x : float) : Prop := Prim2SF x <> S754_nan.

(** The step of the clock, [0.1], as a binary64. *)
Definition sf_tenth : spec_float := S754_finite false 7205759403792794 (-56).

(** A clock that is not negative and below [2^49]. *)
Definition sf_clock (x : spec_float) : Prop := sf_signed false x /\ sf_mag_lt x 49.

(** What a long flight needs of the runtime at the angle of the shot:
    [math.Cos] of the angle in radians is at least [2^-82] in absolute
    value (for an accurate cosine no binary64 argument comes closer to a
    zero than about [2^-61]), and [math.Sin] is at most 1 in absolute
    value. *)
Definition steady_aim `{GoRuntime} (a : float) : Prop :=
  ((0x1p-82 <=? abs (math_Cos (a * math_Pi / 180)))
   && (abs (math_Sin (a * math_Pi / 180)) <=? 1))%float = true.

(** The conversion [int(f)] of a value outside [int64] that is not NaN is
    no column of the 100-column field (amd64 yields [-2^63], arm64
    saturates). *)
Definition conversions_leave_field `{GoRuntime} : Prop :=
  forall x, is_nan x = false -> ~ (0 <= int_unrepresentable x < 100).

(** ** Properties of the state machine *)

Section StateMachine.
Context {R : GoRuntime}.

Lemma simulate_idle (m : model) :
  simulating m = false -> simulate m = Some (m, CmdNil).
Proof. intros H; unfold simulate; rewrite H; reflexivity. Qed.

Lemma key_update_simulating (m : model) (key : string) :
  simulating m = true -> key <> "q"%string -> key_update m key = (m, CmdNil).
Proof.
  intros Hs Hq; unfold key_update.
  destruct (String.eqb_spec key "q") as [E | _]; [contradiction |].
  rewrite Hs; reflexivity.
Qed.

(** C8.  While a shot is in flight ([simulating = true]) every key command
    other than quit is ignored: [Update] returns the model it was given, so
    in particular the aim ([angle], [power]) is unchanged, and no command is
    issued. *)
Theorem Update_key_in_flight_keeps_aim (m : model) (key : string) (g : rng) :
  simulating m = true -> key <> "q"%string ->
  exists m', Update m (KeyMsg key) g = Some (m', CmdNil, g) /\
             angle m' = angle m /\ power m' = power m /\ m' = m.
Proof.
  intros Hs Hq; exists m; cbn.
  rewrite (key_update_simulating m key Hs Hq); auto.
Qed.

End StateMachine.

Lemma Update_key_in_flight_keeps_aim_witness :
  exists m', @Update go_amd64 ramp (KeyMsg "w") flat_rng = Some (m', CmdNil, flat_rng) /\
             angle m' = angle ramp /\ power m' = power ramp /\ m' = ramp.
Proof.
  apply (@Update_key_in_flight_keeps_aim go_amd64 ramp "w"%string flat_rng);
    [reflexivity | discriminate].
Defined.

(** ** Exact integer conversions

    [float64(z)] is exact below [2^53], so converting back (directly or
    through [math.Abs]) returns the integer.  The proofs go through the
    binary64 specification [SpecFloat] that the primitive operations obey. *)

Lemma iter_xO_value (p n : positive) :
  Zpos (Pos.iter xO p n) = Zpos p * 2 ^ Zpos n.
Proof.
  induction n as [| n IH] using Pos.peano_ind.
  - cbn [Pos.iter]. lia.
  - rewrite Pos.iter_succ, Pos2Z.inj_xO, IH, Pos2Z.inj_succ, Z.pow_succ_r by lia. ring.
Qed.

Lemma iter_xO_digits (p n : positive) :
  Zpos (digits2_pos (Pos.iter xO p n)) = Zpos (digits2_pos p) + Zpos n.
Proof.
  induction n as [| n IH] using Pos.peano_ind.
  - cbn [Pos.iter digits2_pos]. lia.
  - rewrite Pos.iter_succ. cbn [digits2_pos]. rewrite Pos2Z.inj_succ, IH. lia.
Qed.

Lemma digits2_pos_bound (p : positive) (k : Z) :
  0 <= k -> Zpos p < 2 ^ k -> Zpos (digits2_pos p) <= k.
Proof.
  revert k; induction p as [p IH | p IH |]; intros k Hk Hp; cbn [digits2_pos].
  - assert (k <> 0) by (intros ->; cbn in Hp; lia).
    rewrite Pos2Z.inj_succ. specialize (IH (k - 1)).
    replace k with (Z.succ (k - 1)) in Hp by lia. rewrite Z.pow_succ_r in Hp by lia.
    lia.
  - assert (k <> 0) by (intros ->; cbn in Hp; lia).
    rewrite Pos2Z.inj_succ. specialize (IH (k - 1)).
    replace k with (Z.succ (k - 1)) in Hp by lia. rewrite Z.pow_succ_r in Hp by lia.
    lia.
  - assert (k <> 0) by (intros ->; cbn in Hp; lia). lia.
Qed.

(** A canonical mantissa is left as it is by the rounding step. *)
Lemma binary_round_aux_canonical (s : bool) (m : positive) (e : Z) :
  canonical_mantissa prec emax m e = true ->
  binary_round_aux prec emax s (Zpos m) e loc_Exact =
  if e <=? emax - prec then S754_finite s m e else S754_infinity s.
Proof.
  unfold canonical_mantissa; intros Hc; apply Z.eqb_eq in Hc.
  unfold binary_round_aux, shr_fexp. cbn [Zdigits2 shr_record_of_loc].
  rewrite Hc, Z.sub_diag. cbn [shr shr_m loc_of_shr_record round_nearest_even].
  cbn [Zdigits2]. rewrite Hc, Z.sub_diag. cbn [shr shr_m]. reflexivity.
Qed.

Lemma binary_round_small (s : bool) (p : positive) :
  Zpos p < 2 ^ 53 ->
  exists m e, binary_round prec emax s p 0 = S754_finite s m e /\
              valid_binary (S754_finite s m e) = true /\
              e <= 0 /\ Zpos m = Zpos p * 2 ^ (- e).
Proof.
  intros Hp. pose proof (digits2_pos_bound p 53 ltac:(lia) Hp) as Hd.
  unfold binary_round. rewrite Z.add_0_r.
  assert (Hf : fexp prec emax (Zpos (digits2_pos p)) = Zpos (digits2_pos p) - 53).
  { unfold fexp, SpecFloat.emin, prec, emax. lia. }
  rewrite Hf. unfold shl_align. rewrite Z.sub_0_r.
  match goal with |- context [match ?t with Z0 => _ | Zpos _ => _ | Zneg _ => _ end] =>
    destruct t as [| q | q] eqn:E end; try lia.
  - assert (Hc : canonical_mantissa prec emax p 0 = true).
    { unfold canonical_mantissa. rewrite Z.add_0_r. apply Z.eqb_eq. lia. }
    rewrite (binary_round_aux_canonical s p 0 Hc).
    exists p, 0. cbn. unfold bounded. rewrite Hc. cbn. repeat split; lia.
  - assert (Hc : canonical_mantissa prec emax (Pos.iter xO p q) (Zneg q) = true).
    { unfold canonical_mantissa. rewrite iter_xO_digits.
      apply Z.eqb_eq. unfold fexp, SpecFloat.emin, prec, emax. lia. }
    rewrite (binary_round_aux_canonical s _ _ Hc).
    assert ((Zneg q <=? emax - prec) = true) as -> by (apply Z.leb_le; unfold emax, prec; lia).
    exists (Pos.iter xO p q), (Zneg q). cbn [valid_binary]. unfold bounded. rewrite Hc.
    split; [reflexivity |]. split; [| split; [lia |]].
    + apply Z.leb_le. unfold emax, prec. lia.
    + rewrite iter_xO_value. reflexivity.
Qed.

Lemma shiftl_scaled (a e : Z) : e <= 0 -> Z.shiftl (a * 2 ^ (- e)) e = a.
Proof.
  intros He. rewrite <- (Z.opp_involutive e) at 2. rewrite Z.shiftl_opp_r.
  rewrite Z.shiftr_div_pow2 by lia. apply Z.div_mul. apply Z.pow_nonzero; lia.
Qed.

(** [float64(z)] is exact for every integer below [2^53] in magnitude. *)
Lemma Prim2SF_float64_of_int (z : Z) :
  Z.abs z < 2 ^ 53 ->
  SFtrunc (Prim2SF (float64_of_int z)) = Some z /\
  SFtrunc (Prim2SF (math_Abs (float64_of_int z))) = Some (Z.abs z).
Proof.
  intros Hz. unfold float64_of_int, math_Abs. rewrite abs_spec.
  destruct z as [| p | p]; cbn [binary_normalize].
  - split; reflexivity.
  - destruct (binary_round_small false p) as (m & e & -> & Hv & He & Hm); [lia |].
    rewrite (Prim2SF_SF2Prim _ Hv). cbn [SFabs SFtrunc cond_Zopp].
    rewrite Hm, shiftl_scaled by lia. split; reflexivity.
  - destruct (binary_round_small true p) as (m & e & -> & Hv & He & Hm); [lia |].
    rewrite (Prim2SF_SF2Prim _ Hv). cbn [SFabs SFtrunc cond_Zopp].
    rewrite Hm, shiftl_scaled by lia. split; reflexivity.
Qed.

Lemma int_of_float64_of_int `{GoRuntime} (z : Z) :
  Z.abs z < 2 ^ 53 -> int_of_float64 (float64_of_int z) = z.
Proof.
  intros Hz. unfold int_of_float64.
  destruct (Prim2SF_float64_of_int z Hz) as [-> _].
  assert (in_int64 z = true) as ->; [| reflexivity].
  unfold in_int64. apply andb_true_intro; split; [apply Z.leb_le | apply Z.ltb_lt]; lia.
Qed.


(** ** The projectile simulator *)

Section Simulator.
Context {R : GoRuntime}.

Lemma wrap64_small (z : Z) : - 2 ^ 63 <= z < 2 ^ 63 -> wrap64 z = z.
Proof.
  intros Hz. unfold wrap64. rewrite Z.mod_small; lia.
Qed.

(** What one tick does to a model in flight, given the launch height. *)
Lemma simulate_in_flight (m : model) (h0 : Z) :
  simulating m = true -> index (terrain m) (tankPos m) = Some h0 ->
  simulate m =
  let t := (timePassed m + 0.1)%float in
  let x := newXPos m t in
  let y := newYPos m (float64_of_int h0) t in
  if out_or_ground (terrain m) x y then Some (set_flight m false (hit m) t, CmdReset)
  else
    let m2 := set_ball (set_flight m true (hit m) t)
                (int_of_float64 (math_Round x)) (int_of_float64 (math_Round y)) in
    match target_hit m2 with
    | None => None
    | Some true => Some (set_flight m2 false true t, CmdNil)
    | Some false => Some (m2, CmdTick)
    end.
Proof.
  intros Hs Hi. unfold simulate. rewrite Hs, Hi. reflexivity.
Qed.


Lemma out_or_ground_ground (tr : list Z) (x y : float) (h : Z) :
  index tr (int_of_float64 x) = Some h ->
  (y <=? float64_of_int h)%float = true ->
  out_or_ground tr x y = true.
Proof.
  intros Hi Hy. unfold out_or_ground. rewrite Hi, Hy.
  destruct (len tr <=? int_of_float64 x); [reflexivity |].
  destruct (int_of_float64 x <? 0); reflexivity.
Qed.


(** C3 (amended).  Ground before target, with the ground read where the
    code reads it: when the computed height [y] (not rounded) is at or below
    the terrain at the column [int(x)] (the computed column truncated toward
    zero, not the rounded column the ball is drawn in) and, at the same
    time, the rounded cell lies in the target's hit band (within 3 columns
    of the target and within 2 of the terrain height there), the tick is a
    miss, not a hit: [simulating] becomes false, the hit flag is left as it
    was and a reset is scheduled. *)
Theorem simulate_ground_check_precedes_target (m : model) (h0 hc ht : Z) :
  simulating m = true -> index (terrain m) (tankPos m) = Some h0 ->
  let t := (timePassed m + 0.1)%float in
  let x := newXPos m t in
  let y := newYPos m (float64_of_int h0) t in
  index (terrain m) (int_of_float64 x) = Some hc ->
  (y <=? float64_of_int hc)%float = true ->
  Z.abs (targetPos m - int_of_float64 (math_Round x)) <= 3 ->
  index (terrain m) (targetPos m) = Some ht ->
  ht - 2 <= int_of_float64 (math_Round y) <= ht + 2 ->
  simulate m = Some (set_flight m false (hit m) t, CmdReset) /\
  hit (set_flight m false (hit m) t) = hit m /\
  simulating (set_flight m false (hit m) t) = false.
Proof.
  intros Hs Hi t x y Hc Hy _ _ _. rewrite (simulate_in_flight m h0 Hs Hi). cbv zeta.
  fold t x y. rewrite (out_or_ground_ground _ x y hc Hc Hy). auto.
Qed.

End Simulator.

Section HitBand.
Context {R : GoRuntime}.



End HitBand.

(** ** The terrain generator: termination and shape *)

Section Terrain.
Context {R : GoRuntime}.

Lemma naive_draws_length (n : nat) (g : rng) :
  List.length (fst (naive_draws n g)) = n.
Proof.
  revert g; induction n as [| n IH]; intros g; cbn; [reflexivity |].
  specialize (IH (fun k => g (S k))).
  destruct (naive_draws n (fun k => g (S k))); cbn in *; congruence.
Qed.

Lemma index_in_range {A : Type} (l : list A) (i : Z) :
  0 <= i < len l -> exists v, index l i = Some v.
Proof.
  intros Hi. unfold index, len in *.
  destruct (Z.ltb_spec i 0); [lia |].
  destruct (nth_error l (Z.to_nat i)) eqn:E; [eauto |].
  apply nth_error_None in E. lia.
Qed.

Lemma index_Some_range {A : Type} (l : list A) (i : Z) (v : A) :
  index l i = Some v -> 0 <= i < len l.
Proof.
  unfold index, len. destruct (Z.ltb_spec i 0); [discriminate |].
  intros E. assert (Z.to_nat i < List.length l)%nat; [| lia].
  apply nth_error_Some. congruence.
Qed.

(** With a positive stride the sampling loop ends within its fuel, and it
    picks at least one control point from a non-empty base sequence. *)
Lemma samplePoints_loop_total (fuel : nat) (naive : list float) (i sample : Z) :
  1 <= sample -> 0 <= i -> len naive + sample <= 2 ^ 63 ->
  Z.max 0 (len naive - i) < Z.of_nat fuel ->
  exists pts, samplePoints_loop fuel naive i sample = Some pts /\
              (i < len naive -> pts <> []).
Proof.
  revert i; induction fuel as [| fuel IH]; intros i Hs Hi Hl Hf.
  - lia.
  - cbn [samplePoints_loop]. destruct (Z.ltb_spec i (len naive)) as [Hlt | Hge].
    + destruct (index_in_range naive i ltac:(lia)) as [v ->].
      rewrite wrap64_small by lia.
      destruct (IH (i + sample)) as (pts & -> & _); try lia.
      exists (v :: pts). split; [reflexivity | discriminate].
    + exists []. split; [reflexivity | lia].
Qed.

Lemma samplePoints_total (naive : list float) (sample : Z) :
  1 <= sample -> len naive + sample <= 2 ^ 63 ->
  exists pts, samplePoints naive sample = Some pts /\ (naive <> [] -> pts <> []).
Proof.
  intros Hs Hl. unfold samplePoints.
  destruct (samplePoints_loop_total (S (List.length naive)) naive 0 sample)
    as (pts & E & Hne); try lia.
  { unfold len. lia. }
  exists pts. split; [exact E |]. intros Hn. apply Hne.
  unfold len. destruct naive; [contradiction | cbn; lia].
Qed.

(** A stride of zero never leaves column 0: no amount of fuel is enough. *)
Lemma samplePoints_loop_zero_stride (fuel : nat) (naive : list float) :
  naive <> [] -> samplePoints_loop fuel naive 0 0 = None.
Proof.
  intros Hn. induction fuel as [| fuel IH]; [reflexivity |].
  cbn [samplePoints_loop]. destruct naive as [| v rest]; [contradiction |].
  change (wrap64 (0 + 0)) with 0. rewrite IH. reflexivity.
Qed.

(** A negative stride reads the base sequence at a negative index. *)
Lemma samplePoints_negative_stride (naive : list float) (sample : Z) :
  naive <> [] -> - 2 ^ 63 <= sample < 0 -> samplePoints naive sample = None.
Proof.
  intros Hn Hs. unfold samplePoints. cbn [samplePoints_loop].
  destruct naive as [| v rest]; [contradiction |].
  change (0 <? len (v :: rest)) with true. cbn [index Z.ltb Z.compare Z.to_nat nth_error].
  cbn [Z.add]. rewrite (wrap64_small sample) by lia.
  destruct (List.length (v :: rest)) eqn:E; [discriminate |].
  cbn [samplePoints_loop].
  assert ((sample <? len (v :: rest)) = true) as -> by (apply Z.ltb_lt; unfold len; lia).
  unfold index. assert ((sample <? 0) = true) as -> by (apply Z.ltb_lt; lia).
  reflexivity.
Qed.

Lemma octave_segment_total (weight : float) (sample : Z) (pts : list float) (i : nat) :
  (i < List.length pts)%nat ->
  exists s, octave_segment weight sample pts i = Some s.
Proof.
  intros Hi. unfold octave_segment.
  destruct (nth_error pts i) as [p |] eqn:E.
  - destruct (sample <=? 1); [eauto |].
    destruct (index_in_range pts (Z.of_nat (S i) mod len pts)) as [b ->]; [| eauto].
    apply Z.mod_pos_bound. unfold len. lia.
  - apply nth_error_None in E. lia.
Qed.

Lemma octave_fill_total (weight : float) (sample : Z) (pts : list float) (n i : nat) :
  (i + n <= List.length pts)%nat ->
  exists t, octave_fill weight sample pts i n = Some t.
Proof.
  revert i; induction n as [| n IH]; intros i Hi; cbn [octave_fill]; [eauto |].
  destruct (octave_segment_total weight sample pts i ltac:(lia)) as [s ->].
  destruct (IH (S i) ltac:(lia)) as [t ->]. eauto.
Qed.

Lemma shift_stride (k : Z) : 0 <= k <= 62 -> 1 <= wrap64 (Z.shiftl 1 k) <= 2 ^ 62.
Proof.
  intros Hk. rewrite Z.shiftl_1_l.
  assert (2 ^ k <= 2 ^ 62) by (apply Z.pow_le_mono_r; lia).
  assert (0 < 2 ^ k) by (apply Z.pow_pos_nonneg; lia).
  rewrite wrap64_small; lia.
Qed.

(** The control points times the stride: the length the layer reaches.  It
    overshoots the base sequence by less than one stride. *)
Lemma samplePoints_loop_length (fuel : nat) (naive : list float) (i sample : Z)
  (pts : list float) :
  1 <= sample -> 0 <= i -> len naive + sample <= 2 ^ 63 ->
  samplePoints_loop fuel naive i sample = Some pts ->
  len pts * sample <= Z.max 0 (len naive - i + sample - 1).
Proof.
  intros Hs. revert i pts; induction fuel as [| fuel IH]; intros i pts Hi Hl;
    cbn [samplePoints_loop]; [discriminate |].
  destruct (Z.ltb_spec i (len naive)) as [Hlt | Hge].
  - destruct (index naive i) as [v |]; [| discriminate].
    rewrite wrap64_small by lia.
    destruct (samplePoints_loop fuel naive (i + sample) sample) as [rest |] eqn:E;
      [| discriminate].
    intros H; inversion H; subst. apply IH in E; [| lia | lia].
    unfold len in *. cbn [List.length]. rewrite Nat2Z.inj_succ. nia.
  - intros H; inversion H; subst. unfold len; cbn. lia.
Qed.

Lemma stride_within (k c : Z) : 0 <= k -> 2 ^ k <= 2 ^ 45 + c -> c <= 2 ^ 45 -> k <= 62.
Proof.
  intros Hk Hp Hc. destruct (Z.le_gt_cases k 62) as [H | H]; [exact H |].
  assert (2 ^ 63 <= 2 ^ k) by (apply Z.pow_le_mono_r; lia). lia.
Qed.

Lemma octave_total (naive : list float) (iterations z : Z) :
  1 <= z <= iterations -> len naive + 2 ^ (iterations - z) - 1 <= max_len ->
  exists t w, octave naive iterations z = Some (t, w).
Proof.
  intros Hz Hl. unfold octave. pose proof max_len_range as Hm.
  assert (Hn : 0 <= len naive) by (unfold len; lia).
  assert (Hk : iterations - z <= 62) by (apply (stride_within _ 1); lia).
  assert (Hp : 0 < 2 ^ (iterations - z)) by (apply Z.pow_pos_nonneg; lia).
  assert (Es : wrap64 (Z.shiftl 1 (iterations - z)) = 2 ^ (iterations - z)).
  { rewrite Z.shiftl_1_l. apply wrap64_small.
    assert (2 ^ (iterations - z) <= 2 ^ 62) by (apply Z.pow_le_mono_r; lia). lia. }
  rewrite Es.
  destruct (samplePoints_total naive (2 ^ (iterations - z))) as (pts & E & _); try lia.
  rewrite E. unfold samplePoints in E.
  apply samplePoints_loop_length in E; try lia.
  destruct (Z.ltb_spec max_len (len pts * 2 ^ (iterations - z))); [lia |].
  destruct (octave_fill_total (1 / math_Pow2 (z - 1))%float
              (2 ^ (iterations - z)) pts (List.length pts) 0)
    as [t ->]; [lia |]. eauto.
Qed.

Lemma octaves_loop_total (naive : list float) (iterations : Z) (z : nat)
  (ts : list (list float)) (ws : float) :
  (z <= Z.to_nat iterations)%nat -> len naive + 2 ^ (iterations - 1) - 1 <= max_len ->
  exists ts' ws', octaves_loop naive iterations z ts ws = Some (ts', ws').
Proof.
  revert ts ws; induction z as [| z IH]; intros ts ws Hz Hl.
  - cbn. eauto.
  - cbn [octaves_loop].
    destruct (octave_total naive iterations (Z.of_nat (S z))) as (t & w & ->); [lia | |].
    + assert (2 ^ (iterations - Z.of_nat (S z)) <= 2 ^ (iterations - 1))
        by (apply Z.pow_le_mono_r; lia). lia.
    + apply IH; [lia | exact Hl].
Qed.

Lemma blend_total (naive : list float) (iterations : Z) :
  len naive + 2 ^ (iterations - 1) - 1 <= max_len ->
  exists t, blend naive iterations = Some t /\ List.length t = List.length naive.
Proof.
  intros Hl. unfold blend.
  destruct (octaves_loop_total naive iterations (Z.to_nat iterations) [] 0%float)
    as (ts & ws & ->); [lia | exact Hl |].
  eexists; split; [reflexivity |]. rewrite length_map, length_seq. reflexivity.
Qed.

(** The generator returns, and returns exactly [width] columns, whenever the
    runtime can hold its coarsest layer (the stride of that layer is
    [2^(iterations - 1)], and the layer is shorter than width plus stride). *)
Lemma generateTerrain_total (width iterations : Z) (g : rng) :
  0 <= width -> 1 <= iterations -> width + 2 ^ (iterations - 1) - 1 <= max_len ->
  exists t g', generateTerrain width iterations g = Some (t, g') /\ len t = width.
Proof.
  intros Hw Hit Hl. unfold generateTerrain, naiveTerrain.
  assert (0 < 2 ^ (iterations - 1)) by (apply Z.pow_pos_nonneg; lia).
  destruct (Z.ltb_spec width 0); [lia |].
  destruct (Z.ltb_spec max_len width); [lia |]. cbn [orb].
  pose proof (naive_draws_length (Z.to_nat width) g) as Hn.
  destruct (naive_draws (Z.to_nat width) g) as [naive g'] eqn:E. cbn [fst] in Hn.
  destruct (blend_total naive iterations) as (t & -> & Ht).
  { unfold len. lia. }
  exists t, g'. split; [reflexivity |]. unfold len. lia.
Qed.

(** The game's own call, [generateTerrain(100, 6)]: the coarsest layer has
    128 values. *)
Lemma generateTerrain_game (g : rng) :
  exists t g', generateTerrain 100 6 g = Some (t, g') /\ len t = 100.
Proof.
  pose proof max_len_range. apply generateTerrain_total; [lia | lia |].
  change (2 ^ (6 - 1)) with 32. lia.
Qed.

(** If the coarsest layer ([z = 1], the last one built) has no result,
    neither has the loop over the octaves. *)
Lemma octaves_loop_last_fails (naive : list float) (iterations : Z) (z : nat)
  (ts : list (list float)) (ws : float) :
  (1 <= z)%nat -> octave naive iterations 1 = None ->
  octaves_loop naive iterations z ts ws = None.
Proof.
  intros Hz H1. revert ts ws; induction z as [| z IH]; intros ts ws; [lia |].
  cbn [octaves_loop]. destruct z as [| z].
  - change (Z.of_nat 1) with 1. rewrite H1. reflexivity.
  - destruct (octave naive iterations (Z.of_nat (S (S z)))) as [[t w] |]; [| reflexivity].
    apply IH. lia.
Qed.


(** If any layer in the range of the loop has no result, the loop has none. *)
Lemma octaves_loop_fails (naive : list float) (iterations : Z) (z z0 : nat)
  (ts : list (list float)) (ws : float) :
  (1 <= z0 <= z)%nat -> octave naive iterations (Z.of_nat z0) = None ->
  octaves_loop naive iterations z ts ws = None.
Proof.
  intros Hz H0. revert ts ws; induction z as [| z IH]; intros ts ws; [lia |].
  cbn [octaves_loop]. destruct (Nat.eq_dec z0 (S z)) as [-> | Hne].
  - rewrite H0. reflexivity.
  - destruct (octave naive iterations (Z.of_nat (S z))) as [[t w] |]; [| reflexivity].
    apply IH. lia.
Qed.

(** A layer that has a control point has at least one stride of values:
    with a stride beyond what the runtime holds there is no layer. *)
Lemma octave_too_long (naive : list float) (iterations z : Z) :
  naive <> [] -> 0 <= iterations - z <= 62 -> max_len < 2 ^ (iterations - z) ->
  octave naive iterations z = None.
Proof.
  intros Hne Hk Hm. unfold octave.
  assert (Hp : 2 ^ (iterations - z) <= 2 ^ 62) by (apply Z.pow_le_mono_r; lia).
  assert (Es : wrap64 (Z.shiftl 1 (iterations - z)) = 2 ^ (iterations - z)).
  { rewrite Z.shiftl_1_l. apply wrap64_small.
    assert (0 < 2 ^ (iterations - z)) by (apply Z.pow_pos_nonneg; lia). lia. }
  rewrite Es. unfold samplePoints. cbn [samplePoints_loop].
  destruct naive as [| v rest]; [contradiction |].
  change (0 <? len (v :: rest)) with true. cbn [index Z.ltb Z.compare Z.to_nat nth_error].
  destruct (samplePoints_loop _ _ _ _) as [pts |]; [| reflexivity]. cbn [option_map].
  destruct (Z.ltb_spec max_len (len (v :: pts) * 2 ^ (iterations - z))) as [_ | Hle];
    [reflexivity |].
  exfalso. unfold len in Hle. cbn [List.length] in Hle. rewrite Nat2Z.inj_succ in Hle. nia.
Qed.

Lemma blend_from_64_octaves (naive : list float) (iterations : Z) :
  naive <> [] -> 64 <= iterations -> blend naive iterations = None.
Proof.
  intros Hne Ho. unfold blend.
  rewrite (octaves_loop_fails naive iterations _ (Z.to_nat (iterations - 63)));
    [reflexivity | lia |].
  unfold octave. rewrite Z2Nat.id by lia.
  replace (iterations - (iterations - 63)) with 63 by lia.
  change (wrap64 (Z.shiftl 1 63)) with (- 2 ^ 63).
  rewrite samplePoints_negative_stride; [reflexivity | exact Hne | lia].
Qed.

(** What the generator returns has one height per column. *)
Lemma generateTerrain_length (width iterations : Z) (g g' : rng) (t : list Z) :
  generateTerrain width iterations g = Some (t, g') -> 0 <= width /\ len t = width.
Proof.
  unfold generateTerrain, naiveTerrain.
  destruct (Z.ltb_spec width 0); [discriminate |].
  destruct (max_len <? width); [discriminate |]. cbn [orb].
  pose proof (naive_draws_length (Z.to_nat width) g) as Hn.
  destruct (naive_draws (Z.to_nat width) g) as [naive g0]. cbn [fst] in Hn.
  unfold blend. destruct (octaves_loop _ _ _ _ _) as [[ts ws] |]; [| discriminate].
  intros E; inversion E; subst. split; [lia |].
  unfold len. rewrite length_map, length_seq. lia.
Qed.

End Terrain.

(** ** A single octave: no blending *)

Section SingleOctave.
Context {R : GoRuntime}.

Lemma naive_draws_base (n : nat) (g : rng) :
  Forall base_value (fst (naive_draws n g)).
Proof.
  revert g; induction n as [| n IH]; intros g; cbn; [constructor |].
  specialize (IH (fun k => g (S k))).
  destruct (naive_draws n (fun k => g (S k))); cbn in *. constructor; [| exact IH].
  exists (g O mod 10 + 5). split; [| reflexivity].
  pose proof (Z.mod_pos_bound (g O) 10 ltac:(lia)). lia.
Qed.

Lemma samplePoints_loop_stride_1 (fuel i : nat) (naive : list float) :
  len naive <= 2 ^ 62 -> (List.length naive - i < fuel)%nat ->
  samplePoints_loop fuel naive (Z.of_nat i) 1 = Some (skipn i naive).
Proof.
  intros Hl. revert i; induction fuel as [| fuel IH]; intros i Hf; [lia |].
  cbn [samplePoints_loop]. unfold len in *.
  destruct (Z.ltb_spec (Z.of_nat i) (Z.of_nat (List.length naive))) as [Hlt | Hge].
  - unfold index. destruct (Z.ltb_spec (Z.of_nat i) 0); [lia |].
    rewrite Nat2Z.id. destruct (nth_error naive i) as [v |] eqn:E.
    + rewrite wrap64_small by lia.
      replace (Z.of_nat i + 1) with (Z.of_nat (S i)) by lia.
      rewrite IH by lia. cbn [option_map]. f_equal.
      clear - E. revert i E; induction naive as [| a l IHl]; intros [| i] E; cbn in *;
        try discriminate; [congruence | auto].
    + apply nth_error_None in E. lia.
  - rewrite skipn_all2 by lia. reflexivity.
Qed.

Lemma octave_fill_stride_1 (weight : float) (pts : list float) (n i : nat) :
  (i + n <= List.length pts)%nat ->
  octave_fill weight 1 pts i n =
  Some (map (fun p => (weight * p)%float) (firstn n (skipn i pts))).
Proof.
  revert i; induction n as [| n IH]; intros i Hi; cbn [octave_fill]; [reflexivity |].
  unfold octave_segment. destruct (nth_error pts i) as [p |] eqn:E.
  - change (1 <=? 1) with true. cbv iota. rewrite IH by lia.
    assert (Hs : skipn i pts = p :: skipn (S i) pts).
    { clear - E. revert i E; induction pts as [| a l IHl]; intros [| i] E; cbn in *;
        try discriminate; [congruence | auto]. }
    rewrite Hs. reflexivity.
  - apply nth_error_None in E. lia.
Qed.

Lemma map_seq_nth_error {A B : Type} (f : option A -> B) (l : list A) :
  map (fun i => f (nth_error l i)) (seq 0 (List.length l)) =
  map (fun a => f (Some a)) l.
Proof.
  induction l as [| a l IH]; [reflexivity |].
  cbn [List.length seq map nth_error]. f_equal.
  rewrite <- seq_shift, map_map. exact IH.
Qed.

(** With one octave the weight is 1 and the weight sum is 1: a base value
    goes through the scaling, the accumulation from 0 and the division
    unchanged. *)
Lemma single_octave_arithmetic (x : float) :
  base_value x ->
  ((0 + 1 / math_Pow2 (1 - 1) * x) / (0 + 1 / math_Pow2 (1 - 1)))%float = x.
Proof.
  intros (k & Hk & ->).
  assert (k = 5 \/ k = 6 \/ k = 7 \/ k = 8 \/ k = 9 \/ k = 10 \/ k = 11 \/
          k = 12 \/ k = 13 \/ k = 14) as Hc by lia.
  repeat (destruct Hc as [-> | Hc]; [vm_compute; reflexivity |]).
  subst k. vm_compute. reflexivity.
Qed.

Lemma round_small_int (k : Z) :
  5 <= k <= 14 -> int_of_float64 (math_Round (float64_of_int k)) = k.
Proof.
  intros Hk.
  assert (math_Round (float64_of_int k) = float64_of_int k) as ->.
  { assert (k = 5 \/ k = 6 \/ k = 7 \/ k = 8 \/ k = 9 \/ k = 10 \/ k = 11 \/
            k = 12 \/ k = 13 \/ k = 14) as Hc by lia.
    repeat (destruct Hc as [-> | Hc]; [vm_compute; reflexivity |]).
    subst k. vm_compute. reflexivity. }
  apply int_of_float64_of_int. lia.
Qed.

Lemma rounded_naive_draws (n : nat) (g : rng) :
  map (fun x => int_of_float64 (math_Round x)) (fst (naive_draws n g)) =
  map (fun i => g i mod 10 + 5) (seq 0 n).
Proof.
  revert g; induction n as [| n IH]; intros g; [reflexivity |].
  cbn [naive_draws rand_Intn]. specialize (IH (fun k => g (S k))).
  destruct (naive_draws n (fun k => g (S k))) as [rest g2]. cbn [fst map seq] in *.
  rewrite round_small_int by (pose proof (Z.mod_pos_bound (g O) 10 ltac:(lia)); lia).
  f_equal. rewrite IH, <- seq_shift, map_map. reflexivity.
Qed.

Lemma blend_single_octave (naive : list float) :
  Forall base_value naive -> len naive <= max_len ->
  blend naive 1 = Some (map (fun x => int_of_float64 (math_Round x)) naive).
Proof.
  intros Hb Hl. unfold blend. change (Z.to_nat 1) with 1%nat.
  cbn [octaves_loop]. change (Z.of_nat 1) with 1. unfold octave.
  change (wrap64 (Z.shiftl 1 (1 - 1))) with 1.
  pose proof max_len_range as Hm.
  unfold samplePoints. rewrite (samplePoints_loop_stride_1 _ 0 naive) by lia.
  cbn [skipn]. destruct (Z.ltb_spec max_len (len naive * 1)); [lia |].
  rewrite octave_fill_stride_1 by lia.
  cbn [skipn app]. rewrite firstn_all. f_equal.
  unfold blend_column. cbn [fold_left].
  rewrite <- (length_map (fun p => (1 / math_Pow2 (1 - 1) * p)%float) naive) at 1.
  rewrite (map_seq_nth_error
             (fun o => int_of_float64 (math_Round
                (match o with Some v => (0 + v)%float | None => 0%float end
                 / (0 + 1 / math_Pow2 (1 - 1)))%float))).
  rewrite map_map. apply map_ext_Forall.
  revert Hb. apply Forall_impl. intros x Hx.
  rewrite (single_octave_arithmetic x Hx). reflexivity.
Qed.

(** C6.  With width 10 and a single octave there is no blending: the
    profile is the base sequence (the ten draws, each [float64(r + 5)])
    with every value rounded to the nearest integer, which is the integer
    [r + 5] itself. *)
Theorem generateTerrain_single_octave_is_rounded_base (g : rng) :
  generateTerrain 10 1 g =
    Some (map (fun x => int_of_float64 (math_Round x)) (fst (naive_draws 10 g)),
          snd (naive_draws 10 g)) /\
  map (fun x => int_of_float64 (math_Round x)) (fst (naive_draws 10 g)) =
    map (fun i => g i mod 10 + 5) (seq 0 10).
Proof.
  split.
  - unfold generateTerrain, naiveTerrain. change (10 <? 0) with false.
    pose proof max_len_range as Hm.
    destruct (Z.ltb_spec max_len 10); [lia |]. cbn [orb].
    change (Z.to_nat 10) with 10%nat.
    pose proof (naive_draws_base 10 g) as Hb.
    pose proof (naive_draws_length 10 g) as Hn.
    destruct (naive_draws 10 g) as [naive g'] eqn:E. cbn [fst snd] in *.
    rewrite (blend_single_octave naive Hb); [reflexivity |].
    unfold len. rewrite Hn. lia.
  - apply rounded_naive_draws.
Qed.

End SingleOctave.

(** ** Randomness enters the terrain only through the base sequence *)

Section Determinism.
Context {R : GoRuntime}.

Lemma naive_draws_rng (n : nat) (g : rng) :
  snd (naive_draws n g) = fun k => g (n + k)%nat.
Proof.
  revert g; induction n as [| n IH]; intros g; [reflexivity |].
  cbn [naive_draws rand_Intn]. specialize (IH (fun j => g (S j))).
  destruct (naive_draws n (fun j => g (S j))) as [rest g2]. cbn [snd] in *.
  rewrite IH. reflexivity.
Qed.

(** The generator consumes exactly [width] draws. *)
Lemma generateTerrain_rng (width iterations : Z) (g g' : rng) (t : list Z) :
  generateTerrain width iterations g = Some (t, g') ->
  g' = fun k => g (Z.to_nat width + k)%nat.
Proof.
  unfold generateTerrain, naiveTerrain.
  destruct ((width <? 0) || (max_len <? width)); [discriminate |].
  pose proof (naive_draws_rng (Z.to_nat width) g) as Hr.
  destruct (naive_draws (Z.to_nat width) g) as [naive g1]. cbn [snd] in Hr.
  destruct (blend naive iterations); [| discriminate].
  intros E. inversion E; subst. reflexivity.
Qed.

(** C9.  After step 1 the generator is a function of the base sequence:
    two runs (two random sources) that draw the same base sequence for the
    same width and octave count return the same profile, namely the blend
    of that base sequence. *)
Theorem generateTerrain_determined_by_base (width iterations : Z) (g1 g2 : rng)
  (naive : list float) :
  option_map fst (naiveTerrain width g1) = Some naive ->
  option_map fst (naiveTerrain width g2) = Some naive ->
  option_map fst (generateTerrain width iterations g1) = blend naive iterations /\
  option_map fst (generateTerrain width iterations g2) =
  option_map fst (generateTerrain width iterations g1).
Proof.
  intros H1 H2. unfold generateTerrain.
  destruct (naiveTerrain width g1) as [[n1 g1'] |]; [| discriminate].
  destruct (naiveTerrain width g2) as [[n2 g2'] |]; [| discriminate].
  cbn in H1, H2. inversion H1; inversion H2; subst.
  destruct (blend naive iterations); split; reflexivity.
Qed.

End Determinism.

(** ** Reset and the reachable states *)

Section Reset.
Context {R : GoRuntime}.

Lemma mod5 (z : Z) : 0 <= z mod 5 <= 4.
Proof. pose proof (Z.mod_pos_bound z 5 ltac:(lia)). lia. Qed.

Lemma resetGame_inv (m : model) (g : rng) (m' : model) (g' : rng) :
  resetGame m g = Some (m', g') ->
  exists t y,
    generateTerrain 100 6 g = Some (t, fun k => g (100 + k)%nat) /\
    index (terrain m) (g 103%nat mod 5 + 1) = Some y /\
    g' = (fun k => g (104 + k)%nat) /\
    m' = {| terrain := t;
            tankPos := g 100%nat mod 5 + 1;
            targetPos := g 101%nat mod 5 + 75;
            ballPosX := g 102%nat mod 5 + 1;
            ballPosY := y;
            angle := 45%float; power := 20%float;
            simulating := false; hit := false; timePassed := 0%float |}.
Proof.
  unfold resetGame. destruct (generateTerrain 100 6 g) as [[t g0] |] eqn:E; [| discriminate].
  pose proof (generateTerrain_rng 100 6 g g0 t E) as Hr.
  change (Z.to_nat 100) with 100%nat in Hr. subst g0. cbn [rand_Intn].
  destruct (index (terrain m) (g (100 + 3)%nat mod 5 + 1)) as [y |] eqn:Ei; [| discriminate].
  intros H; inversion H; subst. exists t, y. repeat split; assumption.
Qed.

End Reset.

Section Reachable.
Context {R : GoRuntime}.

Lemma naive_draws_ext (n : nat) (g1 g2 : rng) :
  (forall k, (k < n)%nat -> g1 k = g2 k) ->
  fst (naive_draws n g1) = fst (naive_draws n g2).
Proof.
  revert g1 g2; induction n as [| n IH]; intros g1 g2 H; [reflexivity |].
  cbn [naive_draws rand_Intn].
  specialize (IH (fun k => g1 (S k)) (fun k => g2 (S k)) ltac:(intros; apply H; lia)).
  destruct (naive_draws n (fun k => g1 (S k))), (naive_draws n (fun k => g2 (S k))).
  cbn [fst] in *. rewrite (H O) by lia. congruence.
Qed.

(** The profile depends on the first [width] draws only. *)
Lemma generateTerrain_ext (width iterations : Z) (g1 g2 : rng) :
  (forall k, (k < Z.to_nat width)%nat -> g1 k = g2 k) ->
  option_map fst (generateTerrain width iterations g1) =
  option_map fst (generateTerrain width iterations g2).
Proof.
  intros H. unfold generateTerrain, naiveTerrain.
  destruct ((width <? 0) || (max_len <? width)); [reflexivity |].
  pose proof (naive_draws_ext _ g1 g2 H) as E.
  destruct (naive_draws (Z.to_nat width) g1), (naive_draws (Z.to_nat width) g2).
  cbn [fst] in E. subst. destruct (blend l0 iterations); reflexivity.
Qed.

(** [simulate] touches the ball, the two flags and the clock, nothing else. *)
Lemma simulate_frame (m m' : model) (c : Cmd) :
  simulate m = Some (m', c) ->
  terrain m' = terrain m /\ tankPos m' = tankPos m /\ targetPos m' = targetPos m /\
  angle m' = angle m /\ power m' = power m.
Proof.
  unfold simulate. destruct (simulating m); cbn [negb].
  - destruct (index (terrain m) (tankPos m)); [| discriminate].
    destruct (out_or_ground _ _ _).
    + intros E; inversion E; subst; cbn; auto.
    + destruct (target_hit _) as [[|] |]; intros E; inversion E; subst; cbn; auto.
  - intros E; inversion E; subst; auto.
Qed.

Lemma key_update_frame (m : model) (key : string) :
  terrain (fst (key_update m key)) = terrain m /\
  tankPos (fst (key_update m key)) = tankPos m /\
  targetPos (fst (key_update m key)) = targetPos m /\
  ballPosX (fst (key_update m key)) = ballPosX m /\
  ballPosY (fst (key_update m key)) = ballPosY m.
Proof.
  unfold key_update.
  repeat match goal with
         | |- context [if ?b then _ else _] => destruct b
         end; cbn; auto.
Qed.

Lemma resetGame_well_formed (m : model) (g : rng) (m' : model) (g' : rng) :
  resetGame m g = Some (m', g') -> well_formed m'.
Proof.
  intros H. destruct (resetGame_inv m g m' g' H) as (t & y & Ht & _ & _ & ->).
  destruct (generateTerrain_game g) as (t' & g0 & E & Hl).
  rewrite Ht in E. inversion E; subst.
  unfold well_formed. cbn. pose proof (mod5 (g 100%nat)). pose proof (mod5 (g 101%nat)). lia.
Qed.

Lemma initialModel_well_formed (g : rng) (m : model) (g' : rng) :
  initialModel g = Some (m, g') -> well_formed m.
Proof.
  unfold initialModel.
  destruct (generateTerrain_game g) as (t & g0 & -> & Hl).
  cbn [rand_Intn]. destruct (index t (g0 O mod 5 + 1)); [| discriminate].
  intros E; inversion E; subst. unfold well_formed; cbn.
  pose proof (mod5 (g0 O)). pose proof (mod5 (g0 1%nat)). lia.
Qed.

Lemma Update_well_formed (m : model) (msg : Msg) (g : rng) (m' : model) (c : Cmd) (g' : rng) :
  well_formed m -> Update m msg g = Some (m', c, g') -> well_formed m'.
Proof.
  intros Hw. destruct msg as [key | | |]; cbn [Update].
  - pose proof (key_update_frame m key) as (H1 & H2 & H3 & _).
    destruct (key_update m key) as [m1 c1]. cbn [fst] in *.
    intros E; inversion E; subst. unfold well_formed in *. rewrite H1, H2, H3. exact Hw.
  - destruct (simulate m) as [[m1 c1] |] eqn:E; [| discriminate].
    apply simulate_frame in E. destruct E as (H1 & H2 & H3 & _).
    intros E; inversion E; subst. unfold well_formed in *. rewrite H1, H2, H3. exact Hw.
  - destruct (resetGame m g) as [[m1 g1] |] eqn:E; [| discriminate].
    intros E'; inversion E'; subst. eapply resetGame_well_formed; eassumption.
  - intros E; inversion E; subst. exact Hw.
Qed.

Lemma reachable_well_formed (m : model) (g : rng) : reachable m g -> well_formed m.
Proof.
  induction 1 as [g m g' H | m g msg m' c g' _ IH H].
  - eapply initialModel_well_formed; eassumption.
  - eapply Update_well_formed; eassumption.
Qed.

Lemma run_reachable (msgs : list Msg) (m : model) (g : rng) (m' : model) (g' : rng) :
  reachable m g -> run msgs m g = Some (m', g') -> reachable m' g'.
Proof.
  revert m g; induction msgs as [| msg rest IH]; intros m g Hr; cbn [run].
  - intros E; inversion E; subst. exact Hr.
  - destruct (Update m msg g) as [[[m1 c1] g1] |] eqn:E; [| discriminate].
    apply IH. eapply reach_step; eassumption.
Qed.

(** C10.  [resetGame] reads the projectile's row from the terrain of the
    model being replaced, at a column drawn afresh in [1..5] (the fourth
    draw after the terrain's hundred), and draws the projectile's column
    independently (the third draw), while the tank's column is the first
    draw; so after a restart the projectile need not stand where the new
    tank stands: there are resets whose ball column differs from the tank
    column, and resets whose ball row is not the new terrain's height at the
    tank. *)
Theorem resetGame_ball_taken_from_old_terrain :
  (forall m g m' g', resetGame m g = Some (m', g') ->
     index (terrain m) (g 103%nat mod 5 + 1) = Some (ballPosY m') /\
     1 <= g 103%nat mod 5 + 1 <= 5 /\
     ballPosX m' = g 102%nat mod 5 + 1 /\ 1 <= ballPosX m' <= 5 /\
     tankPos m' = g 100%nat mod 5 + 1 /\
     option_map fst (generateTerrain 100 6 g) = Some (terrain m')) /\
  (exists m g m' g', resetGame m g = Some (m', g') /\ ballPosX m' <> tankPos m') /\
  (exists m g m' g', resetGame m g = Some (m', g') /\
     index (terrain m') (tankPos m') <> Some (ballPosY m')).
Proof.
  assert (Hreset : forall g y, index (terrain ramp) (g 103%nat mod 5 + 1) = Some y ->
            exists t, option_map fst (generateTerrain 100 6 g) = Some t /\
            resetGame ramp g =
            Some ({| terrain := t; tankPos := g 100%nat mod 5 + 1;
                     targetPos := g 101%nat mod 5 + 75;
                     ballPosX := g 102%nat mod 5 + 1; ballPosY := y;
                     angle := 45%float; power := 20%float;
                     simulating := false; hit := false; timePassed := 0%float |},
                  fun k => g (104 + k)%nat)).
  { intros g y Hy. unfold resetGame.
    destruct (generateTerrain_game g) as (t & g0 & E & _).
    rewrite E. pose proof (generateTerrain_rng _ _ _ _ _ E) as ->.
    change (Z.to_nat 100) with 100%nat. cbn [rand_Intn Nat.add].
    cbn [Nat.add] in Hy. rewrite Hy. exists t. split; reflexivity. }
  split; [| split].
  - intros m g m' g' H.
    destruct (resetGame_inv m g m' g' H) as (t & y & Ht & Hy & _ & ->).
    rewrite Ht. cbn. pose proof (mod5 (g 102%nat)). pose proof (mod5 (g 103%nat)).
    repeat split; auto; lia.
  - destruct (Hreset (fun k => if Nat.eqb k 102 then 1 else 0) 3 eq_refl) as (t & _ & E).
    do 4 eexists. split; [exact E |]. cbn. discriminate.
  - pose (ga := fun _ : nat => 0). pose (gb := fun k => if Nat.eqb k 103 then 3 else 0).
    destruct (Hreset ga 3 eq_refl) as (ta & Ea & Ra).
    destruct (Hreset gb 7 eq_refl) as (tb & Eb & Rb).
    assert (ta = tb).
    { rewrite (generateTerrain_ext 100 6 ga gb) in Ea; [congruence |].
      intros k Hk. unfold ga, gb. change (Z.to_nat 100) with 100%nat in Hk.
      destruct (Nat.eqb_spec k 103); [lia | reflexivity]. }
    subst tb.
    destruct (Z.eq_dec (nth 1 ta 0) 3) as [E3 | N3].
    + do 4 eexists. split; [exact Rb |]. cbn [terrain tankPos ballPosY].
      change (gb 100%nat mod 5 + 1) with 1. unfold index. change (1 <? 0) with false.
      change (Z.to_nat 1) with 1%nat. cbv iota.
      destruct ta as [| a [| b ta]]; cbn in *; congruence.
    + do 4 eexists. split; [exact Ra |]. cbn [terrain tankPos ballPosY].
      change (ga 100%nat mod 5 + 1) with 1. unfold index. change (1 <? 0) with false.
      change (Z.to_nat 1) with 1%nat. cbv iota.
      destruct ta as [| a [| b ta]]; cbn in *; congruence.
Qed.

End Reachable.

(** ** The clock of a simulation run *)

Section Clock.
Context {R : GoRuntime}.

(** Every tick of a model in flight adds the step to the clock, whether the
    flight continues, hits or misses. *)
Lemma simulate_clock (m m' : model) (c : Cmd) :
  simulating m = true -> simulate m = Some (m', c) ->
  timePassed m' = (timePassed m + 0.1)%float.
Proof.
  intros Hs. unfold simulate. rewrite Hs. cbn [negb].
  destruct (index (terrain m) (tankPos m)); [| discriminate].
  destruct (out_or_ground _ _ _).
  - intros E; inversion E; subst; reflexivity.
  - destruct (target_hit _) as [[|] |]; intros E; inversion E; subst; reflexivity.
Qed.

Lemma run_ticks_idle (k : nat) (m : model) (g : rng) :
  simulating m = false -> run (ticks k) m g = Some (m, g).
Proof.
  intros Hs. induction k as [| k IH]; [reflexivity |].
  cbn [ticks repeat run Update]. rewrite (simulate_idle m Hs). exact IH.
Qed.

Lemma run_ticks_clock (k : nat) (m : model) (g : rng) (mk : model) (gk : rng) :
  run (ticks k) m g = Some (mk, gk) -> simulating mk = true ->
  timePassed mk = Nat.iter k (fun t => (t + 0.1)%float) (timePassed m).
Proof.
  revert m; induction k as [| k IH]; intros m.
  - cbn. intros E _; inversion E; subst; reflexivity.
  - cbn [ticks repeat run Update].
    destruct (simulate m) as [[m1 c1] |] eqn:E; [| discriminate].
    intros Hrun Hk. destruct (simulating m) eqn:Hs.
    + rewrite (IH m1 Hrun Hk), (simulate_clock m m1 c1 Hs E).
      rewrite Nat.iter_succ_r. reflexivity.
    + rewrite (simulate_idle m Hs) in E. inversion E; subst m1 c1.
      change (run (repeat tickMsg k) m g) with (run (ticks k) m g) in Hrun.
      rewrite (run_ticks_idle k m g Hs) in Hrun. inversion Hrun; subst. congruence.
Qed.

End Clock.

(** ** Worked runs on the concrete runtime *)

Lemma flat_start_is_initial :
  @initialModel go_amd64 flat_rng = Some (flat_start, flat_rng).
Proof. vm_compute. reflexivity. Qed.

Lemma flat_start_reachable : @reachable go_amd64 flat_start flat_rng.
Proof. exact (@reach_init go_amd64 _ _ _ flat_start_is_initial). Qed.

(** C1 (the code departs from the claim).  From the model [main] builds on
    the flat terrain, raising the power to 27, firing, letting the 38 ticks
    of the flight pass (the last one is a hit) and pressing fire again
    reaches a model with [simulating = true] and [hit = true]: [Update]
    accepts the fire command whenever [simulating] is false and leaves [hit]
    as it is. *)
Theorem fire_after_hit_sets_both_flags :
  @run go_amd64 fire_hit_fire flat_start flat_rng = Some (both_flags, flat_rng) /\
  @reachable go_amd64 both_flags flat_rng /\
  simulating both_flags = true /\ hit both_flags = true.
Proof.
  assert (E : @run go_amd64 fire_hit_fire flat_start flat_rng = Some (both_flags, flat_rng))
    by (vm_compute; reflexivity).
  split; [exact E |]. split; [| split; reflexivity].
  exact (@run_reachable go_amd64 _ _ _ _ _ flat_start_reachable E).
Qed.



(** C3, the claim as stated fails when the projectile's column is the
    rounded one: on the first tick of [buried_shot] the rounded cell is
    column 5, row 6; the terrain at column 5 is 8, so the cell, and the
    computed height 5.567..., are at or below the terrain at the
    projectile's column, and the cell is in the hit band of the target at
    column 5 (rows 6 to 10); yet the tick is a hit, not a miss.  The ground
    test reads column [int(x) = 4], where the terrain is 1. *)
Lemma rounded_cell_under_ground_is_hit :
  simulating buried_shot = true /\
  index (terrain buried_shot) (tankPos buried_shot) = Some 3 /\
  @int_of_float64 go_amd64
    (math_Round (@newXPos go_amd64 buried_shot (timePassed buried_shot + 0.1))) = 5 /\
  @int_of_float64 go_amd64
    (math_Round (@newYPos go_amd64 buried_shot (float64_of_int 3)
                   (timePassed buried_shot + 0.1))) = 6 /\
  index (terrain buried_shot) 5 = Some 8 /\ 6 <= 8 /\
  (@newYPos go_amd64 buried_shot (float64_of_int 3) (timePassed buried_shot + 0.1)
   <=? float64_of_int 8)%float = true /\
  Z.abs (targetPos buried_shot - 5) <= 3 /\
  index (terrain buried_shot) (targetPos buried_shot) = Some 8 /\ 8 - 2 <= 6 <= 8 + 2 /\
  @int_of_float64 go_amd64
    (@newXPos go_amd64 buried_shot (timePassed buried_shot + 0.1)) = 4 /\
  @simulate go_amd64 buried_shot = Some (buried_hit, CmdNil) /\
  hit buried_hit = true /\ simulating buried_hit = false.
Proof.
  repeat split; try (vm_compute; reflexivity); vm_compute; discriminate.
Qed.

Lemma simulate_ground_check_precedes_target_witness :
  @simulate go_amd64 ramp
  = Some (set_flight ramp false (hit ramp) (timePassed ramp + 0.1)%float, CmdReset) /\
  hit (set_flight ramp false (hit ramp) (timePassed ramp + 0.1)%float) = hit ramp /\
  simulating (set_flight ramp false (hit ramp) (timePassed ramp + 0.1)%float) = false.
Proof.
  apply (@simulate_ground_check_precedes_target go_amd64 ramp 3 7 5);
    [reflexivity | reflexivity | vm_compute; reflexivity | vm_compute; reflexivity
    | vm_compute; discriminate | reflexivity
    | split; vm_compute; discriminate].
Defined.


Lemma generateTerrain_determined_by_base_witness :
  option_map fst (@generateTerrain go_amd64 4 2 (fun _ => 10))
  = option_map fst (@generateTerrain go_amd64 4 2 flat_rng).
Proof.
  apply (@generateTerrain_determined_by_base go_amd64 4 2 flat_rng (fun _ => 10)
           [5; 5; 5; 5]%float);
    vm_compute; reflexivity.
Defined.


(** ** Further properties of the state machine *)

Section Extras.
Context {R : GoRuntime}.

Lemma well_formed_index_tank (m : model) :
  well_formed m -> exists h, index (terrain m) (tankPos m) = Some h.
Proof. intros (Hl & Ht & _). apply index_in_range. lia. Qed.

Lemma well_formed_index_target (m : model) :
  well_formed m -> exists h, index (terrain m) (targetPos m) = Some h.
Proof. intros (Hl & _ & Ht). apply index_in_range. lia. Qed.

Lemma simulate_total (m : model) :
  well_formed m -> exists m' c, simulate m = Some (m', c).
Proof.
  intros Hw. unfold simulate. destruct (simulating m); cbn [negb]; [| eauto].
  destruct (well_formed_index_tank m Hw) as [h0 ->].
  destruct (out_or_ground _ _ _); [eauto |].
  unfold target_hit. cbn [terrain targetPos ballPosX ballPosY set_ball set_flight].
  destruct (_ <=? 3); [| eauto].
  destruct (well_formed_index_target m Hw) as [ht ->].
  destruct (_ && _); eauto.
Qed.

Lemma resetGame_total (m : model) (g : rng) :
  well_formed m -> exists m' g', resetGame m g = Some (m', g').
Proof.
  intros (Hl & _ & _). unfold resetGame.
  destruct (generateTerrain_game g) as (t & g0 & -> & _).
  cbn [rand_Intn].
  destruct (index_in_range (terrain m) (g0 3%nat mod 5 + 1)) as [y ->]; [| eauto].
  pose proof (mod5 (g0 3%nat)). lia.
Qed.

Lemma Update_total (m : model) (msg : Msg) (g : rng) :
  well_formed m -> exists m' c g', Update m msg g = Some (m', c, g').
Proof.
  intros Hw. destruct msg as [key | | |]; cbn [Update].
  - destruct (key_update m key); eauto.
  - destruct (simulate_total m Hw) as (m' & c & ->). eauto.
  - destruct (resetGame_total m g Hw) as (m' & g' & ->). eauto.
  - eauto.
Qed.

(** X1.  Every world reachable from [main] keeps the shape [main] gives it:
    a terrain of 100 columns, the tank in columns 1..5 and the target in
    columns 75..79; so tank and target are distinct and inside the terrain. *)
Theorem reachable_models_keep_their_shape (m : model) (g : rng) :
  reachable m g ->
  len (terrain m) = 100 /\ 1 <= tankPos m <= 5 /\ 75 <= targetPos m <= 79 /\
  tankPos m <> targetPos m /\
  0 <= tankPos m < len (terrain m) /\ 0 <= targetPos m < len (terrain m).
Proof.
  intros Hr. destruct (reachable_well_formed m g Hr) as (Hl & Ht & Hg). lia.
Qed.

(** X2.  The game never panics: in every reachable world [Update] has a
    result for every message (no slice is indexed out of range, and the
    terrain generator returns). *)
Theorem Update_never_panics (m : model) (g : rng) (msg : Msg) :
  reachable m g -> exists m' c g', Update m msg g = Some (m', c, g').
Proof.
  intros Hr. apply Update_total. eapply reachable_well_formed; eassumption.
Qed.

(** X3.  What a tick of a model in flight can do, by the command it
    returns: a reset is scheduled exactly on a miss (flight over, hit flag
    and ball untouched); no command means a hit (flight over, hit flag
    set); a further tick is scheduled only when the flight goes on (hit flag
    untouched).  So one tick never schedules two timers, and never both
    ends the flight and asks for another tick. *)
Theorem simulate_outcomes (m m' : model) (c : Cmd) :
  simulating m = true -> simulate m = Some (m', c) ->
  (c = CmdReset /\ simulating m' = false /\ hit m' = hit m /\
   ballPosX m' = ballPosX m /\ ballPosY m' = ballPosY m) \/
  (c = CmdNil /\ simulating m' = false /\ hit m' = true) \/
  (c = CmdTick /\ simulating m' = true /\ hit m' = hit m).
Proof.
  intros Hs. unfold simulate. rewrite Hs. cbn [negb].
  destruct (index (terrain m) (tankPos m)); [| discriminate].
  destruct (out_or_ground _ _ _).
  - intros E; inversion E; subst. left. cbn. auto.
  - destruct (target_hit _) as [[|] |]; intros E; inversion E; subst; cbn; auto.
Qed.

Lemma Update_flags (m : model) (msg : Msg) (g : rng) (m' : model) (c : Cmd) (g' : rng) :
  simulating m && hit m = false ->
  (msg = KeyMsg "enter" -> hit m = false) ->
  Update m msg g = Some (m', c, g') ->
  simulating m' && hit m' = false.
Proof.
  intros Hf Hfire. destruct msg as [key | | |]; cbn [Update].
  - unfold key_update. destruct (String.eqb_spec key "q").
    { intros E; inversion E; subst; exact Hf. }
    destruct (simulating m) eqn:Hs; cbn [negb].
    { intros E; inversion E; subst. rewrite Hs. exact Hf. }
    destruct (String.eqb key "a"); [intros E; inversion E; subst; cbn; rewrite Hs; reflexivity |].
    destruct (String.eqb key "d"); [intros E; inversion E; subst; cbn; rewrite Hs; reflexivity |].
    destruct (String.eqb key "w"); [intros E; inversion E; subst; cbn; rewrite Hs; reflexivity |].
    destruct (String.eqb key "s"); [intros E; inversion E; subst; cbn; rewrite Hs; reflexivity |].
    destruct (String.eqb_spec key "enter").
    + intros E; inversion E; subst. cbn. apply Hfire. reflexivity.
    + intros E; inversion E; subst. rewrite Hs. reflexivity.
  - destruct (simulate m) as [[m1 c1] |] eqn:E; [| discriminate].
    intros E'; inversion E'; subst. destruct (simulating m) eqn:Hs.
    + destruct (simulate_outcomes m m' c Hs E) as [(_ & -> & _) | [(_ & -> & _) | (_ & -> & ->)]];
        try reflexivity. cbn in Hf. rewrite Hf. reflexivity.
    + rewrite (simulate_idle m Hs) in E. inversion E; subst. rewrite Hs. reflexivity.
  - destruct (resetGame m g) as [[m1 g1] |] eqn:E; [| discriminate].
    intros E'; inversion E'; subst.
    destruct (resetGame_inv _ _ _ _ E) as (t & y & _ & _ & _ & ->). reflexivity.
  - intros E; inversion E; subst. exact Hf.
Qed.

(** X4.  The flags [simulating] and [hit] are never both set as long as
    the fire key is not pressed on a model whose hit flag is set: every
    other message, in any order, keeps them exclusive. *)
Theorem flags_exclusive_without_fire_after_hit (m : model) (g : rng) :
  played m g -> simulating m && hit m = false.
Proof.
  induction 1 as [g m g' H | m g msg m' c g' _ IH Hfire H].
  - unfold initialModel in H. destruct (generateTerrain 100 6 g) as [[t g0] |]; [| discriminate].
    cbn [rand_Intn] in H. destruct (index t _); [| discriminate].
    inversion H; subst. reflexivity.
  - eapply Update_flags; eassumption.
Qed.

(** X5.  [resetGame] restarts the whole match: the aim is back at 45
    degrees and power 20, both flags are cleared, the clock is zero, the
    terrain is a fresh one of 100 columns, and exactly 104 draws of the
    random source are used (100 for the terrain, 4 for the columns). *)
Theorem resetGame_restores_defaults (m : model) (g : rng) (m' : model) (g' : rng) :
  resetGame m g = Some (m', g') ->
  angle m' = 45%float /\ power m' = 20%float /\
  simulating m' = false /\ hit m' = false /\ timePassed m' = 0%float /\
  len (terrain m') = 100 /\ 1 <= tankPos m' <= 5 /\ 75 <= targetPos m' <= 79 /\
  g' = (fun k => g (104 + k)%nat).
Proof.
  intros H. destruct (resetGame_well_formed m g m' g' H) as (Hl & Ht & Hg).
  destruct (resetGame_inv m g m' g' H) as (t & y & _ & _ & Hg' & ->).
  cbn in *. repeat split; auto; lia.
Qed.

(** X6.  The generator reads exactly [width] draws: the source it returns
    is the one it was given, advanced by [width], and the profile is the
    same for every source that agrees on those first [width] draws. *)
Theorem generateTerrain_reads_width_draws (width octaves : Z) (g g' : rng) (t : list Z) :
  generateTerrain width octaves g = Some (t, g') ->
  g' = (fun k => g (Z.to_nat width + k)%nat) /\
  forall g2, (forall k, (k < Z.to_nat width)%nat -> g2 k = g k) ->
             option_map fst (generateTerrain width octaves g2) = Some t.
Proof.
  intros H. split; [eapply generateTerrain_rng; eassumption |].
  intros g2 H2. rewrite (generateTerrain_ext width octaves g2 g H2), H. reflexivity.
Qed.

(** X7.  From 64 octaves on the generator has no result, whatever the
    width (at least 1) and the draws: the layer [z = octaves - 63] has the
    stride [1 << 63], which is negative, and the sampling loop reads the
    base sequence at a negative index. *)
Theorem generateTerrain_no_result_from_64_octaves (width octaves : Z) (g : rng) :
  1 <= width -> 64 <= octaves -> generateTerrain width octaves g = None.
Proof.
  intros Hw Ho. unfold generateTerrain, naiveTerrain.
  destruct (Z.ltb_spec width 0); [lia |].
  destruct (max_len <? width); [reflexivity |]. cbn [orb].
  pose proof (naive_draws_length (Z.to_nat width) g) as Hn.
  destruct (naive_draws (Z.to_nat width) g) as [naive g'] eqn:E. cbn [fst] in Hn.
  assert (Hne : naive <> []) by (intros ->; cbn in Hn; lia).
  unfold blend.
  rewrite (octaves_loop_fails naive octaves _ (Z.to_nat (octaves - 63))); [reflexivity | lia |].
  unfold octave. rewrite Z2Nat.id by lia.
  replace (octaves - (octaves - 63)) with 63 by lia.
  change (wrap64 (Z.shiftl 1 63)) with (- 2 ^ 63).
  rewrite samplePoints_negative_stride; [reflexivity | exact Hne | lia].
Qed.


(** X9.  No key ever changes the terrain, the columns of tank and target,
    the ball's cell or the hit flag; in particular firing does not put the
    ball back on the tank. *)
Theorem keys_leave_field_and_ball (m : model) (key : string) (g : rng) :
  exists m' c, Update m (KeyMsg key) g = Some (m', c, g) /\
    terrain m' = terrain m /\ tankPos m' = tankPos m /\ targetPos m' = targetPos m /\
    ballPosX m' = ballPosX m /\ ballPosY m' = ballPosY m /\ hit m' = hit m.
Proof.
  cbn [Update]. pose proof (key_update_frame m key) as (H1 & H2 & H3 & H4 & H5).
  assert (H6 : hit (fst (key_update m key)) = hit m).
  { unfold key_update.
    repeat match goal with
           | |- context [if ?b then _ else _] => destruct b
           end; reflexivity. }
  destruct (key_update m key) as [m' c]. cbn [fst] in *. exists m', c. auto 10.
Qed.

(** X10.  [main] always builds a model, with the ball standing on the tank
    (same column, the terrain's height there), the aim at 45 degrees and
    power 20, and both flags cleared. *)
Theorem main_puts_ball_on_tank (g : rng) :
  exists m g', initialModel g = Some (m, g') /\
    ballPosX m = tankPos m /\ index (terrain m) (tankPos m) = Some (ballPosY m) /\
    angle m = 45%float /\ power m = 20%float /\
    simulating m = false /\ hit m = false /\
    g' = (fun k => g (102 + k)%nat).
Proof.
  unfold initialModel.
  destruct (generateTerrain_game g) as (t & g0 & E & Hl).
  rewrite E. pose proof (generateTerrain_rng _ _ _ _ _ E) as ->.
  change (Z.to_nat 100) with 100%nat. cbn [rand_Intn].
  destruct (index_in_range t (g (100 + 0)%nat mod 5 + 1)) as [y Hy].
  { pose proof (mod5 (g (100 + 0)%nat)). lia. }
  rewrite Hy. do 2 eexists. split; [reflexivity |]. cbn. auto 10.
Qed.

(** X11.  Ticks that arrive when no flight is on change nothing and
    schedule nothing, however many there are: the model and the random
    source come back as they were, and every one of the ticks is answered
    with the empty command. *)
Theorem stale_ticks_are_ignored (m : model) (g : rng) (k : nat) :
  simulating m = false ->
  run_cmds (ticks k) m g = Some (m, repeat CmdNil k, g) /\
  run (ticks k) m g = Some (m, g).
Proof.
  intros Hs. induction k as [| k [IH1 IH2]]; [split; reflexivity |].
  cbn [ticks repeat run run_cmds Update]. unfold simulate. rewrite Hs. cbn [negb].
  fold (ticks k). rewrite IH1. split; [reflexivity | exact IH2].
Qed.

(** X12.  A tick never changes the terrain, the columns of tank and
    target, or the aim. *)
Theorem simulate_keeps_field_and_aim (m m' : model) (c : Cmd) :
  simulate m = Some (m', c) ->
  terrain m' = terrain m /\ tankPos m' = tankPos m /\ targetPos m' = targetPos m /\
  angle m' = angle m /\ power m' = power m.
Proof.
  unfold simulate. destruct (simulating m); cbn [negb].
  - destruct (index (terrain m) (tankPos m)); [| discriminate].
    destruct (out_or_ground _ _ _).
    + intros E; inversion E; subst; cbn; auto.
    + destruct (target_hit _) as [[|] |]; intros E; inversion E; subst; cbn; auto.
  - intros E; inversion E; subst; auto.
Qed.

End Extras.

(** ** The screen *)

Section Screen.

Lemma display_row_length (tr : list Z) (tank target bx by_ x0 y : Z) :
  List.length (display_row tr tank target bx by_ x0 y) = List.length tr.
Proof.
  revert x0; induction tr as [| h rest IH]; intros x0; cbn; [reflexivity |].
  rewrite IH. reflexivity.
Qed.

Lemma cell_at_ball (tank target bx by_ x h y : Z) :
  cell_at tank target bx by_ x h y = CBall <-> x = bx /\ y = by_.
Proof.
  unfold cell_at.
  destruct (Z.eqb_spec x bx); destruct (Z.eqb_spec y by_); cbn [andb];
    try (split; [intros _; auto | reflexivity]);
    repeat match goal with
           | |- context [if ?b then _ else _] => destruct b
           end; split; try discriminate; intros [? ?]; contradiction.
Qed.

Lemma display_row_ball (tr : list Z) (tank target bx by_ x0 y : Z) :
  In CBall (display_row tr tank target bx by_ x0 y) <->
  y = by_ /\ x0 <= bx < x0 + len tr.
Proof.
  revert x0; induction tr as [| h rest IH]; intros x0; cbn [display_row In].
  - unfold len; cbn. split; [contradiction | lia].
  - rewrite IH, cell_at_ball. unfold len. cbn [List.length]. lia.
Qed.

Lemma cell_at_tank (tank target bx by_ x h y : Z) :
  cell_at tank target bx by_ x h y = CTank <->
  x = tank /\ h = y /\ ~ (x = bx /\ y = by_).
Proof.
  unfold cell_at.
  destruct (Z.eqb_spec x bx); destruct (Z.eqb_spec y by_); cbn [andb];
    try (split; [discriminate | intros (_ & _ & H); exfalso; apply H; auto]);
    destruct (Z.eqb_spec x tank); destruct (Z.eqb_spec h y); cbn [andb];
    try (split; [intros _; repeat split; auto; intros [? ?]; contradiction | reflexivity]);
    repeat match goal with
           | |- context [if ?b then _ else _] => destruct b
           end; split; try discriminate; intros (? & ? & _); contradiction.
Qed.

Lemma display_row_tank (tr : list Z) (tank target bx by_ x0 y : Z) :
  In CTank (display_row tr tank target bx by_ x0 y) <->
  x0 <= tank /\ index tr (tank - x0) = Some y /\ ~ (tank = bx /\ y = by_).
Proof.
  revert x0; induction tr as [| h rest IH]; intros x0; cbn [display_row In].
  - split; [contradiction |]. intros (_ & H & _). unfold index in H.
    destruct (tank - x0 <? 0); [discriminate |]. destruct (Z.to_nat (tank - x0)); discriminate.
  - rewrite IH, cell_at_tank. unfold index.
    destruct (Z.eq_dec x0 tank) as [-> | Hne].
    + rewrite Z.sub_diag. cbn. replace (tank - (tank + 1)) with (-1) by lia. cbn.
      split.
      * intros [(_ & -> & H) | (Hc & _)]; [| lia]. split; [lia |]. split; [reflexivity | exact H].
      * intros (_ & E & H). inversion E; subst. left. auto.
    + destruct (Z.ltb_spec (tank - x0) 0) as [Hlt | Hge].
      * split; [intros [(E & _) | (Hc & _)]; [congruence | lia] | intros (_ & E & _); discriminate].
      * destruct (Z.ltb_spec (tank - (x0 + 1)) 0); [lia |].
        replace (Z.to_nat (tank - x0)) with (S (Z.to_nat (tank - (x0 + 1)))) by lia.
        cbn [nth_error]. split.
        -- intros [(E & _) | (Hc & E & Hb)]; [congruence |]. split; [lia | auto].
        -- intros (Hc & E & Hb). right. split; [lia | auto].
Qed.

Lemma in_concat_map_seq {A : Type} (f : nat -> list A) (a : A) (n : nat) :
  In a (List.concat (map f (seq 0 n))) <-> exists k, (k < n)%nat /\ In a (f k).
Proof.
  rewrite in_concat. split.
  - intros (l & Hl & Ha). apply in_map_iff in Hl. destruct Hl as (k & <- & Hk).
    apply in_seq in Hk. exists k. split; [lia | exact Ha].
  - intros (k & Hk & Ha). exists (f k). split; [| exact Ha].
    apply in_map. apply in_seq. lia.
Qed.

(** X13.  The grid always has 31 lines (rows 30 down to 0), each with one
    cell per terrain column. *)
Theorem view_grid_dimensions (m : model) :
  List.length (view_grid m) = 31%nat /\
  forall row, In row (view_grid m) -> List.length row = List.length (terrain m).
Proof.
  unfold view_grid, displayTerrainWithTank. split.
  - rewrite length_map, length_seq. reflexivity.
  - intros row Hrow. apply in_map_iff in Hrow. destruct Hrow as (k & <- & _).
    apply display_row_length.
Qed.

(** X14.  The ball is drawn exactly when its cell lies on the grid: its
    column inside the terrain and its row between 0 and 30.  A ball that a
    tick has put at column -1, at column [width] or above row 30 is
    invisible. *)
Theorem ball_drawn_iff_on_grid (m : model) :
  In CBall (List.concat (view_grid m)) <->
  0 <= ballPosX m < len (terrain m) /\ 0 <= ballPosY m <= 30.
Proof.
  unfold view_grid, displayTerrainWithTank. rewrite in_concat_map_seq. split.
  - intros (k & Hk & Hin). apply display_row_ball in Hin. lia.
  - intros (Hx & Hy). exists (Z.to_nat (30 - ballPosY m)). split; [lia |].
    apply display_row_ball. lia.
Qed.

(** X15.  The tank is drawn exactly when the terrain under it is between 0
    and 30 high and the ball is not in the tank's cell (the ball is tested
    first and hides it). *)
Theorem tank_drawn_iff_visible (m : model) :
  In CTank (List.concat (view_grid m)) <->
  exists h, index (terrain m) (tankPos m) = Some h /\ 0 <= h <= 30 /\
            ~ (tankPos m = ballPosX m /\ h = ballPosY m).
Proof.
  unfold view_grid, displayTerrainWithTank. rewrite in_concat_map_seq. split.
  - intros (k & Hk & Hin). apply display_row_tank in Hin.
    destruct Hin as (_ & Hi & Hb). rewrite Z.sub_0_r in Hi.
    exists (30 - Z.of_nat k). split; [exact Hi |]. split; [lia | exact Hb].
  - intros (h & Hi & Hh & Hb). exists (Z.to_nat (30 - h)). split; [lia |].
    apply display_row_tank. rewrite Z.sub_0_r.
    replace (30 - Z.of_nat (Z.to_nat (30 - h))) with h by lia.
    pose proof (index_Some_range _ _ _ Hi). split; [lia | auto].
Qed.

(** X16.  The status line: "You hit the target!" is shown exactly when the
    hit flag is set (also during a flight fired after the hit), "Missed!
    Game restarting..." exactly when the model is idle with no hit; so the
    model [main] builds shows "Missed!" before any shot is fired. *)
Theorem banner_shown {R : GoRuntime} :
  (forall m, banner m = BannerHit <-> hit m = true) /\
  (forall m, banner m = BannerMissed <-> hit m = false /\ simulating m = false) /\
  (forall g m g', initialModel g = Some (m, g') -> banner m = BannerMissed).
Proof.
  split; [| split].
  - intros m. unfold banner. destruct (hit m), (simulating m); cbn; split;
      intros; try reflexivity; discriminate.
  - intros m. unfold banner. destruct (hit m), (simulating m); cbn; split;
      try discriminate; auto; intros [? ?]; discriminate.
  - intros g m g' Hi. unfold initialModel in Hi.
    destruct (generateTerrain 100 6 g) as [[t g0] |]; [| discriminate].
    cbn [rand_Intn] in Hi. destruct (index t _); [| discriminate].
    inversion Hi; subst. reflexivity.
Qed.

End Screen.

(** ** Bounds through binary64 rounding

    The operations of [float64] round to nearest even; on operands in the
    ranges above the results stay in ranges that are computed from the
    operands' ranges, as long as the bounds stay below [2^52]. *)

Lemma digits2_pos_lower (p : positive) : 2 ^ (Zpos (digits2_pos p) - 1) <= Zpos p.
Proof.
  induction p as [p IH | p IH |]; cbn [digits2_pos]; try (cbn; lia).
  - rewrite Pos2Z.inj_succ. replace (Z.succ (Zpos (digits2_pos p)) - 1)
      with (Z.succ (Zpos (digits2_pos p) - 1)) by lia.
    rewrite Z.pow_succ_r by lia. lia.
  - rewrite Pos2Z.inj_succ. replace (Z.succ (Zpos (digits2_pos p)) - 1)
      with (Z.succ (Zpos (digits2_pos p) - 1)) by lia.
    rewrite Z.pow_succ_r by lia. lia.
Qed.

Lemma digits2_pos_upper (p : positive) : Zpos p < 2 ^ Zpos (digits2_pos p).
Proof.
  induction p as [p IH | p IH |]; cbn [digits2_pos]; try (cbn; lia).
  - rewrite Pos2Z.inj_succ, Z.pow_succ_r by lia. lia.
  - rewrite Pos2Z.inj_succ, Z.pow_succ_r by lia. lia.
Qed.

Lemma iter_pos_nat {A : Type} (f : A -> A) (n : positive) (x : A) :
  iter_pos f n x = Nat.iter (Pos.to_nat n) f x.
Proof.
  revert x; induction n as [n IH | n IH |]; intros x; cbn [iter_pos].
  - rewrite Pos2Nat.inj_xI, !IH. cbn [Nat.iter Nat.mul].
    rewrite Nat.add_0_r, <- Nat.iter_add. cbn [Nat.iter].
    rewrite Nat.iter_succ_r. reflexivity.
  - rewrite Pos2Nat.inj_xO, !IH. cbn [Nat.mul]. rewrite Nat.add_0_r, <- Nat.iter_add.
    reflexivity.
  - reflexivity.
Qed.

Lemma shr_1_spec (mrs : shr_record) :
  0 <= shr_m mrs ->
  shr_m (shr_1 mrs) = shr_m mrs / 2 /\
  (exact_record (shr_1 mrs) <-> shr_m mrs mod 2 = 0 /\ exact_record mrs).
Proof.
  destruct mrs as [m r s]. cbn [shr_m]. intros Hm. unfold exact_record.
  destruct m as [| [p | p |] | p]; try lia; cbn [shr_1 shr_m shr_r shr_s].
  - split; [reflexivity |]. destruct r, s; cbn; intuition congruence.
  - rewrite Pos2Z.inj_xI. split.
    + apply Z.div_unique with 1; lia.
    + replace ((2 * Zpos p + 1) mod 2) with 1
        by (apply Z.mod_unique with (Zpos p); lia).
      intuition congruence.
  - rewrite Pos2Z.inj_xO. split.
    + apply Z.div_unique with 0; lia.
    + replace ((2 * Zpos p) mod 2) with 0
        by (apply Z.mod_unique with (Zpos p); lia).
      destruct r, s; cbn; intuition congruence.
  - split; [reflexivity |]. change (1 mod 2) with 1. intuition congruence.
Qed.

Lemma shr_iter_spec (k : nat) (mrs : shr_record) :
  0 <= shr_m mrs ->
  shr_m (Nat.iter k shr_1 mrs) = shr_m mrs / 2 ^ Z.of_nat k /\
  (exact_record (Nat.iter k shr_1 mrs) <->
   shr_m mrs mod 2 ^ Z.of_nat k = 0 /\ exact_record mrs).
Proof.
  intros Hm. induction k as [| k [IH1 IH2]].
  - cbn [Nat.iter]. change (2 ^ Z.of_nat 0) with 1.
    rewrite Z.div_1_r, Z.mod_1_r. intuition.
  - change (Nat.iter (S k) shr_1 mrs) with (shr_1 (Nat.iter k shr_1 mrs)).
    assert (Hk : 0 <= shr_m (Nat.iter k shr_1 mrs)).
    { rewrite IH1. apply Z.div_pos; [lia | apply Z.pow_pos_nonneg; lia]. }
    destruct (shr_1_spec _ Hk) as [H1 H2].
    rewrite Nat2Z.inj_succ, Z.pow_succ_r by lia.
    assert (Hp : 0 < 2 ^ Z.of_nat k) by (apply Z.pow_pos_nonneg; lia).
    split.
    + rewrite H1, IH1, Z.div_div by lia. f_equal. lia.
    + rewrite H2, IH2, IH1.
      pose proof (Z.div_mod (shr_m mrs) (2 ^ Z.of_nat k) ltac:(lia)) as Hd.
      pose proof (Z.mod_pos_bound (shr_m mrs) (2 ^ Z.of_nat k) Hp) as Hb.
      split.
      * intros (Ha & Hb' & He). split; [| exact He].
        apply Z.mod_divide in Ha; [| lia]. destruct Ha as [q Hq].
        apply Z.mod_divide; [lia |]. exists q. rewrite Hd, Hb', Hq. ring.
      * intros (Ha & He). apply Z.mod_divide in Ha; [| lia]. destruct Ha as [q Hq].
        assert (E0 : shr_m mrs mod 2 ^ Z.of_nat k = 0).
        { apply Z.mod_divide; [lia |]. exists (q * 2). rewrite Hq. ring. }
        split; [| split; [exact E0 | exact He]].
        apply Z.mod_divide; [lia |]. exists q.
        rewrite Hq at 1. replace (q * (2 * 2 ^ Z.of_nat k)) with (q * 2 * 2 ^ Z.of_nat k) by ring.
        rewrite Z.div_mul by lia. ring.
Qed.

Lemma shr_spec (mrs : shr_record) (e n : Z) :
  0 <= shr_m mrs ->
  fst (shr mrs e n) = Nat.iter (Z.to_nat n) shr_1 mrs /\
  snd (shr mrs e n) = e + Z.max 0 n /\
  shr_m (fst (shr mrs e n)) = shr_m mrs / 2 ^ Z.max 0 n /\
  (exact_record (fst (shr mrs e n)) <->
   shr_m mrs mod 2 ^ Z.max 0 n = 0 /\ exact_record mrs).
Proof.
  intros Hm. destruct n as [| p | p]; cbn [shr fst snd Z.to_nat].
  - change (Z.max 0 0) with 0. change (2 ^ 0) with 1.
    rewrite Z.div_1_r, Z.mod_1_r, Z.add_0_r. cbn. intuition.
  - rewrite iter_pos_nat. replace (Z.max 0 (Zpos p)) with (Z.of_nat (Pos.to_nat p)) by lia.
    destruct (shr_iter_spec (Pos.to_nat p) mrs Hm) as [H1 H2].
    split; [reflexivity |]. split; [lia |]. split; assumption.
  - replace (Z.max 0 (Zneg p)) with 0 by lia. change (2 ^ 0) with 1.
    rewrite Z.div_1_r, Z.mod_1_r, Z.add_0_r. cbn. intuition.
Qed.

Lemma loc_exact_record (mrs : shr_record) :
  loc_of_shr_record mrs = loc_Exact <-> exact_record mrs.
Proof.
  destruct mrs as [m [|] [|]]; unfold exact_record; cbn; intuition discriminate.
Qed.

Lemma record_of_loc_spec (m : Z) (l : location) :
  shr_m (shr_record_of_loc m l) = m /\
  (exact_record (shr_record_of_loc m l) <-> l = loc_Exact).
Proof.
  destruct l as [| [| |]]; unfold exact_record; cbn; intuition discriminate.
Qed.

Lemma round_nearest_even_bounds (m : Z) (l : location) :
  m <= round_nearest_even m l <= m + 1 /\
  (l = loc_Exact -> round_nearest_even m l = m).
Proof.
  destruct l as [| [| |]]; cbn [round_nearest_even]; try destruct (Z.even m);
    repeat split; try lia; intros; try discriminate; reflexivity.
Qed.

Lemma Zdigits2_le (m k : Z) : 0 <= k -> 0 <= m <= 2 ^ k -> Zdigits2 m <= k + 1.
Proof.
  intros Hk [Hm1 Hm2]. destruct m as [| p | p]; cbn [Zdigits2]; try lia.
  pose proof (digits2_pos_lower p) as Hl.
  assert (2 ^ (Zpos (digits2_pos p) - 1) <= 2 ^ k) by lia.
  apply Z.pow_le_mono_r_iff in H; lia.
Qed.

Lemma fexp_nonpos (x : Z) : x <= 53 -> fexp prec emax x <= 0.
Proof. unfold fexp, SpecFloat.emin, prec, emax. lia. Qed.

Lemma pow2_shift (c e N : Z) :
  0 <= N -> e + N <= 0 -> c * 2 ^ (- e) = c * 2 ^ (- (e + N)) * 2 ^ N.
Proof.
  intros HN He. rewrite <- Z.mul_assoc, <- Z.pow_add_r by lia. f_equal. f_equal. lia.
Qed.

Lemma pow2_le_52 (c e : Z) : 0 <= c <= 2 ^ 52 -> e <= 0 -> c * 2 ^ (- e) <= 2 ^ (52 - e).
Proof.
  intros Hc He. replace (52 - e) with (52 + - e) by lia. rewrite Z.pow_add_r by lia.
  apply Z.mul_le_mono_nonneg_r; [apply Z.pow_nonneg |]; lia.
Qed.

(** One shift-and-truncate step keeps a mantissa under its scaled bound. *)
Lemma shr_fexp_bound (mx ex : Z) (lx : location) (c : Z) :
  0 <= mx -> ex <= 0 -> 0 <= c <= 2 ^ 52 ->
  mx + (match lx with loc_Exact => 0 | _ => 1 end) <= c * 2 ^ (- ex) ->
  let mrs := fst (shr_fexp prec emax mx ex lx) in
  let e' := snd (shr_fexp prec emax mx ex lx) in
  e' <= 0 /\ 0 <= shr_m mrs /\
  shr_m mrs + (match loc_of_shr_record mrs with loc_Exact => 0 | _ => 1 end)
    <= c * 2 ^ (- e').
Proof.
  intros Hm He Hc Hb. unfold shr_fexp.
  set (n := fexp prec emax (Zdigits2 mx + ex) - ex).
  destruct (record_of_loc_spec mx lx) as [Hr1 Hr2].
  destruct (shr_spec (shr_record_of_loc mx lx) ex n ltac:(lia)) as (_ & H2 & H3 & H4).
  cbv zeta. rewrite H2. rewrite Hr1 in H3, H4.
  assert (Hpos : 0 < 2 ^ (- ex)) by (apply Z.pow_pos_nonneg; lia).
  assert (Hmx : mx <= 2 ^ (52 - ex)).
  { pose proof (pow2_le_52 c ex Hc He). destruct lx; lia. }
  assert (Hf : fexp prec emax (Zdigits2 mx + ex) <= 0).
  { apply fexp_nonpos. pose proof (Zdigits2_le mx (52 - ex) ltac:(lia) ltac:(lia)). lia. }
  assert (HN : ex + Z.max 0 n <= 0) by (unfold n; lia).
  set (N := Z.max 0 n) in *. assert (0 <= N) by (unfold N; lia).
  assert (HpN : 0 < 2 ^ N) by (apply Z.pow_pos_nonneg; lia).
  split; [exact HN |]. split; [rewrite H3; apply Z.div_pos; lia |].
  rewrite (pow2_shift c ex N ltac:(lia) HN) in Hb.
  set (K := c * 2 ^ (- (ex + N))) in *.
  pose proof (Z.div_mod mx (2 ^ N) ltac:(lia)) as Hd.
  pose proof (Z.mod_pos_bound mx (2 ^ N) HpN) as Hmb.
  rewrite H3.
  destruct (loc_of_shr_record (fst (shr (shr_record_of_loc mx lx) ex n))) eqn:El.
  - assert (mx / 2 ^ N <= K); [| lia].
    apply Z.div_le_upper_bound; [lia |]. destruct lx; lia.
  - assert (Hne : ~ (mx mod 2 ^ N = 0 /\ lx = loc_Exact)).
    { intros [Ha Hb']. apply Hr2 in Hb'.
      assert (exact_record (fst (shr (shr_record_of_loc mx lx) ex n))) by (apply H4; auto).
      apply loc_exact_record in H0. congruence. }
    assert (mx < K * 2 ^ N).
    { destruct lx; [| lia].
      destruct (Z.eq_dec (mx mod 2 ^ N) 0) as [E0 | N0]; [exfalso; apply Hne; auto |].
      assert (mx <> K * 2 ^ N); [| lia].
      intros Emx. apply N0. rewrite Emx. apply Z.mod_mul. lia. }
    assert (mx / 2 ^ N < K); [| lia].
    apply Z.div_lt_upper_bound; lia.
Qed.

Lemma binary_round_aux_bound (s : bool) (mx ex : Z) (lx : location) (c : Z) :
  0 <= mx -> ex <= 0 -> 0 <= c <= 2 ^ 52 ->
  mx + (match lx with loc_Exact => 0 | _ => 1 end) <= c * 2 ^ (- ex) ->
  sf_bound s (binary_round_aux prec emax s mx ex lx) c.
Proof.
  intros Hm He Hc Hb. unfold binary_round_aux.
  pose proof (shr_fexp_bound mx ex lx c Hm He Hc Hb) as H1. cbv zeta in H1.
  destruct (shr_fexp prec emax mx ex lx) as [mrs' e']. cbn [fst snd] in H1.
  destruct H1 as (He' & Hm' & Hb').
  destruct (round_nearest_even_bounds (shr_m mrs') (loc_of_shr_record mrs')) as [Hr Hx].
  set (m2 := round_nearest_even (shr_m mrs') (loc_of_shr_record mrs')) in *.
  assert (Hb2 : m2 + 0 <= c * 2 ^ (- e')).
  { destruct (loc_of_shr_record mrs'); [rewrite Hx by reflexivity |]; lia. }
  pose proof (shr_fexp_bound m2 e' loc_Exact c ltac:(lia) He' Hc Hb2) as H2. cbv zeta in H2.
  destruct (shr_fexp prec emax m2 e' loc_Exact) as [mrs'' e'']. cbn [fst snd] in H2.
  destruct H2 as (He'' & Hm'' & Hb'').
  destruct (shr_m mrs'') as [| m | m] eqn:E; [reflexivity | | lia].
  assert ((e'' <=? emax - prec) = true) as -> by (apply Z.leb_le; unfold emax, prec; lia).
  cbn [sf_bound]. split; [reflexivity |]. split; [exact He'' |].
  destruct (loc_of_shr_record mrs''); lia.
Qed.

Lemma sf_bound_upto (x : spec_float) (c : Z) : sf_bound false x c -> sf_upto x c.
Proof. destruct x as [s | s | | s m e]; cbn; try tauto. intros (-> & H); exact H. Qed.

Lemma sf_upto_mono (x : spec_float) (a b : Z) : a <= b -> sf_upto x a -> sf_upto x b.
Proof.
  intros Hab. destruct x as [s | s | | [|] m e]; cbn [sf_upto]; try tauto.
  intros [He Hm]. split; [exact He |].
  assert (0 < 2 ^ (- e)) by (apply Z.pow_pos_nonneg; lia). nia.
Qed.

Lemma sf_upto_unit (x : spec_float) : sf_upto x 1 -> sf_unit x.
Proof.
  destruct x as [s | s | | [|] m e]; cbn [sf_upto sf_unit]; try tauto.
  rewrite Z.mul_1_l. tauto.
Qed.

Lemma shl_align_spec (m : positive) (e e' : Z) :
  snd (shl_align m e e') <= e /\
  (e' <= e -> snd (shl_align m e e') = e') /\
  Zpos (fst (shl_align m e e')) = Zpos m * 2 ^ (e - snd (shl_align m e e')).
Proof.
  unfold shl_align. destruct (e' - e) as [| d | d] eqn:E; cbn [fst snd].
  - rewrite Z.sub_diag. split; [lia |]. split; [lia |]. cbn. lia.
  - rewrite Z.sub_diag. split; [lia |]. split; [lia |]. cbn. lia.
  - split; [lia |]. split; [reflexivity |]. rewrite iter_xO_value. f_equal. f_equal. lia.
Qed.

Lemma binary_normalize_bound (M e c : Z) :
  0 <= M -> e <= 0 -> 0 <= c <= 2 ^ 52 -> M <= c * 2 ^ (- e) ->
  sf_upto (binary_normalize prec emax M e false) c.
Proof.
  intros HM He Hc Hb. destruct M as [| p | p]; [exact I | | lia].
  cbn [binary_normalize]. unfold binary_round.
  destruct (shl_align_spec p e (fexp prec emax (Zpos (digits2_pos p) + e))) as (H1 & _ & H3).
  destruct (shl_align p e (fexp prec emax (Zpos (digits2_pos p) + e))) as [mz ez].
  cbn [fst snd] in *. apply sf_bound_upto. apply binary_round_aux_bound; try lia.
  rewrite Z.add_0_r, H3.
  rewrite (pow2_shift c ez (e - ez)) by lia. replace (ez + (e - ez)) with e by lia.
  apply Z.mul_le_mono_nonneg_r; [apply Z.pow_nonneg |]; lia.
Qed.

Lemma SFmul_bound (x y : spec_float) (a b : Z) :
  0 <= a -> 0 <= b -> a * b <= 2 ^ 52 ->
  sf_upto x a -> sf_upto y b -> sf_upto (SFmul prec emax x y) (a * b).
Proof.
  intros Ha Hb Hab Hx Hy.
  destruct x as [sx | sx | | [|] mx ex]; cbn [sf_upto] in Hx; try tauto;
    destruct y as [sy | sy | | [|] my ey]; cbn [sf_upto] in Hy; try tauto;
    cbn [SFmul xorb sf_upto]; try exact I.
  destruct Hx as [Hex Hmx], Hy as [Hey Hmy].
  apply sf_bound_upto. apply binary_round_aux_bound; try lia.
  rewrite Z.add_0_r, Pos2Z.inj_mul, Z.opp_add_distr, Z.pow_add_r by lia.
  assert (0 < 2 ^ (- ex)) by (apply Z.pow_pos_nonneg; lia).
  assert (0 < 2 ^ (- ey)) by (apply Z.pow_pos_nonneg; lia).
  replace (a * b * (2 ^ (- ex) * 2 ^ (- ey))) with ((a * 2 ^ (- ex)) * (b * 2 ^ (- ey))) by ring.
  apply Z.mul_le_mono_nonneg; lia.
Qed.

Lemma SFadd_bound (x y : spec_float) (a b : Z) :
  0 <= a -> 0 <= b -> a + b <= 2 ^ 52 ->
  sf_upto x a -> sf_upto y b -> sf_upto (SFadd prec emax x y) (a + b).
Proof.
  intros Ha Hb Hab Hx Hy.
  destruct x as [sx | sx | | [|] mx ex] eqn:Ex; cbn [sf_upto] in Hx; try tauto;
    destruct y as [sy | sy | | [|] my ey] eqn:Ey; cbn [sf_upto] in Hy; try tauto;
    cbn [SFadd].
  - destruct sx, sy; exact I.
  - apply (sf_upto_mono _ b); [lia | exact Hy].
  - apply (sf_upto_mono _ a); [lia | exact Hx].
  - destruct Hx as [Hex Hmx], Hy as [Hey Hmy]. cbn [cond_Zopp].
    destruct (shl_align_spec mx ex (Z.min ex ey)) as (_ & H2 & H3).
    destruct (shl_align_spec my ey (Z.min ex ey)) as (_ & H2' & H3').
    rewrite H2 in H3 by lia. rewrite H2' in H3' by lia.
    set (ez := Z.min ex ey) in *.
    apply binary_normalize_bound; try lia.
    rewrite H3, H3'.
    assert (E1 : a * 2 ^ (- ez) = a * 2 ^ (- ex) * 2 ^ (ex - ez)).
    { rewrite (pow2_shift a ez (ex - ez)) by lia. repeat f_equal. lia. }
    assert (E2 : b * 2 ^ (- ez) = b * 2 ^ (- ey) * 2 ^ (ey - ez)).
    { rewrite (pow2_shift b ez (ey - ez)) by lia. repeat f_equal. lia. }
    rewrite Z.mul_add_distr_r, E1, E2.
    assert (0 <= 2 ^ (ex - ez)) by (apply Z.pow_nonneg; lia).
    assert (0 <= 2 ^ (ey - ez)) by (apply Z.pow_nonneg; lia).
    apply Z.add_le_mono; apply Z.mul_le_mono_nonneg_r; lia.
Qed.

Lemma SFsub_one_bound (y : spec_float) :
  sf_unit y ->
  sf_upto (SFsub prec emax sf_one y) 2 /\
  (sf_upto y 1 -> sf_upto (SFsub prec emax sf_one y) 1).
Proof.
  intros Hy. destruct y as [sy | sy | | sy my ey]; cbn [sf_unit] in Hy; try tauto.
  - cbn [SFsub sf_one sf_upto]. split; [| intros _]; (split; [lia | reflexivity || (cbn; lia)]).
  - destruct Hy as [Hey Hmy]. unfold sf_one. cbn [SFsub cond_Zopp].
    destruct (shl_align_spec 4503599627370496 (-52) (Z.min (-52) ey)) as (_ & H2 & H3).
    destruct (shl_align_spec my ey (Z.min (-52) ey)) as (_ & H2' & H3').
    rewrite H2 in H3 by lia. rewrite H2' in H3' by lia.
    set (ez := Z.min (-52) ey) in *.
    assert (EA : Zpos (fst (shl_align 4503599627370496 (-52) ez)) = 2 ^ (- ez)).
    { rewrite H3. change (Zpos 4503599627370496) with (2 ^ 52).
      rewrite <- Z.pow_add_r by lia. f_equal. lia. }
    assert (EB : Zpos (fst (shl_align my ey ez)) <= 2 ^ (- ez)).
    { rewrite H3'. replace (- ez) with (- ey + (ey - ez)) by lia.
      rewrite Z.pow_add_r by lia. apply Z.mul_le_mono_nonneg_r; [apply Z.pow_nonneg |]; lia. }
    rewrite EA. set (B := Zpos (fst (shl_align my ey ez))) in *.
    assert (HB : 0 < B) by (unfold B; lia).
    split.
    + apply binary_normalize_bound; try lia; destruct sy; cbn [cond_Zopp]; lia.
    + destruct sy; cbn [sf_upto]; [tauto |]. intros _.
      apply binary_normalize_bound; try lia; cbn [cond_Zopp]; lia.
Qed.

Lemma new_location_exact (n : Z) : new_location n 0 = loc_Exact.
Proof. unfold new_location, new_location_even, new_location_odd. destruct (Z.even n); reflexivity. Qed.

Lemma SFdiv_bound (x y : spec_float) (k c : Z) :
  1 <= k -> 0 <= c <= 2 ^ 52 ->
  sf_upto x (k * c) -> sf_atleast y k ->
  sf_upto (SFdiv prec emax x y) c.
Proof.
  intros Hk Hc Hx Hy.
  destruct y as [sy | sy | | [|] my ey]; cbn [sf_atleast] in Hy; try tauto.
  destruct Hy as [Hey Hmy].
  destruct x as [sx | sx | | [|] mx ex]; cbn [sf_upto] in Hx; try tauto; cbn [SFdiv xorb]; try exact I.
  destruct Hx as [Hex Hmx].
  unfold SFdiv_core_binary. cbn [Zdigits2].
  set (d1 := Zpos (digits2_pos mx)). set (d2 := Zpos (digits2_pos my)).
  set (e' := Z.min (fexp prec emax (d1 + ex - (d2 + ey))) (ex - ey)).
  set (s := ex - ey - e').
  assert (Hs : 0 <= s) by (unfold s, e'; lia).
  assert (Pex : 0 < 2 ^ (- ex)) by (apply Z.pow_pos_nonneg; lia).
  assert (Pey : 0 < 2 ^ (- ey)) by (apply Z.pow_pos_nonneg; lia).
  pose proof (digits2_pos_lower mx) as L1. pose proof (digits2_pos_upper my) as U2.
  fold d1 in L1. fold d2 in U2.
  assert (Hd2 : 0 < d2 + ey).
  { assert (2 ^ (- ey) < 2 ^ d2) by nia. apply Z.pow_lt_mono_r_iff in H; lia. }
  assert (Hk2 : k < 2 ^ (d2 + ey)).
  { assert (k * 2 ^ (- ey) < 2 ^ (d2 + ey) * 2 ^ (- ey)).
    { rewrite <- Z.pow_add_r by lia. replace (d2 + ey + - ey) with d2 by lia. lia. }
    nia. }
  assert (Hdig : d1 + ex - (d2 + ey) <= 53).
  { destruct (Z_le_gt_dec (d1 + ex - (d2 + ey)) 53) as [Hle | Hgt]; [exact Hle | exfalso].
    assert (H1 : 2 ^ (53 + (d2 + ey) + - ex) <= 2 ^ (d1 - 1)) by (apply Z.pow_le_mono_r; lia).
    rewrite !Z.pow_add_r in H1 by lia.
    assert (H2 : k * c * 2 ^ (- ex) <= k * 2 ^ 52 * 2 ^ (- ex)).
    { apply Z.mul_le_mono_nonneg_r; [lia |]. apply Z.mul_le_mono_nonneg_l; lia. }
    assert (H3 : 2 ^ 53 * 2 ^ (d2 + ey) * 2 ^ (- ex) <= k * 2 ^ 52 * 2 ^ (- ex)) by lia.
    apply Z.mul_le_mono_pos_r in H3; [| lia].
    change (2 ^ 53) with (2 * 2 ^ 52) in H3. nia. }
  assert (He' : e' <= 0) by (unfold e'; pose proof (fexp_nonpos _ Hdig); lia).
  set (m' := match s with Zpos _ => Z.shiftl (Zpos mx) s | 0 => Zpos mx | Zneg _ => 0 end).
  assert (Em' : m' = Zpos mx * 2 ^ s).
  { unfold m'. destruct s as [| p | p] eqn:Es; [cbn; lia | | lia].
    rewrite Z.shiftl_mul_pow2 by lia. reflexivity. }
  pose proof (Z_div_mod m' (Zpos my) ltac:(lia)) as Hdm.
  destruct (Z.div_eucl m' (Zpos my)) as [q r]. destruct Hdm as [Hq Hr].
  assert (Ps : 0 < 2 ^ s) by (apply Z.pow_pos_nonneg; lia).
  assert (Hq0 : 0 <= q) by nia.
  assert (Epow : 2 ^ (- ex) * 2 ^ s = 2 ^ (- ey) * 2 ^ (- e')).
  { rewrite <- !Z.pow_add_r by lia. f_equal. unfold s. lia. }
  assert (Pe' : 0 < 2 ^ (- e')) by (apply Z.pow_pos_nonneg; lia).
  assert (Hm'b : m' <= k * 2 ^ (- ey) * (c * 2 ^ (- e'))).
  { rewrite Em'. replace (k * 2 ^ (- ey) * (c * 2 ^ (- e')))
      with (k * c * (2 ^ (- ey) * 2 ^ (- e'))) by ring.
    rewrite <- Epow. replace (k * c * (2 ^ (- ex) * 2 ^ s)) with (k * c * 2 ^ (- ex) * 2 ^ s) by ring.
    apply Z.mul_le_mono_nonneg_r; lia. }
  apply sf_bound_upto. apply binary_round_aux_bound; try lia.
  set (K := c * 2 ^ (- e')) in *.
  assert (HKy : k * 2 ^ (- ey) * q <= Zpos my * q) by (apply Z.mul_le_mono_nonneg_r; lia).
  destruct (Z.eq_dec r 0) as [-> | Hr0].
  - rewrite new_location_exact. assert (q <= K); [| lia].
    assert (k * 2 ^ (- ey) * q <= k * 2 ^ (- ey) * K) by lia.
    apply Z.mul_le_mono_pos_l in H; nia.
  - assert (q < K).
    { assert (k * 2 ^ (- ey) * q < k * 2 ^ (- ey) * K) by lia.
      apply Z.mul_lt_mono_pos_l in H; nia. }
    destruct (new_location (Zpos my) r); lia.
Qed.

(** *** The same bounds on primitive floats *)

Lemma upto_mono (x : float) (a b : Z) : a <= b -> upto x a -> upto x b.
Proof. apply sf_upto_mono. Qed.

Lemma mul_upto (x y : float) (a b : Z) :
  0 <= a -> 0 <= b -> a * b <= 2 ^ 52 ->
  upto x a -> upto y b -> upto (x * y) (a * b).
Proof. unfold upto. rewrite mul_spec. apply SFmul_bound. Qed.

Lemma add_upto (x y : float) (a b : Z) :
  0 <= a -> 0 <= b -> a + b <= 2 ^ 52 ->
  upto x a -> upto y b -> upto (x + y) (a + b).
Proof. unfold upto. rewrite add_spec. apply SFadd_bound. Qed.

Lemma one_sub_unit (y : float) : in_unit y -> upto (1 - y) 2.
Proof.
  unfold upto, in_unit. rewrite sub_spec. change (Prim2SF 1) with sf_one.
  intros H. apply SFsub_one_bound. exact H.
Qed.

Lemma one_sub_upto (y : float) : upto y 1 -> upto (1 - y) 1.
Proof.
  unfold upto. rewrite sub_spec. change (Prim2SF 1) with sf_one.
  intros H. apply SFsub_one_bound; [apply sf_upto_unit |]; exact H.
Qed.

Lemma div_upto (x y : float) (k c : Z) :
  1 <= k -> 0 <= c <= 2 ^ 52 -> upto x (k * c) -> atleast y k -> upto (x / y) c.
Proof. unfold upto, atleast. rewrite div_spec. apply SFdiv_bound. Qed.

Lemma Prim2SF_float64_of_pos (z : Z) :
  0 < z < 2 ^ 53 ->
  exists m e, Prim2SF (float64_of_int z) = S754_finite false m e /\
              e <= 0 /\ Zpos m = z * 2 ^ (- e).
Proof.
  intros Hz. unfold float64_of_int. destruct z as [| p | p]; try lia.
  cbn [binary_normalize].
  destruct (binary_round_small false p) as (m & e & -> & Hv & He & Hm); [lia |].
  rewrite (Prim2SF_SF2Prim _ Hv). eauto.
Qed.

Lemma float64_of_int_upto (z : Z) :
  0 <= z < 2 ^ 53 -> upto (float64_of_int z) z.
Proof.
  intros Hz. destruct (Z.eq_dec z 0) as [-> | Hne]; [exact I |].
  destruct (Prim2SF_float64_of_pos z ltac:(lia)) as (m & e & E & He & Hm).
  unfold upto. rewrite E. cbn [sf_upto]. split; lia.
Qed.

Lemma valid_digits (s : bool) (m : positive) (e : Z) :
  valid_binary (S754_finite s m e) = true -> Zpos m < 2 ^ 53 /\ (e = -1074 \/ 2 ^ 52 <= Zpos m).
Proof.
  cbn [SpecFloat.valid_binary]. unfold bounded, canonical_mantissa, fexp, SpecFloat.emin, prec, emax.
  intros H. apply andb_prop in H. destruct H as [H1 H2]. apply Z.eqb_eq in H1.
  pose proof (digits2_pos_upper m) as Hu. pose proof (digits2_pos_lower m) as Hl.
  assert (Hd : Zpos (digits2_pos m) <= 53) by lia.
  split.
  - assert (2 ^ Zpos (digits2_pos m) <= 2 ^ 53) by (apply Z.pow_le_mono_r; lia). lia.
  - destruct (Z.eq_dec e (-1074)); [left; assumption | right].
    assert (Zpos (digits2_pos m) = 53) as E by lia. rewrite E in Hl. exact Hl.
Qed.

(** A float between -1 and 1, as Go's comparisons see it, is in the unit range. *)
Lemma leb_in_unit (y : float) :
  ((-1 <=? y) && (y <=? 1))%float = true -> in_unit y.
Proof.
  intros H. apply andb_prop in H. destruct H as [H1 H2].
  rewrite leb_spec in H1, H2. unfold in_unit.
  change (Prim2SF 1) with sf_one in H2.
  change (Prim2SF (-1)) with (S754_finite true 4503599627370496 (-52)) in H1.
  pose proof (Prim2SF_valid y) as Hv.
  destruct (Prim2SF y) as [s | s | | s m e]; cbn [sf_unit].
  - exact I.
  - destruct s; cbn in H1, H2; discriminate.
  - cbn in H1; discriminate.
  - destruct (valid_digits s m e Hv) as [Hm _]. clear Hv.
    unfold SFleb, sf_one in H1, H2. cbn [SFcompare] in H1, H2.
    change (2 ^ 53) with 9007199254740992 in Hm.
    destruct s.
    + clear H2. destruct (Z.compare_spec (-52) e) as [E | L | G]; try discriminate H1.
      * subst e. rewrite Pos.compare_cont_spec in H1. cbn [Pos.switch_Eq] in H1.
        change (2 ^ (- -52)) with 4503599627370496.
        rewrite Pos2Z.inj_compare in H1.
        destruct (Z.compare_spec (Zpos 4503599627370496) (Zpos m)) as [E | L | G];
          cbv [CompOpp Pos.switch_Eq] in H1; try discriminate H1; clear H1; split; lia.
      * split; [lia |]. assert (2 ^ 53 <= 2 ^ (- e)) by (apply Z.pow_le_mono_r; lia).
        change (2 ^ 53) with 9007199254740992 in H. lia.
    + clear H1. destruct (Z.compare_spec e (-52)) as [E | L | G]; try discriminate H2.
      * subst e. rewrite Pos.compare_cont_spec in H2. cbn [Pos.switch_Eq] in H2.
        change (2 ^ (- -52)) with 4503599627370496.
        rewrite Pos2Z.inj_compare in H2.
        destruct (Z.compare_spec (Zpos m) (Zpos 4503599627370496)) as [E | L | G];
          cbv [Pos.switch_Eq] in H2; try discriminate H2; clear H2; split; lia.
      * split; [lia |]. assert (2 ^ 53 <= 2 ^ (- e)) by (apply Z.pow_le_mono_r; lia).
        change (2 ^ 53) with 9007199254740992 in H. lia.
Qed.

Lemma shiftl_nonpos (a e : Z) : e <= 0 -> Z.shiftl a e = a / 2 ^ (- e).
Proof.
  intros He. rewrite <- (Z.opp_involutive e) at 1. rewrite Z.shiftl_opp_r.
  apply Z.shiftr_div_pow2. lia.
Qed.

Lemma sf_upto_trunc (x : spec_float) (c : Z) :
  0 <= c -> sf_upto x c -> exists k, SFtrunc x = Some k /\ 0 <= k <= c.
Proof.
  intros Hc. destruct x as [s | s | | [|] m e]; cbn [sf_upto SFtrunc cond_Zopp]; try tauto.
  - intros _. exists 0. split; [reflexivity | lia].
  - intros [He Hm]. eexists. split; [reflexivity |]. rewrite shiftl_nonpos by lia.
    assert (0 < 2 ^ (- e)) by (apply Z.pow_pos_nonneg; lia). split.
    + apply Z.div_pos; lia.
    + apply Z.div_le_upper_bound; lia.
Qed.

Lemma int_of_upto `{GoRuntime} (y : float) (c : Z) :
  0 <= c < 2 ^ 62 -> upto y c -> 0 <= int_of_float64 y <= c.
Proof.
  intros Hc Hy. destruct (sf_upto_trunc _ c ltac:(lia) Hy) as (k & E & Hk).
  unfold int_of_float64. rewrite E.
  assert (in_int64 k = true) as ->; [| exact Hk].
  unfold in_int64. apply andb_true_intro. split; [apply Z.leb_le | apply Z.ltb_lt]; lia.
Qed.

Lemma upto_one : upto 1 1.
Proof. unfold upto. change (Prim2SF 1) with sf_one. cbn. lia. Qed.

Lemma trunc_upto (x : float) (c : Z) :
  0 <= c < 2 ^ 53 -> upto x c -> upto (math_Trunc x) c.
Proof.
  intros Hc Hx. unfold math_Trunc. pose proof Hx as Hx'. unfold upto in Hx'.
  destruct (Prim2SF x) as [s | s | | [|] m e] eqn:E; cbn [sf_upto] in Hx'; try tauto.
  destruct (Z.ltb_spec e 0); [| exact Hx].
  assert (Ht : exists k, SFtrunc (S754_finite false m e) = Some k /\ 0 <= k <= c).
  { apply sf_upto_trunc; [lia | exact Hx']. }
  destruct Ht as (k & Ek & Hk). cbn [SFtrunc cond_Zopp] in Ek. inversion Ek; subst k.
  apply (upto_mono _ (Z.shiftl (Zpos m) e)); [lia |]. apply float64_of_int_upto. lia.
Qed.

Lemma get_sign_positive (x : float) (m : positive) (e : Z) :
  Prim2SF x = S754_finite false m e -> get_sign x = false.
Proof.
  intros E. unfold get_sign, is_zero. rewrite eqb_spec, E.
  change (Prim2SF zero) with (S754_zero false). cbn [SFeqb SFcompare].
  rewrite ltb_spec, E. reflexivity.
Qed.

Lemma round_upto (x : float) (c : Z) :
  0 <= c < 2 ^ 52 -> upto x c -> upto (math_Round x) (c + 1).
Proof.
  intros Hc Hx. unfold math_Round.
  pose proof (trunc_upto x c ltac:(lia) Hx) as Ht.
  destruct (0.5 <=? math_Abs (x - math_Trunc x))%float eqn:Ec;
    [| apply (upto_mono _ c); [lia | exact Ht]].
  pose proof Hx as Hx'. unfold upto in Hx'.
  destruct (Prim2SF x) as [s | s | | [|] m e] eqn:E; cbn [sf_upto] in Hx'; try tauto.
  - exfalso. unfold math_Trunc, math_Abs in Ec. rewrite E in Ec.
    rewrite leb_spec, abs_spec, sub_spec, E in Ec.
    change (Prim2SF 0.5) with (S754_finite false 4503599627370496 (-53)) in Ec.
    destruct s; discriminate Ec.
  - unfold math_Copysign. rewrite (get_sign_positive x m e E).
    change (abs 1) with 1%float.
    apply add_upto; try lia; [exact Ht | exact upto_one].
Qed.

(** *** Decidable forms, for constants *)

Lemma sf_uptob_sound (x : float) (c : Z) : sf_uptob (Prim2SF x) c = true -> upto x c.
Proof.
  unfold upto. destruct (Prim2SF x) as [s | s | | [|] m e]; cbn [sf_uptob sf_upto];
    try discriminate; try tauto.
  intros H. apply andb_prop in H. destruct H as [H1 H2].
  apply Z.leb_le in H1, H2. auto.
Qed.

Lemma sf_atleastb_sound (x : float) (k : Z) : sf_atleastb (Prim2SF x) k = true -> atleast x k.
Proof.
  unfold atleast. destruct (Prim2SF x) as [s | s | | [|] m e]; cbn [sf_atleastb sf_atleast];
    try discriminate.
  intros H. apply andb_prop in H. destruct H as [H1 H2].
  apply Z.leb_le in H1, H2. auto.
Qed.

(** *** The weights of the octaves *)

Lemma weights_checked_true : weights_checked = true.
Proof. vm_compute. reflexivity. Qed.

Lemma weight_upto (z : Z) : 1 <= z <= 63 -> upto (1 / math_Pow2 (z - 1))%float 1.
Proof.
  intros Hz. pose proof weights_checked_true as H. unfold weights_checked in H.
  rewrite forallb_forall in H. specialize (H (Z.to_nat z)).
  rewrite Z2Nat.id in H by lia.
  assert (Hin : In (Z.to_nat z) (seq 1 63)) by (apply in_seq; lia).
  apply H in Hin. apply andb_prop in Hin. apply sf_uptob_sound. tauto.
Qed.

Lemma weight_sum_atleast (n : nat) :
  (1 <= n <= 63)%nat -> atleast (weight_sum n 0%float) 1.
Proof.
  intros Hn. pose proof weights_checked_true as H. unfold weights_checked in H.
  rewrite forallb_forall in H. specialize (H n).
  assert (Hin : In n (seq 1 63)) by (apply in_seq; lia).
  apply H in Hin. apply andb_prop in Hin. apply sf_atleastb_sound. tauto.
Qed.

(** *** Heights of the generated terrain *)

Section Heights.
Context {R : GoRuntime}.

Lemma base_value_upto (x : float) : base_value x -> upto x 14.
Proof.
  intros (k & Hk & ->). apply (upto_mono _ k); [lia |]. apply float64_of_int_upto. lia.
Qed.

Lemma cosineInterpolation_upto (a b mu : float) :
  base_value a -> base_value b ->
  ((-1 <=? math_Cos (mu * math_Pi)) && (math_Cos (mu * math_Pi) <=? 1))%float = true ->
  upto (cosineInterpolation a b mu) 28.
Proof.
  intros Ha Hb Hc. unfold cosineInterpolation.
  assert (H2 : atleast 2 2).
  { apply sf_atleastb_sound. vm_compute. reflexivity. }
  assert (Hmu2 : upto ((1 - math_Cos (mu * math_Pi)) / 2) 1).
  { apply (div_upto _ _ 2 1); [lia | lia | | exact H2].
    apply one_sub_unit. apply leb_in_unit. exact Hc. }
  set (mu2 := ((1 - math_Cos (mu * math_Pi)) / 2)%float) in *.
  pose proof (one_sub_upto mu2 Hmu2) as H1.
  change 28 with (14 * 1 + 14 * 1).
  apply add_upto; try lia; apply mul_upto; try lia; auto using base_value_upto.
Qed.

Lemma samplePoints_loop_base (fuel : nat) (naive : list float) (i sample : Z) (pts : list float) :
  Forall base_value naive ->
  samplePoints_loop fuel naive i sample = Some pts -> Forall base_value pts.
Proof.
  intros Hb. revert i pts; induction fuel as [| fuel IH]; intros i pts; cbn [samplePoints_loop];
    [discriminate |].
  destruct (i <? len naive); [| intros E; inversion E; constructor].
  destruct (index naive i) as [v |] eqn:Ei; [| discriminate].
  destruct (samplePoints_loop fuel naive (wrap64 (i + sample)) sample) as [rest |] eqn:Er;
    [| discriminate].
  cbn [option_map]. intros E; inversion E; subst. constructor; [| eapply IH; eassumption].
  unfold index in Ei. destruct (i <? 0); [discriminate |].
  rewrite Forall_forall in Hb. apply Hb. eapply nth_error_In; eassumption.
Qed.

Lemma between_low (weight : float) (k : Z) (a b : float) (octaves : Z) :
  cos_in_range octaves -> 1 <= k < octaves -> upto weight 1 ->
  base_value a -> base_value b ->
  low (between weight (2 ^ k) a b).
Proof.
  intros Hcos Hk Hw Ha Hb. unfold low, between. apply Forall_map. apply Forall_forall.
  intros j Hj. apply in_seq in Hj.
  assert (0 < 2 ^ k) by (apply Z.pow_pos_nonneg; lia).
  change 28 with (1 * 28). apply mul_upto; try lia; [exact Hw |].
  apply cosineInterpolation_upto; [exact Ha | exact Hb |].
  apply Hcos; lia.
Qed.

Lemma octave_fill_low (weight : float) (k : Z) (pts : list float) (octaves : Z)
  (n i : nat) (t : list float) :
  cos_in_range octaves -> 0 <= k < octaves -> upto weight 1 -> Forall base_value pts ->
  octave_fill weight (2 ^ k) pts i n = Some t -> low t.
Proof.
  intros Hcos Hk Hw Hb. revert i t; induction n as [| n IH]; intros i t; cbn [octave_fill].
  - intros E; inversion E. constructor.
  - destruct (octave_segment weight (2 ^ k) pts i) as [s |] eqn:Es; [| discriminate].
    destruct (octave_fill weight (2 ^ k) pts (S i) n) as [rest |] eqn:Er; [| discriminate].
    intros E; inversion E; subst. apply Forall_app. split; [| eapply IH; exact Er].
    unfold octave_segment in Es. destruct (nth_error pts i) as [p |] eqn:Ep; [| discriminate].
    assert (Hp : base_value p).
    { rewrite Forall_forall in Hb. apply Hb. eapply nth_error_In; eassumption. }
    assert (Hwp : upto (weight * p) 28).
    { apply (upto_mono _ (1 * 14)); [lia |]. apply mul_upto; try lia; auto using base_value_upto. }
    destruct (2 ^ k <=? 1) eqn:E1.
    + inversion Es; subst. constructor; [exact Hwp | constructor].
    + destruct (index pts (Z.of_nat (S i) mod len pts)) as [b |] eqn:Eb; [| discriminate].
      inversion Es; subst. constructor; [exact Hwp |].
      assert (Hbv : base_value b).
      { unfold index in Eb. destruct (_ <? 0); [discriminate |].
        rewrite Forall_forall in Hb. apply Hb. eapply nth_error_In; eassumption. }
      apply (between_low weight k p b octaves); auto.
      apply Z.leb_gt in E1. destruct (Z.eq_dec k 0) as [-> | Hne]; [cbn in E1; lia | lia].
Qed.

Lemma octave_low (naive : list float) (iterations z : Z) (t : list float) (w : float) :
  cos_in_range iterations -> 1 <= z <= iterations -> iterations <= 63 ->
  Forall base_value naive ->
  octave naive iterations z = Some (t, w) ->
  low t /\ w = (1 / math_Pow2 (z - 1))%float.
Proof.
  intros Hcos Hz Hit Hb. unfold octave.
  assert (Es : wrap64 (Z.shiftl 1 (iterations - z)) = 2 ^ (iterations - z)).
  { pose proof (shift_stride (iterations - z) ltac:(lia)) as Hs.
    rewrite Z.shiftl_1_l in *. apply wrap64_small.
    assert (2 ^ (iterations - z) <= 2 ^ 62) by (apply Z.pow_le_mono_r; lia).
    assert (0 < 2 ^ (iterations - z)) by (apply Z.pow_pos_nonneg; lia). lia. }
  rewrite Es.
  destruct (samplePoints naive (2 ^ (iterations - z))) as [pts |] eqn:Ep; [| discriminate].
  destruct (max_len <? len pts * 2 ^ (iterations - z)); [discriminate |].
  destruct (octave_fill _ _ pts 0 (List.length pts)) as [t' |] eqn:Ef; [| discriminate].
  intros E; inversion E; subst. split; [| reflexivity].
  unfold samplePoints in Ep.
  eapply (octave_fill_low (1 / math_Pow2 (z - 1))%float (iterations - z) pts iterations);
    [exact Hcos | lia | apply weight_upto; lia
    | eapply samplePoints_loop_base; eassumption | exact Ef].
Qed.

Lemma octaves_loop_low (naive : list float) (iterations : Z) (z : nat)
  (ts : list (list float)) (ws : float) (ts' : list (list float)) (ws' : float) :
  cos_in_range iterations -> Z.of_nat z <= iterations -> iterations <= 63 ->
  Forall base_value naive -> Forall low ts ->
  octaves_loop naive iterations z ts ws = Some (ts', ws') ->
  Forall low ts' /\ List.length ts' = (List.length ts + z)%nat /\ ws' = weight_sum z ws.
Proof.
  intros Hcos Hz Hit Hb. revert ts ws; induction z as [| z IH]; intros ts ws Hts;
    cbn [octaves_loop weight_sum].
  - intros E; inversion E; subst. split; [exact Hts |]. split; [lia | reflexivity].
  - destruct (octave naive iterations (Z.of_nat (S z))) as [[t w] |] eqn:Eo; [| discriminate].
    assert (Hz' : 1 <= Z.of_nat (S z) <= iterations) by lia.
    destruct (octave_low _ _ _ _ _ Hcos Hz' Hit Hb Eo) as [Ht ->].
    intros E. apply IH in E; [| lia | apply Forall_app; split; [exact Hts | repeat constructor; exact Ht]].
    destruct E as (H1 & H2 & H3). rewrite length_app in H2. cbn in H2.
    split; [exact H1 |]. split; [lia | exact H3].
Qed.

Lemma fold_columns_upto (ts : list (list float)) (i : nat) (acc : float) (k : Z) :
  Forall low ts -> 0 <= k -> k + 28 * len ts <= 2 ^ 52 -> upto acc k ->
  upto (fold_left (fun acc t => match nth_error t i with
                                | Some v => (acc + v)%float
                                | None => acc
                                end) ts acc) (k + 28 * len ts).
Proof.
  revert acc k; induction ts as [| t ts IH]; intros acc k Hts Hk Hb Hacc; cbn [fold_left].
  - unfold len; cbn. rewrite Z.add_0_r. exact Hacc.
  - inversion Hts as [| ? ? Ht Hts']; subst.
    unfold len in *. cbn [List.length] in *. rewrite Nat2Z.inj_succ in *.
    replace (k + 28 * Z.succ (Z.of_nat (List.length ts)))
      with ((k + 28) + 28 * Z.of_nat (List.length ts)) by lia.
    destruct (nth_error t i) as [v |] eqn:Ev.
    + apply IH; try lia; [exact Hts' |].
      apply add_upto; try lia; [exact Hacc |].
      unfold low in Ht. rewrite Forall_forall in Ht. apply Ht. eapply nth_error_In; eassumption.
    + apply IH; try lia; [exact Hts' |]. apply (upto_mono _ k); [lia | exact Hacc].
Qed.

Lemma blend_heights (naive : list float) (iterations : Z) (t : list Z) :
  cos_in_range iterations -> 1 <= iterations <= 63 -> Forall base_value naive ->
  blend naive iterations = Some t -> Forall (fun h => 0 <= h <= 1765) t.
Proof.
  intros Hcos Hit Hb. unfold blend.
  destruct (octaves_loop naive iterations (Z.to_nat iterations) [] 0%float)
    as [[ts ws] |] eqn:E; [| discriminate].
  assert (Hz : Z.of_nat (Z.to_nat iterations) <= iterations) by lia.
  destruct (octaves_loop_low _ _ _ _ _ _ _ Hcos Hz (proj2 Hit) Hb (Forall_nil _) E)
    as (Hts & Hlen & ->).
  intros Et; inversion Et; subst. apply Forall_map. apply Forall_forall. intros i _.
  unfold blend_column. cbn [List.length Nat.add] in Hlen.
  assert (H0 : upto 0%float 0) by exact I.
  pose proof (fold_columns_upto ts i 0%float 0 Hts ltac:(lia)
                ltac:(unfold len; rewrite Hlen; lia) H0) as Hf.
  assert (Hc : upto (fold_left (fun acc t0 => match nth_error t0 i with
                                             | Some v => (acc + v)%float
                                             | None => acc
                                             end) ts 0%float) (1 * 1764)).
  { eapply upto_mono; [| exact Hf]. unfold len. rewrite Hlen. lia. }
  pose proof (div_upto _ _ 1 1764 ltac:(lia) ltac:(lia) Hc
                (weight_sum_atleast (Z.to_nat iterations) ltac:(lia))) as Hd.
  pose proof (round_upto _ 1764 ltac:(lia) Hd) as Hr.
  apply (int_of_upto _ 1765); [lia | exact Hr].
Qed.

End Heights.

(** *** The heights of the game's terrains *)

Lemma cos_in_rangeb_sound `{GoRuntime} (octaves : nat) :
  cos_in_rangeb octaves = true -> cos_in_range (Z.of_nat octaves).
Proof.
  unfold cos_in_rangeb, cos_in_range. intros Hall k j Hk Hj.
  rewrite forallb_forall in Hall.
  assert (Hink : In (Z.to_nat k) (seq 1 (octaves - 1))) by (apply in_seq; lia).
  apply Hall in Hink. rewrite forallb_forall in Hink.
  assert (Hpow : Z.of_nat (2 ^ Z.to_nat k) = 2 ^ k).
  { rewrite Nat2Z.inj_pow, Z2Nat.id by lia. reflexivity. }
  assert (Hinj : In (Z.to_nat j) (seq 1 (2 ^ Z.to_nat k - 1))) by (apply in_seq; lia).
  apply Hink in Hinj. rewrite !Z2Nat.id in Hinj by lia. exact Hinj.
Qed.

Section TerrainHeights.
Context {R : GoRuntime}.

Lemma generateTerrain_heights (width iterations : Z) (g g' : rng) (t : list Z) :
  cos_in_range iterations -> 1 <= iterations <= 63 ->
  generateTerrain width iterations g = Some (t, g') -> heights_in_range t.
Proof.
  intros Hcos Hit. unfold generateTerrain, naiveTerrain.
  destruct ((width <? 0) || (max_len <? width)); [discriminate |].
  pose proof (naive_draws_base (Z.to_nat width) g) as Hb.
  destruct (naive_draws (Z.to_nat width) g) as [naive g0]. cbn [fst] in Hb.
  destruct (blend naive iterations) as [t0 |] eqn:E; [| discriminate].
  intros H; inversion H; subst. eapply blend_heights; eassumption.
Qed.

Lemma Update_heights (m : model) (msg : Msg) (g : rng) (m' : model) (c : Cmd) (g' : rng) :
  cos_in_range 6 -> heights_in_range (terrain m) ->
  Update m msg g = Some (m', c, g') -> heights_in_range (terrain m').
Proof.
  intros Hcos Hm. destruct msg as [key | | |]; cbn [Update].
  - pose proof (key_update_frame m key) as (H1 & _).
    destruct (key_update m key) as [m1 c1]. cbn [fst] in H1.
    intros E; inversion E; subst. rewrite H1. exact Hm.
  - destruct (simulate m) as [[m1 c1] |] eqn:E; [| discriminate].
    apply simulate_frame in E. destruct E as (H1 & _).
    intros E; inversion E; subst. rewrite H1. exact Hm.
  - destruct (resetGame m g) as [[m1 g1] |] eqn:E; [| discriminate].
    intros E'; inversion E'; subst.
    destruct (resetGame_inv _ _ _ _ E) as (t & y & Ht & _ & _ & ->). cbn [terrain].
    eapply generateTerrain_heights; [exact Hcos | lia | exact Ht].
  - intros E; inversion E; subst. exact Hm.
Qed.


(** X17.  Whatever the generator returns, for at least one octave and with
    [math.Cos] in [[-1, 1]] at the arguments the interpolation uses, has
    one height per column and every height is a non-negative integer:
    through every float64 rounding of the interpolation, the weighting, the
    column sums and the division by the weight sum no blended value is
    negative or not a number, so no conversion to [int] leaves the range of
    the type. *)
Theorem generateTerrain_heights_non_negative (width octaves : Z) (g g' : rng)
  (t : list Z) :
  1 <= octaves -> cos_in_range octaves ->
  generateTerrain width octaves g = Some (t, g') ->
  len t = width /\ Forall (fun h => 0 <= h <= 1765) t.
Proof.
  intros Ho Hcos E. destruct (generateTerrain_length _ _ _ _ _ E) as [Hw Hl].
  split; [exact Hl |].
  destruct (Z.le_gt_cases octaves 63) as [H63 | H64].
  - apply (generateTerrain_heights width octaves g g' t Hcos); [lia | exact E].
  - destruct t as [| h t']; [constructor |]. exfalso.
    revert E. unfold generateTerrain, naiveTerrain.
    destruct ((width <? 0) || (max_len <? width)); [discriminate |].
    pose proof (naive_draws_length (Z.to_nat width) g) as Hn.
    destruct (naive_draws (Z.to_nat width) g) as [naive g0]. cbn [fst] in Hn.
    rewrite blend_from_64_octaves; [discriminate | | lia].
    intros ->. cbn in Hn. unfold len in Hl. cbn [List.length] in Hl. lia.
Qed.

(** X19.  The other side of the runtime's limit: whenever a single stride
    of the coarsest layer, [2^(octaves - 1)] values, is more than the
    runtime can hold, the generator has no result, whatever the width (at
    least 1) and the draws.  Since no runtime holds more than [2^45]
    values, this is so on every runtime from 47 octaves on. *)
Theorem generateTerrain_no_result_beyond_memory (width octaves : Z) (g : rng) :
  1 <= width -> 1 <= octaves -> max_len < 2 ^ (octaves - 1) ->
  generateTerrain width octaves g = None.
Proof.
  intros Hw Ho Hm. unfold generateTerrain, naiveTerrain.
  destruct (Z.ltb_spec width 0); [lia |].
  destruct (max_len <? width); [reflexivity |]. cbn [orb].
  pose proof (naive_draws_length (Z.to_nat width) g) as Hn.
  destruct (naive_draws (Z.to_nat width) g) as [naive g0]. cbn [fst] in Hn.
  assert (Hne : naive <> []) by (intros ->; cbn in Hn; lia).
  destruct (Z.le_gt_cases octaves 63) as [H63 | H64].
  - unfold blend. rewrite octaves_loop_last_fails; [reflexivity | lia |].
    apply octave_too_long; [exact Hne | lia | exact Hm].
  - rewrite blend_from_64_octaves; [reflexivity | exact Hne | lia].
Qed.

(** X18.  The same holds of every terrain the game ever plays on: in each
    world reachable from [main], through key presses, ticks and restarts,
    all heights of the terrain are non-negative, and so are the heights the
    tank and the target stand on. *)
Theorem reachable_terrain_non_negative (m : model) (g : rng) :
  cos_in_range 6 -> reachable m g ->
  Forall (fun h => 0 <= h <= 1765) (terrain m) /\
  (exists y, index (terrain m) (tankPos m) = Some y /\ 0 <= y) /\
  (exists y, index (terrain m) (targetPos m) = Some y /\ 0 <= y).
Proof.
  intros Hcos Hr.
  assert (Hh : heights_in_range (terrain m)).
  { induction Hr as [g m g' H | m g msg m' c g' _ IH H].
    - unfold initialModel in H.
      destruct (generateTerrain 100 6 g) as [[t g0] |] eqn:E; [| discriminate].
      cbn [rand_Intn] in H. destruct (index t (g0 O mod 5 + 1)); [| discriminate].
      inversion H; subst. cbn [terrain].
      eapply generateTerrain_heights; [exact Hcos | lia | exact E].
    - eapply Update_heights; eassumption. }
  split; [exact Hh |].
  destruct (reachable_well_formed m g Hr) as (Hl & Ht & Hg).
  assert (Hin : forall x, 0 <= x < len (terrain m) ->
                          exists y, index (terrain m) x = Some y /\ 0 <= y).
  { intros x Hx. destruct (index_in_range (terrain m) x Hx) as [y Hy].
    exists y. split; [exact Hy |].
    unfold index in Hy. destruct (x <? 0); [discriminate |].
    apply nth_error_In in Hy. unfold heights_in_range in Hh.
    rewrite Forall_forall in Hh. apply Hh in Hy. lia. }
  split; apply Hin; lia.
Qed.

End TerrainHeights.

(** ** Magnitudes through binary64 rounding

    Rounding to nearest keeps the magnitude of a value, or moves it to
    the next power of two; products add magnitudes, sums stay within one
    of the larger magnitude. *)

Lemma Zdigits2_unique (m d : Z) : 0 < m -> 2 ^ (d - 1) <= m < 2 ^ d -> Zdigits2 m = d.
Proof.
  intros Hm [Hl Hu]. destruct m as [| p | p]; try lia. cbn [Zdigits2].
  pose proof (digits2_pos_lower p) as Hl'. pose proof (digits2_pos_upper p) as Hu'.
  set (d' := Zpos (digits2_pos p)) in *. assert (0 < d') by (unfold d'; lia).
  destruct (Z.lt_trichotomy d' d) as [H1 | [H1 | H1]]; [| exact H1 |].
  - assert (2 ^ d' <= 2 ^ (d - 1)) by (apply Z.pow_le_mono_r; lia). lia.
  - destruct (Z.le_gt_cases 0 d) as [H0 | H0].
    + assert (2 ^ d <= 2 ^ (d' - 1)) by (apply Z.pow_le_mono_r; lia). lia.
    + rewrite (Z.pow_neg_r 2 d) in Hu by lia. lia.
Qed.

Lemma Zdigits2_bounds (m : Z) :
  0 < m -> 0 < Zdigits2 m /\ 2 ^ (Zdigits2 m - 1) <= m < 2 ^ Zdigits2 m.
Proof.
  intros Hm. destruct m as [| p | p]; try lia. cbn [Zdigits2].
  pose proof (digits2_pos_lower p). pose proof (digits2_pos_upper p). lia.
Qed.

Lemma Zdigits2_div (m k : Z) :
  0 < m -> 0 <= k < Zdigits2 m ->
  0 < m / 2 ^ k /\ Zdigits2 (m / 2 ^ k) = Zdigits2 m - k.
Proof.
  intros Hm Hk. destruct (Zdigits2_bounds m Hm) as [Hd [Hl Hu]].
  set (d := Zdigits2 m) in *.
  assert (Hp : 0 < 2 ^ k) by (apply Z.pow_pos_nonneg; lia).
  assert (E1 : 2 ^ (d - 1) = 2 ^ (d - 1 - k) * 2 ^ k).
  { rewrite <- Z.pow_add_r by lia. f_equal. lia. }
  assert (E2 : 2 ^ d = 2 ^ (d - k) * 2 ^ k).
  { rewrite <- Z.pow_add_r by lia. f_equal. lia. }
  assert (L : 2 ^ (d - 1 - k) <= m / 2 ^ k).
  { apply Z.div_le_lower_bound; lia. }
  assert (U : m / 2 ^ k < 2 ^ (d - k)).
  { apply Z.div_lt_upper_bound; lia. }
  assert (0 < 2 ^ (d - 1 - k)) by (apply Z.pow_pos_nonneg; lia).
  split; [lia |]. apply Zdigits2_unique; [lia |].
  replace (d - k - 1) with (d - 1 - k) by lia. lia.
Qed.

Lemma Zdigits2_pow2 (k : Z) : 0 <= k -> Zdigits2 (2 ^ k) = k + 1.
Proof.
  intros Hk. assert (0 < 2 ^ k) by (apply Z.pow_pos_nonneg; lia).
  apply Zdigits2_unique; [lia |]. replace (k + 1 - 1) with k by lia.
  rewrite (Z.pow_add_r 2 k 1) by lia. change (2 ^ 1) with 2. lia.
Qed.

(** After rounding up by at most one the number of digits grows only when a
    power of two is reached. *)
Lemma Zdigits2_succ (m1 m2 : Z) :
  0 < m1 -> m1 <= m2 <= m1 + 1 ->
  Zdigits2 m2 = Zdigits2 m1 \/ (m2 = 2 ^ Zdigits2 m1 /\ Zdigits2 m2 = Zdigits2 m1 + 1).
Proof.
  intros Hm H. destruct (Zdigits2_bounds m1 Hm) as [Hd [L U]].
  destruct (Z.eq_dec m2 (2 ^ Zdigits2 m1)) as [E | N].
  - right. split; [exact E |]. rewrite E. apply Zdigits2_pow2. lia.
  - left. apply Zdigits2_unique; lia.
Qed.

Lemma fexp_spec (x : Z) : fexp prec emax x = Z.max (x - 53) (-1074).
Proof. reflexivity. Qed.

Lemma shr_fexp_spec (m e : Z) (l : location) :
  0 <= m ->
  let e' := Z.max e (fexp prec emax (Zdigits2 m + e)) in
  snd (shr_fexp prec emax m e l) = e' /\
  shr_m (fst (shr_fexp prec emax m e l)) = m / 2 ^ (e' - e) /\
  (l = loc_Exact -> m mod 2 ^ (e' - e) = 0 ->
   loc_of_shr_record (fst (shr_fexp prec emax m e l)) = loc_Exact).
Proof.
  intros Hm e'. unfold shr_fexp.
  set (n := fexp prec emax (Zdigits2 m + e) - e).
  destruct (record_of_loc_spec m l) as [Hr1 Hr2].
  destruct (shr_spec (shr_record_of_loc m l) e n ltac:(lia)) as (_ & H2 & H3 & H4).
  rewrite Hr1 in H3, H4.
  assert (En : Z.max 0 n = e' - e) by (unfold e', n; lia).
  rewrite En in *. split; [lia |]. split; [exact H3 |].
  intros Hl Hmod. apply loc_exact_record. apply H4. split; [exact Hmod |].
  apply Hr2. exact Hl.
Qed.

(** What [binary_round_aux] returns on an exact positive integer, in terms
    of the two shifts and the rounding in between. *)
Lemma binary_round_aux_steps (s : bool) (mx ex : Z) :
  0 < mx ->
  let e1 := Z.max ex (fexp prec emax (Zdigits2 mx + ex)) in
  let m1 := mx / 2 ^ (e1 - ex) in
  exists m2, m1 <= m2 <= m1 + 1 /\ (mx mod 2 ^ (e1 - ex) = 0 -> m2 = m1) /\
    let e3 := Z.max e1 (fexp prec emax (Zdigits2 m2 + e1)) in
    let m3 := m2 / 2 ^ (e3 - e1) in
    binary_round_aux prec emax s mx ex loc_Exact =
    match m3 with
    | Z0 => S754_zero s
    | Zpos m => if e3 <=? emax - prec then S754_finite s m e3 else S754_infinity s
    | Zneg _ => S754_nan
    end.
Proof.
  intros Hm e1 m1. unfold binary_round_aux.
  destruct (shr_fexp_spec mx ex loc_Exact ltac:(lia)) as (H1 & H2 & H3). cbv zeta in *.
  fold e1 in H1, H2, H3. fold m1 in H2.
  destruct (shr_fexp prec emax mx ex loc_Exact) as [mrs' e']. cbn [fst snd] in *. subst e'.
  destruct (round_nearest_even_bounds (shr_m mrs') (loc_of_shr_record mrs')) as [Hr Hx].
  set (m2 := round_nearest_even (shr_m mrs') (loc_of_shr_record mrs')) in *.
  exists m2. rewrite H2 in Hr. split; [exact Hr |].
  split; [intros Hmod; rewrite <- H2; apply Hx; apply H3; [reflexivity | exact Hmod] |].
  assert (Hm1 : 0 <= m1).
  { unfold m1. apply Z.div_pos; [lia | apply Z.pow_pos_nonneg; unfold e1; lia]. }
  destruct (shr_fexp_spec m2 e1 loc_Exact ltac:(lia)) as (K1 & K2 & _). cbv zeta in *.

  destruct (shr_fexp prec emax m2 e1 loc_Exact) as [mrs'' e'']. cbn [fst snd] in *.
  rewrite K1, K2. reflexivity.
Qed.

(** A value of at least [2^-1074] is rounded to a number of the same
    magnitude, or of the next one. *)
Lemma binary_round_aux_normal (s : bool) (mx ex : Z) :
  0 < mx -> -1073 <= Zdigits2 mx + ex ->
  let mu := Zdigits2 mx + ex in
  let e1 := Z.max ex (fexp prec emax mu) in
  exists m3 e3,
    binary_round_aux prec emax s mx ex loc_Exact =
      (if e3 <=? emax - prec then S754_finite s m3 e3 else S754_infinity s) /\
    mu <= e3 + Zpos (digits2_pos m3) <= mu + 1 /\
    e1 <= e3 <= e1 + 1 /\
    (e3 = e1 -> mx / 2 ^ (e1 - ex) <= Zpos m3).
Proof.
  intros Hm Hmu mu e1.
  destruct (binary_round_aux_steps s mx ex Hm) as (m2 & Hr & _ & E). cbv zeta in E.
  fold mu in E. fold e1 in E.
  destruct (Zdigits2_bounds mx Hm) as [Hd _].
  assert (Hk : 0 <= e1 - ex < Zdigits2 mx).
  { unfold e1. rewrite fexp_spec. unfold mu in *. lia. }
  destruct (Zdigits2_div mx (e1 - ex) Hm Hk) as [Hm1 Hd1].
  set (m1 := mx / 2 ^ (e1 - ex)) in *.
  change (m1 <= m2 <= m1 + 1) in Hr.
  assert (Hmu1 : Zdigits2 m1 + e1 = mu) by (unfold mu; lia).
  assert (Hf : fexp prec emax mu <= e1) by (unfold e1; lia).
  assert (Hf1 : fexp prec emax (mu + 1) <= e1 + 1) by (rewrite fexp_spec in *; lia).
  destruct (Zdigits2_succ m1 m2 Hm1 Hr) as [Hd2 | [Hp2 Hd2]].
  - (* same number of digits: no second shift *)
    rewrite Hd2, Hmu1 in E.
    replace (Z.max e1 (fexp prec emax mu)) with e1 in E by lia.
    rewrite Z.sub_diag in E. change (2 ^ 0) with 1 in E. rewrite Z.div_1_r in E.
    destruct m2 as [| p2 | p2]; [exfalso; lia | | exfalso; lia].
    exists p2, e1. split; [exact E |]. cbn [Zdigits2] in Hd2. split; [lia |].
    split; [lia |]. intros _. lia.
  - (* a power of two is reached *)
    rewrite Hd2 in E. replace (Zdigits2 m1 + 1 + e1) with (mu + 1) in E by lia.
    set (e3 := Z.max e1 (fexp prec emax (mu + 1))) in *.
    assert (He3 : e1 <= e3 <= e1 + 1) by (unfold e3; lia).
    assert (Hdm1 : 0 < Zdigits2 m1) by (destruct (Zdigits2_bounds m1 Hm1); lia).
    assert (Em3 : m2 / 2 ^ (e3 - e1) = 2 ^ (Zdigits2 m1 - (e3 - e1))).
    { rewrite Hp2. rewrite <- Z.pow_sub_r by lia. reflexivity. }
    rewrite Em3 in E.
    assert (Hp3 : 0 < 2 ^ (Zdigits2 m1 - (e3 - e1))) by (apply Z.pow_pos_nonneg; lia).
    pose proof (Zdigits2_pow2 (Zdigits2 m1 - (e3 - e1)) ltac:(lia)) as Hd3.
    destruct (2 ^ (Zdigits2 m1 - (e3 - e1))) as [| p3 | p3] eqn:E3;
      [exfalso; lia | | exfalso; lia].
    exists p3, e3. split; [exact E |]. cbn [Zdigits2] in Hd3. split; [lia |].
    split; [lia |]. intros He. rewrite He in *. rewrite Z.sub_diag, Z.sub_0_r in E3.
    destruct (Zdigits2_bounds m1 Hm1) as [_ [_ U]]. lia.
Qed.

(** A value below [2^-1074] is rounded to zero or to the least positive
    number. *)
Lemma binary_round_aux_tiny (s : bool) (mx ex : Z) :
  0 < mx -> Zdigits2 mx + ex <= -1074 ->
  binary_round_aux prec emax s mx ex loc_Exact = S754_zero s \/
  binary_round_aux prec emax s mx ex loc_Exact = S754_finite s 1 (-1074).
Proof.
  intros Hm Hmu.
  destruct (binary_round_aux_steps s mx ex Hm) as (m2 & Hr & _ & E). cbv zeta in E.
  destruct (Zdigits2_bounds mx Hm) as [Hd [_ U]].
  assert (E1 : Z.max ex (fexp prec emax (Zdigits2 mx + ex)) = -1074)
    by (rewrite fexp_spec; lia).
  rewrite E1 in *.
  assert (Em1 : mx / 2 ^ (-1074 - ex) = 0).
  { apply Z.div_small. split; [lia |].
    assert (2 ^ Zdigits2 mx <= 2 ^ (-1074 - ex)) by (apply Z.pow_le_mono_r; lia). lia. }
  rewrite Em1 in Hr.
  assert (m2 = 0 \/ m2 = 1) as [-> | ->] by lia.
  - left. exact E.
  - right. exact E.
Qed.

Lemma round_mag_ge (s : bool) (mx ex n : Z) :
  0 < mx -> -1074 <= n -> n < Zdigits2 mx + ex ->
  sf_signed s (binary_round_aux prec emax s mx ex loc_Exact) /\
  sf_mag_ge (binary_round_aux prec emax s mx ex loc_Exact) n.
Proof.
  intros Hm Hn Hmu.
  destruct (binary_round_aux_normal s mx ex Hm ltac:(lia)) as (m3 & e3 & -> & H1 & _).
  destruct (e3 <=? emax - prec); cbn [sf_signed sf_mag_ge]; split; try reflexivity;
    try exact I. lia.
Qed.

Lemma round_mag_lt (s : bool) (mx ex n : Z) :
  0 < mx -> Zdigits2 mx + ex <= n -> -1074 <= n <= 1022 -> ex <= 970 ->
  sf_signed s (binary_round_aux prec emax s mx ex loc_Exact) /\
  sf_mag_lt (binary_round_aux prec emax s mx ex loc_Exact) (n + 1).
Proof.
  intros Hm Hmu Hn He.
  destruct (Z.le_gt_cases (-1073) (Zdigits2 mx + ex)) as [Hnorm | Htiny].
  - destruct (binary_round_aux_normal s mx ex Hm Hnorm) as (m3 & e3 & -> & H1 & H2 & _).
    rewrite fexp_spec in H2.
    assert ((e3 <=? emax - prec) = true) as ->
      by (apply Z.leb_le; unfold emax, prec; lia).
    cbn [sf_signed sf_mag_lt]. split; [reflexivity | lia].
  - destruct (binary_round_aux_tiny s mx ex Hm ltac:(lia)) as [-> | ->];
      cbn [sf_signed sf_mag_lt digits2_pos]; split; try reflexivity; try exact I. lia.
Qed.

Lemma Zdigits2_mul_pow2 (m k : Z) : 0 < m -> 0 <= k -> Zdigits2 (m * 2 ^ k) = Zdigits2 m + k.
Proof.
  intros Hm Hk. destruct (Zdigits2_bounds m Hm) as [Hd [L U]].
  assert (Hp : 0 < 2 ^ k) by (apply Z.pow_pos_nonneg; lia).
  apply Zdigits2_unique; [nia |].
  replace (Zdigits2 m + k - 1) with (Zdigits2 m - 1 + k) by lia.
  rewrite !Z.pow_add_r by lia. nia.
Qed.

(** [binary_round] first aligns the mantissa, which changes neither the
    value nor the magnitude. *)
Lemma binary_round_aligned (s : bool) (m : positive) (e : Z) :
  exists mz ez, binary_round prec emax s m e =
                binary_round_aux prec emax s (Zpos mz) ez loc_Exact /\
    ez <= e /\ Zpos mz = Zpos m * 2 ^ (e - ez) /\
    Zdigits2 (Zpos mz) + ez = Zdigits2 (Zpos m) + e /\
    ez = Z.min e (fexp prec emax (Zdigits2 (Zpos m) + e)).
Proof.
  unfold binary_round.
  destruct (shl_align_spec m e (fexp prec emax (Zpos (digits2_pos m) + e))) as (H1 & H2 & H3).
  destruct (shl_align m e (fexp prec emax (Zpos (digits2_pos m) + e))) as [mz ez] eqn:E.
  cbn [fst snd] in *. exists mz, ez. split; [reflexivity |]. split; [exact H1 |].
  split; [exact H3 |]. split.
  - rewrite H3, Zdigits2_mul_pow2 by lia. lia.
  - cbn [Zdigits2]. unfold shl_align in E.
    destruct (fexp prec emax (Zpos (digits2_pos m) + e) - e) as [| d | d] eqn:Ed;
      inversion E; subst; lia.
Qed.

Lemma normalize_mag_ge (M e n : Z) :
  M <> 0 -> -1074 <= n -> n < Zdigits2 (Z.abs M) + e ->
  sf_signed (M <? 0) (binary_normalize prec emax M e false) /\
  sf_mag_ge (binary_normalize prec emax M e false) n.
Proof.
  intros HM Hn Hmu. destruct M as [| p | p]; [contradiction | |];
    cbn [binary_normalize Z.abs] in *.
  - destruct (binary_round_aligned false p e) as (mz & ez & -> & _ & _ & Hd & _).
    apply round_mag_ge; lia.
  - destruct (binary_round_aligned true p e) as (mz & ez & -> & _ & _ & Hd & _).
    apply round_mag_ge; lia.
Qed.

Lemma normalize_mag_lt (M e n : Z) :
  Zdigits2 (Z.abs M) + e <= n -> -1074 <= n <= 1022 -> e <= 970 ->
  (M <> 0 -> sf_signed (M <? 0) (binary_normalize prec emax M e false)) /\
  sf_mag_lt (binary_normalize prec emax M e false) (n + 1).
Proof.
  intros Hmu Hn He. destruct M as [| p | p]; cbn [binary_normalize Z.abs] in *.
  - split; [intros H; contradiction | exact I].
  - destruct (binary_round_aligned false p e) as (mz & ez & E & Hz & _ & Hd & _).
    rewrite E. split; [intros _ |]; apply (round_mag_lt false (Zpos mz) ez n); lia.
  - destruct (binary_round_aligned true p e) as (mz & ez & E & Hz & _ & Hd & _).
    rewrite E. split; [intros _ |]; apply (round_mag_lt true (Zpos mz) ez n); lia.
Qed.

Lemma round_signed (s : bool) (mx ex : Z) :
  0 < mx -> sf_signed s (binary_round_aux prec emax s mx ex loc_Exact).
Proof.
  intros Hm. destruct (Z.le_gt_cases (-1073) (Zdigits2 mx + ex)) as [Hnorm | Htiny].
  - destruct (binary_round_aux_normal s mx ex Hm Hnorm) as (m3 & e3 & -> & _).
    destruct (e3 <=? emax - prec); reflexivity.
  - destruct (binary_round_aux_tiny s mx ex Hm ltac:(lia)) as [-> | ->]; reflexivity.
Qed.

Lemma normalize_signed (M e : Z) :
  M <> 0 -> sf_signed (M <? 0) (binary_normalize prec emax M e false).
Proof.
  intros HM. destruct M as [| p | p]; [contradiction | |]; cbn [binary_normalize].
  - destruct (binary_round_aligned false p e) as (mz & ez & -> & _).
    apply round_signed. lia.
  - destruct (binary_round_aligned true p e) as (mz & ez & -> & _).
    apply round_signed. lia.
Qed.

Lemma sf_mag_lt_mono (x : spec_float) (a b : Z) : a <= b -> sf_mag_lt x a -> sf_mag_lt x b.
Proof. destruct x; cbn [sf_mag_lt]; try tauto. lia. Qed.

Lemma sf_mag_cases (x : spec_float) (n : Z) :
  x <> S754_nan -> sf_mag_lt x n \/ sf_mag_ge x n.
Proof.
  destruct x as [s | s | | s m e]; cbn [sf_mag_lt sf_mag_ge]; try tauto. intros _. lia.
Qed.

Lemma Zdigits2_mul (a b : positive) :
  Zpos (digits2_pos a) + Zpos (digits2_pos b) - 1 <= Zdigits2 (Zpos (a * b))
    <= Zpos (digits2_pos a) + Zpos (digits2_pos b).
Proof.
  pose proof (digits2_pos_lower a) as La. pose proof (digits2_pos_upper a) as Ua.
  pose proof (digits2_pos_lower b) as Lb. pose proof (digits2_pos_upper b) as Ub.
  set (da := Zpos (digits2_pos a)) in *. set (db := Zpos (digits2_pos b)) in *.
  assert (0 < da) by (unfold da; lia). assert (0 < db) by (unfold db; lia).
  rewrite Pos2Z.inj_mul.
  assert (L : 2 ^ (da - 1 + (db - 1)) <= Zpos a * Zpos b).
  { rewrite Z.pow_add_r by lia. apply Z.mul_le_mono_nonneg; try lia; apply Z.pow_nonneg; lia. }
  assert (U : Zpos a * Zpos b < 2 ^ (da + db)).
  { rewrite Z.pow_add_r by lia. apply Z.mul_lt_mono_nonneg; lia. }
  destruct (Zdigits2_bounds (Zpos a * Zpos b) ltac:(lia)) as [Hd [L' U']].
  set (d := Zdigits2 (Zpos a * Zpos b)) in *.
  split.
  - destruct (Z.le_gt_cases (da + db - 1) d) as [K | K]; [exact K |].
    assert (2 ^ d <= 2 ^ (da - 1 + (db - 1))) by (apply Z.pow_le_mono_r; lia). lia.
  - destruct (Z.le_gt_cases d (da + db)) as [K | K]; [exact K |].
    assert (2 ^ (da + db) <= 2 ^ (d - 1)) by (apply Z.pow_le_mono_r; lia). lia.
Qed.

(** Products. *)
Lemma SFmul_mag_lt (x y : spec_float) (a b : Z) :
  sf_mag_lt x a -> sf_mag_lt y b -> -1074 <= a + b <= 972 ->
  sf_mag_lt (SFmul prec emax x y) (a + b + 1).
Proof.
  intros Hx Hy Hab.
  destruct x as [sx | sx | | sx mx ex]; destruct y as [sy | sy | | sy my ey];
    cbn [sf_mag_lt SFmul] in *; try tauto.
  pose proof (Zdigits2_mul mx my) as Hd.
  pose proof (digits2_pos_lower mx). pose proof (digits2_pos_lower my).
  apply (round_mag_lt (xorb sx sy) (Zpos (mx * my)) (ex + ey) (a + b)); lia.
Qed.

Lemma SFmul_mag_ge (x y : spec_float) (a b : Z) (sx sy : bool) :
  sf_mag_ge x a -> sf_mag_ge y b -> sf_signed sx x -> sf_signed sy y ->
  -1074 <= a + b ->
  sf_mag_ge (SFmul prec emax x y) (a + b) /\ sf_signed (xorb sx sy) (SFmul prec emax x y).
Proof.
  intros Hx Hy Sx Sy Hab.
  destruct x as [s1 | s1 | | s1 mx ex]; destruct y as [s2 | s2 | | s2 my ey];
    cbn [sf_mag_ge SFmul sf_signed] in *; try tauto; subst; try (split; [exact I | reflexivity]).
  pose proof (Zdigits2_mul mx my) as Hd.
  destruct (round_mag_ge (xorb sx sy) (Zpos (mx * my)) (ex + ey) (a + b)) as [H1 H2];
    try lia. split; assumption.
Qed.

(** Sums and differences. *)
Lemma aligned_bounds (m : positive) (e ez : Z) :
  ez <= e ->
  Zpos (fst (shl_align m e ez)) = Zpos m * 2 ^ (e - ez) /\
  2 ^ (Zpos (digits2_pos m) - 1 + e - ez) <= Zpos (fst (shl_align m e ez))
    < 2 ^ (Zpos (digits2_pos m) + e - ez).
Proof.
  intros He. destruct (shl_align_spec m e ez) as (_ & H2 & H3).
  rewrite (H2 He) in H3. split; [exact H3 |]. rewrite H3.
  pose proof (digits2_pos_lower m) as L. pose proof (digits2_pos_upper m) as U.
  assert (0 < Zpos (digits2_pos m)) by lia.
  assert (Hp : 0 < 2 ^ (e - ez)) by (apply Z.pow_pos_nonneg; lia).
  replace (Zpos (digits2_pos m) - 1 + e - ez) with (Zpos (digits2_pos m) - 1 + (e - ez)) by lia.
  replace (Zpos (digits2_pos m) + e - ez) with (Zpos (digits2_pos m) + (e - ez)) by lia.
  rewrite !Z.pow_add_r by lia. nia.
Qed.

Lemma Zdigits2_lt_pow (m k : Z) : 0 < m < 2 ^ k -> Zdigits2 m <= k.
Proof.
  intros [Hm Hk]. destruct (Zdigits2_bounds m Hm) as [Hd [L U]].
  destruct (Z.le_gt_cases (Zdigits2 m) k) as [K | K]; [exact K |].
  destruct (Z.le_gt_cases 0 k) as [K0 | K0].
  - assert (2 ^ k <= 2 ^ (Zdigits2 m - 1)) by (apply Z.pow_le_mono_r; lia). lia.
  - rewrite Z.pow_neg_r in Hk by lia. lia.
Qed.

Lemma Zdigits2_ge_pow (m k : Z) : 0 <= k -> 2 ^ k <= m -> k < Zdigits2 m.
Proof.
  intros Hk Hm. assert (0 < 2 ^ k) by (apply Z.pow_pos_nonneg; lia).
  destruct (Zdigits2_bounds m ltac:(lia)) as [Hd [L U]].
  destruct (Z.le_gt_cases (Zdigits2 m) k) as [K | K]; [| exact K].
  assert (2 ^ Zdigits2 m <= 2 ^ k) by (apply Z.pow_le_mono_r; lia). lia.
Qed.

Lemma pow2_sum_lt (a b n : Z) : a <= n -> b <= n -> 2 ^ a + 2 ^ b <= 2 ^ (n + 1).
Proof.
  intros Ha Hb. destruct (Z.le_gt_cases 0 n) as [Hn | Hn].
  - assert (2 ^ a <= 2 ^ n).
    { destruct (Z.le_gt_cases 0 a); [apply Z.pow_le_mono_r; lia |].
      rewrite (Z.pow_neg_r 2 a) by lia. apply Z.pow_nonneg; lia. }
    assert (2 ^ b <= 2 ^ n).
    { destruct (Z.le_gt_cases 0 b); [apply Z.pow_le_mono_r; lia |].
      rewrite (Z.pow_neg_r 2 b) by lia. apply Z.pow_nonneg; lia. }
    rewrite Z.pow_add_r by lia. change (2 ^ 1) with 2. lia.
  - rewrite (Z.pow_neg_r 2 a), (Z.pow_neg_r 2 b) by lia.
    assert (0 <= 2 ^ (n + 1)) by (apply Z.pow_nonneg; lia). lia.
Qed.

Lemma SFadd_mag_lt (x y : spec_float) (a b n : Z) :
  sf_mag_lt x a -> sf_mag_lt y b -> a <= n -> b <= n -> -1075 <= n <= 969 ->
  sf_mag_lt (SFadd prec emax x y) (n + 2).
Proof.
  intros Hx Hy Ha Hb Hn.
  destruct x as [sx | sx | | sx mx ex]; destruct y as [sy | sy | | sy my ey];
    cbn [sf_mag_lt SFadd] in *; try tauto.
  - destruct sx, sy; exact I.
  - lia.
  - lia.
  - destruct (aligned_bounds mx ex (Z.min ex ey) ltac:(lia)) as (_ & _ & Ux).
    destruct (aligned_bounds my ey (Z.min ex ey) ltac:(lia)) as (_ & _ & Uy).
    set (ez := Z.min ex ey) in *.
    set (X := Zpos (fst (shl_align mx ex ez))) in *.
    set (Y := Zpos (fst (shl_align my ey ez))) in *.
    assert (HX : 0 < X) by (unfold X; lia). assert (HY : 0 < Y) by (unfold Y; lia).
    pose proof (pow2_sum_lt (Zpos (digits2_pos mx) + ex - ez)
                  (Zpos (digits2_pos my) + ey - ez) (n - ez) ltac:(lia) ltac:(lia)) as Hs.
    replace (n + 2) with (n + 1 + 1) by lia.
    apply normalize_mag_lt; try lia.
    set (M := cond_Zopp sx X + cond_Zopp sy Y).
    destruct (Z.eq_dec M 0) as [-> | HM]; [cbn; lia |].
    assert (HA : 0 < Z.abs M < 2 ^ (n - ez + 1)).
    { unfold M in *. destruct sx, sy; cbn [cond_Zopp] in *; lia. }
    pose proof (Zdigits2_lt_pow _ _ HA). lia.
Qed.

(** A small number added to a large one leaves at least half of it. *)
Lemma SFadd_mag_ge (x y : spec_float) (a b : Z) :
  sf_mag_lt x b -> sf_mag_ge y a -> b < a -> -1073 <= a ->
  sf_mag_ge (SFadd prec emax x y) (a - 1).
Proof.
  intros Hx Hy Hab Ha.
  destruct x as [sx | sx | | sx mx ex]; destruct y as [sy | sy | | sy my ey];
    cbn [sf_mag_lt sf_mag_ge SFadd] in *; try tauto; try lia.
  destruct (aligned_bounds mx ex (Z.min ex ey) ltac:(lia)) as (_ & _ & Ux).
  destruct (aligned_bounds my ey (Z.min ex ey) ltac:(lia)) as (_ & Ly & _).
  set (ez := Z.min ex ey) in *.
  set (X := Zpos (fst (shl_align mx ex ez))) in *.
  set (Y := Zpos (fst (shl_align my ey ez))) in *.
  assert (HX : 0 < X) by (unfold X; lia). assert (HY : 0 < Y) by (unfold Y; lia).
  set (dx := Zpos (digits2_pos mx)) in *. set (dy := Zpos (digits2_pos my)) in *.
  assert (0 < dx) by (unfold dx; lia). assert (0 < dy) by (unfold dy; lia).
  assert (Hle : 2 ^ (dx + ex - ez) <= 2 ^ (dy - 1 + ey - ez - 1))
    by (apply Z.pow_le_mono_r; lia).
  assert (E2 : 2 ^ (dy - 1 + ey - ez) = 2 * 2 ^ (dy - 1 + ey - ez - 1)).
  { rewrite <- Z.pow_succ_r by lia. f_equal. lia. }
  set (M := cond_Zopp sx X + cond_Zopp sy Y).
  assert (HA : 2 ^ (dy - 1 + ey - ez - 1) <= Z.abs M).
  { unfold M. destruct sx, sy; cbn [cond_Zopp]; lia. }
  assert (0 < 2 ^ (dy - 1 + ey - ez - 1)) by (apply Z.pow_pos_nonneg; lia).
  assert (Hk : 0 <= dy - 1 + ey - ez - 1) by lia.
  pose proof (Zdigits2_ge_pow _ _ Hk HA) as Hd.
  apply normalize_mag_ge; lia.
Qed.

(** A number minus a larger positive one is negative. *)
Lemma SFsub_negative (x y : spec_float) (n : Z) :
  sf_mag_lt x n -> sf_mag_ge y n -> sf_signed false y ->
  sf_signed true (SFsub prec emax x y).
Proof.
  intros Hx Hy Sy.
  destruct x as [sx | sx | | sx mx ex]; destruct y as [sy | sy | | sy my ey];
    cbn [sf_mag_lt sf_mag_ge SFsub sf_signed] in *; try tauto; subst; try reflexivity.
  destruct (aligned_bounds mx ex (Z.min ex ey) ltac:(lia)) as (_ & _ & Ux).
  destruct (aligned_bounds my ey (Z.min ex ey) ltac:(lia)) as (_ & Ly & _).
  set (ez := Z.min ex ey) in *.
  set (X := Zpos (fst (shl_align mx ex ez))) in *.
  set (Y := Zpos (fst (shl_align my ey ez))) in *.
  assert (HX : 0 < X) by (unfold X; lia).
  assert (0 < Zpos (digits2_pos mx)) by lia.
  assert (Hle : 2 ^ (Zpos (digits2_pos mx) + ex - ez) <= 2 ^ (Zpos (digits2_pos my) - 1 + ey - ez))
    by (apply Z.pow_le_mono_r; lia).
  cbn [cond_Zopp].
  set (M := cond_Zopp sx X - Y).
  assert (HM : M < 0) by (unfold M; destruct sx; cbn [cond_Zopp]; lia).
  pose proof (normalize_signed M ez ltac:(lia)) as Hs.
  assert ((M <? 0) = true) as E by (apply Z.ltb_lt; exact HM). rewrite E in Hs. exact Hs.
Qed.

(** A value of the next representable number or more is rounded to a number
    above the given one. *)
Lemma normalize_above (M e : Z) (m0 : positive) (e0 : Z) :
  canonical_mantissa prec emax m0 e0 = true -> e <= e0 ->
  (Zpos m0 + 1) * 2 ^ (e0 - e) <= M ->
  binary_normalize prec emax M e false = S754_infinity false \/
  exists m3 e3, binary_normalize prec emax M e false = S754_finite false m3 e3 /\
                (e0 < e3 \/ (e3 = e0 /\ Zpos m0 < Zpos m3)).
Proof.
  intros Hc He HM. unfold canonical_mantissa in Hc. apply Z.eqb_eq in Hc.
  assert (Hp : 0 < 2 ^ (e0 - e)) by (apply Z.pow_pos_nonneg; lia).
  destruct M as [| p | p]; try nia. cbn [binary_normalize].
  destruct (binary_round_aligned false p e) as (mz & ez & -> & Hz & Emz & Hd & Eez).
  pose proof (digits2_pos_lower m0) as L0.
  set (d0 := Zpos (digits2_pos m0)) in *. assert (0 < d0) by (unfold d0; lia).
  assert (Hmu : d0 + e0 <= Zdigits2 (Zpos p) + e).
  { assert (2 ^ (d0 - 1 + (e0 - e)) <= Zpos p).
    { rewrite Z.pow_add_r by lia. nia. }
    pose proof (Zdigits2_ge_pow (Zpos p) (d0 - 1 + (e0 - e)) ltac:(lia) H0). lia. }
  rewrite fexp_spec in Hc.
  destruct (binary_round_aux_normal false (Zpos mz) ez ltac:(lia) ltac:(lia))
    as (m3 & e3 & -> & _ & H2 & H3).
  rewrite Hd in H2, H3. rewrite fexp_spec in *.
  destruct (e3 <=? emax - prec); [right | left; reflexivity].
  exists m3, e3. split; [reflexivity |].
  destruct (Z.le_gt_cases e3 e0) as [Hle | Hgt]; [right | left; lia].
  assert (E3 : e3 = e0) by lia. split; [exact E3 |].
  assert (E1 : Z.max ez (Z.max (Zdigits2 (Zpos p) + e - 53) (-1074)) = e0) by lia.
  rewrite E1 in H3. specialize (H3 E3).
  assert (Zpos m0 + 1 <= Zpos mz / 2 ^ (e0 - ez)); [| lia].
  apply Z.div_le_lower_bound; [apply Z.pow_pos_nonneg; lia |].
  rewrite Emz. replace (e0 - ez) with ((e0 - e) + (e - ez)) by lia.
  rewrite Z.pow_add_r by lia.
  assert (0 < 2 ^ (e - ez)) by (apply Z.pow_pos_nonneg; lia). nia.
Qed.

Lemma valid_canonical (s : bool) (m : positive) (e : Z) :
  valid_binary (S754_finite s m e) = true ->
  canonical_mantissa prec emax m e = true /\ -1074 <= e /\
  (e = -1074 \/ Zpos (digits2_pos m) = 53) /\ Zpos (digits2_pos m) <= 53.
Proof.
  cbn [SpecFloat.valid_binary]. unfold bounded. intros H. apply andb_prop in H.
  destruct H as [H1 _]. split; [exact H1 |].
  unfold canonical_mantissa in H1. apply Z.eqb_eq in H1. rewrite fexp_spec in H1. lia.
Qed.

(** Adding the step to such a clock gives a larger number, and one that is
    still below [2^51]. *)
Lemma SFadd_tick (t : spec_float) :
  valid_binary t = true -> sf_clock t ->
  SFltb t (SFadd prec emax t sf_tenth) = true /\
  sf_signed false (SFadd prec emax t sf_tenth) /\
  sf_mag_lt (SFadd prec emax t sf_tenth) 51.
Proof.
  intros Hv [Hs Hm].
  assert (Hlt : sf_mag_lt (SFadd prec emax t sf_tenth) 51).
  { apply (SFadd_mag_lt t sf_tenth 49 (-3) 49); try lia; [exact Hm | cbn; lia]. }
  split; [| split; [| exact Hlt]].
  - destruct t as [s | s | | s mt et]; cbn [sf_signed sf_mag_lt] in *; try tauto;
      try reflexivity.
    + subst s. destruct (valid_canonical _ _ _ Hv) as (Hc & He & Hd & Hd').
      unfold sf_tenth. cbn [SFadd cond_Zopp].
      destruct (aligned_bounds mt et (Z.min et (-56)) ltac:(lia)) as (EX & _).
      destruct (aligned_bounds 7205759403792794 (-56) (Z.min et (-56)) ltac:(lia)) as (EY & _).
      set (ez := Z.min et (-56)) in *.
      assert (HM : (Zpos mt + 1) * 2 ^ (et - ez)
                   <= Zpos (fst (shl_align mt et ez))
                      + Zpos (fst (shl_align 7205759403792794 (-56) ez))).
      { rewrite EX, EY. rewrite Z.mul_add_distr_r, Z.mul_1_l.
        apply Z.add_le_mono_l.
        destruct (Z.le_gt_cases et (-56)) as [H56 | H56].
        - assert (ez = et) as -> by (unfold ez; lia). rewrite Z.sub_diag.
          assert (0 < 2 ^ (-56 - et)) by (apply Z.pow_pos_nonneg; lia).
          change (2 ^ 0) with 1. nia.
        - assert (ez = -56) as -> by (unfold ez; lia). change (-56 - -56) with 0.
          change (2 ^ 0) with 1. rewrite Z.mul_1_r.
          assert (2 ^ (et - -56) <= 2 ^ 52) by (apply Z.pow_le_mono_r; lia).
          change (2 ^ 52) with 4503599627370496 in H. lia. }
      destruct (normalize_above _ ez mt et Hc ltac:(unfold ez; lia) HM)
        as [-> | (m3 & e3 & -> & Hgt)]; [reflexivity |].
      unfold SFltb. cbn [SFcompare].
      destruct Hgt as [Hgt | [-> Hgt]].
      * rewrite (proj2 (Z.compare_lt_iff et e3) Hgt). reflexivity.
      * rewrite Z.compare_refl. rewrite Pos.compare_cont_spec. cbn [Pos.switch_Eq].
        rewrite Pos2Z.inj_compare. rewrite (proj2 (Z.compare_lt_iff _ _) Hgt). reflexivity.
  - destruct t as [s | s | | s mt et]; cbn [sf_signed sf_mag_lt] in *; try tauto;
      subst; unfold sf_tenth; cbn [SFadd sf_signed cond_Zopp]; try reflexivity.
    set (M := Zpos (fst (shl_align mt et (Z.min et (-56))))
              + Zpos (fst (shl_align 7205759403792794 (-56) (Z.min et (-56))))).
    pose proof (normalize_signed M (Z.min et (-56)) ltac:(unfold M; lia)) as HS.
    assert ((M <? 0) = false) as E by (apply Z.ltb_ge; unfold M; lia).
    rewrite E in HS. exact HS.
Qed.

Lemma number_is_nan (x : float) : number x -> is_nan x = false.
Proof.
  unfold number, is_nan. rewrite eqb_spec. unfold SFeqb.
  destruct (Prim2SF x) as [s | s | | s m e]; cbn [SFcompare]; try congruence;
    intros _; destruct s; try reflexivity;
    rewrite Z.compare_refl, Pos.compare_cont_refl; reflexivity.
Qed.

Lemma SFleb_negative (x y : spec_float) :
  sf_signed true x -> sf_nonneg y -> SFleb x y = true.
Proof.
  destruct x as [sx | sx | | sx mx ex]; destruct y as [sy | [|] | | [|] my ey];
    cbn [sf_signed sf_nonneg]; try tauto; intros -> _; reflexivity.
Qed.

Lemma sf_upto_mag (x : spec_float) (c n : Z) :
  sf_upto x c -> 0 <= n -> 0 <= c < 2 ^ n -> sf_nonneg x /\ sf_mag_lt x n.
Proof.
  destruct x as [s | s | | [|] m e]; cbn [sf_upto sf_nonneg sf_mag_lt]; try tauto.
  intros [He Hm] Hn Hc. split; [exact I |].
  assert (Hp : 0 < 2 ^ (- e)) by (apply Z.pow_pos_nonneg; lia).
  assert (Zpos m < 2 ^ (n - e)).
  { replace (n - e) with (n + - e) by lia. rewrite Z.pow_add_r by lia. nia. }
  pose proof (Zdigits2_lt_pow (Zpos m) (n - e) ltac:(lia)) as Hd. cbn [Zdigits2] in Hd. lia.
Qed.

Lemma cos_away_from_zero (c : float) :
  (0x1p-82 <=? abs c)%float = true ->
  sf_mag_ge (Prim2SF c) (-82) /\ exists s, sf_signed s (Prim2SF c).
Proof.
  rewrite leb_spec, abs_spec.
  change (Prim2SF 0x1p-82) with (S754_finite false 4503599627370496 (-134)).
  pose proof (Prim2SF_valid c) as Hv.
  destruct (Prim2SF c) as [s | s | | s m e]; cbn [SFabs sf_mag_ge sf_signed];
    unfold SFleb; cbn [SFcompare]; try discriminate.
  - intros _. split; [exact I | eauto].
  - destruct (valid_canonical _ _ _ Hv) as (_ & He & Hd & _). clear Hv.
    intros H. split; [| eauto].
    destruct (Z.compare_spec (-134) e) as [E | L | G]; try discriminate H.
    + subst e. rewrite Pos.compare_cont_spec in H. cbn [Pos.switch_Eq] in H.
      rewrite Pos2Z.inj_compare in H.
      destruct (Z.compare_spec (Zpos 4503599627370496) (Zpos m)) as [E | L | G];
        try discriminate H; clear H.
      * pose proof (Zdigits2_ge_pow (Zpos m) 52 ltac:(lia)) as K. cbn [Zdigits2] in K.
        change (2 ^ 52) with 4503599627370496 in K. lia.
      * pose proof (Zdigits2_ge_pow (Zpos m) 52 ltac:(lia)) as K. cbn [Zdigits2] in K.
        change (2 ^ 52) with 4503599627370496 in K. lia.
    + lia.
Qed.

Lemma sin_in_range (s : float) :
  (abs s <=? 1)%float = true -> sf_mag_lt (Prim2SF s) 1.
Proof.
  rewrite leb_spec, abs_spec.
  change (Prim2SF 1) with (S754_finite false 4503599627370496 (-52)).
  pose proof (Prim2SF_valid s) as Hv.
  destruct (Prim2SF s) as [s0 | s0 | | s0 m e]; cbn [SFabs sf_mag_lt];
    unfold SFleb; cbn [SFcompare]; try discriminate; try (intros _; exact I).
  destruct (valid_canonical _ _ _ Hv) as (_ & He & _ & Hd). clear Hv.
  intros H. destruct (Z.compare_spec e (-52)) as [E | L | G]; try discriminate H; lia.
Qed.

(** *** No flight lasts until the clock stalls *)

Section LongFlights.
Context {R : GoRuntime}.

(** An integer conversion of a number of magnitude [2^9] or more is not a
    column of the field. *)
Lemma int_of_large (x : float) :
  conversions_leave_field -> sf_mag_ge (Prim2SF x) 9 ->
  ~ (0 <= int_of_float64 x < 100).
Proof.
  intros Hconv Hx. unfold int_of_float64.
  assert (Hn : is_nan x = false).
  { apply number_is_nan. unfold number. destruct (Prim2SF x); cbn in Hx; try tauto; discriminate. }
  destruct (Prim2SF x) as [s | s | | s m e]; cbn [sf_mag_ge SFtrunc] in *; try tauto.
  - apply Hconv. exact Hn.
  - destruct (in_int64 _); [| apply Hconv; exact Hn].
    pose proof (digits2_pos_lower m) as L.
    set (d := Zpos (digits2_pos m)) in *. assert (0 < d) by (unfold d; lia).
    assert (Hs : 2 ^ 9 <= Z.shiftl (Zpos m) e).
    { destruct (Z.le_gt_cases 0 e) as [He | He].
      - rewrite Z.shiftl_mul_pow2 by lia.
        assert (2 ^ 9 <= 2 ^ (d - 1 + e)) by (apply Z.pow_le_mono_r; lia).
        rewrite Z.pow_add_r in H0 by lia.
        assert (0 < 2 ^ e) by (apply Z.pow_pos_nonneg; lia). nia.
      - rewrite shiftl_nonpos by lia.
        apply Z.div_le_lower_bound; [apply Z.pow_pos_nonneg; lia |].
        assert (2 ^ (- e) * 2 ^ 9 <= 2 ^ (d - 1)); [| lia].
        rewrite <- Z.pow_add_r by lia. apply Z.pow_le_mono_r; lia. }
    change (2 ^ 9) with 512 in Hs. destruct s; cbn [cond_Zopp]; lia.
Qed.

(** From a clock of [2^49] on no tick leaves the projectile in flight: a
    power that keeps it above the ground carries it out of the field. *)
Lemma late_tick_is_out (m : model) (t : float) (h0 : Z) :
  steady_aim (angle m) -> conversions_leave_field -> number (power m) ->
  1 <= tankPos m <= 5 -> len (terrain m) = 100 -> heights_in_range (terrain m) ->
  0 <= h0 <= 1765 ->
  sf_signed false (Prim2SF t) -> sf_mag_ge (Prim2SF t) 49 -> sf_mag_lt (Prim2SF t) 51 ->
  out_or_ground (terrain m) (newXPos m t) (newYPos m (float64_of_int h0) t) = true.
Proof.
  intros Haim Hconv Hp Htank Hlen Hh Hh0 Ts Tge Tlt.
  unfold steady_aim in Haim. apply andb_prop in Haim. destruct Haim as [Hc Hs].
  apply cos_away_from_zero in Hc. destruct Hc as [Hc [sc Sc]].
  apply sin_in_range in Hs.
  unfold out_or_ground.
  destruct (Z.leb_spec (len (terrain m)) (int_of_float64 (newXPos m t))) as [_ | Hlt];
    [reflexivity |].
  destruct (Z.ltb_spec (int_of_float64 (newXPos m t)) 0) as [_ | Hge]; [reflexivity |].
  destruct (index (terrain m) (int_of_float64 (newXPos m t))) as [h |] eqn:Ei;
    [| reflexivity].
  assert (Hcol : ~ sf_mag_ge (Prim2SF (newXPos m t)) 9).
  { intros Hx. apply (int_of_large _ Hconv Hx). lia. }
  assert (Hhh : 0 <= h <= 1765).
  { unfold index in Ei. destruct (_ <? 0); [discriminate |].
    apply nth_error_In in Ei. unfold heights_in_range in Hh.
    rewrite Forall_forall in Hh. exact (Hh _ Ei). }
  destruct (sf_upto_mag _ _ 11 (float64_of_int_upto h ltac:(lia)) ltac:(lia) ltac:(lia))
    as [Hn _].
  destruct (sf_upto_mag _ _ 11 (float64_of_int_upto h0 ltac:(lia)) ltac:(lia) ltac:(lia))
    as [_ Hy0].
  destruct (sf_upto_mag _ _ 3 (float64_of_int_upto (tankPos m) ltac:(lia)) ltac:(lia) ltac:(lia))
    as [_ Hk].
  rewrite leb_spec. apply SFleb_negative; [| exact Hn].
  unfold newYPos, newXPos in *.
  set (c := math_Cos (angle m * math_Pi / 180)) in *.
  set (s := math_Sin (angle m * math_Pi / 180)) in *.
  rewrite sub_spec, add_spec, !mul_spec.
  rewrite add_spec, !mul_spec in Hcol.
  change SF64mul with (SFmul prec emax) in *. change SF64add with (SFadd prec emax) in *.
  change SF64sub with (SFsub prec emax).
  assert (HG : sf_mag_ge (SFmul prec emax (SFmul prec emax (Prim2SF (0.5 * gravity)) (Prim2SF t))
                                           (Prim2SF t)) 100 /\
               sf_signed false (SFmul prec emax (SFmul prec emax (Prim2SF (0.5 * gravity))
                                                                (Prim2SF t)) (Prim2SF t))).
  { assert (G0 : sf_mag_ge (Prim2SF (0.5 * gravity)) 2 /\ sf_signed false (Prim2SF (0.5 * gravity)))
      by (vm_compute; split; [reflexivity | reflexivity]).
    destruct G0 as [G0 G0s].
    destruct (SFmul_mag_ge _ _ 2 49 false false G0 Tge G0s Ts ltac:(lia)) as [G1 G1s].
    exact (SFmul_mag_ge _ _ (2 + 49) 49 (xorb false false) false G1 Tge G1s Ts ltac:(lia)). }
  destruct HG as [HG HGs].
  destruct (sf_mag_cases (Prim2SF (power m)) 43 Hp) as [Plt | Pge].
  - (* too little power to stay up *)
    pose proof (SFmul_mag_lt _ _ 43 1 Plt Hs ltac:(lia)) as Hq.
    pose proof (SFmul_mag_lt _ _ (43 + 1 + 1) 51 Hq Tlt ltac:(lia)) as HB.
    pose proof (SFadd_mag_lt _ _ 11 (43 + 1 + 1 + 51 + 1) 97 Hy0 HB ltac:(lia) ltac:(lia)
                  ltac:(lia)) as HA.
    apply (SFsub_negative _ _ 100); [| exact HG | exact HGs].
    apply (sf_mag_lt_mono _ (97 + 2)); [lia | exact HA].
  - (* enough power to leave the field *)
    exfalso. apply Hcol.
    assert (exists sp, sf_signed sp (Prim2SF (power m))) as [sp Sp].
    { destruct (Prim2SF (power m)) as [s0 | s0 | | s0 m0 e0]; cbn in Pge; try tauto;
        eexists; reflexivity. }
    destruct (SFmul_mag_ge _ _ 43 (-82) sp sc Pge Hc Sp Sc ltac:(lia)) as [Hr Sr].
    destruct (SFmul_mag_ge _ _ (43 + -82) 49 _ false Hr Tge Sr Ts ltac:(lia)) as [HrT _].
    apply (SFadd_mag_ge _ _ (43 + -82 + 49) 3 Hk HrT); lia.
Qed.

End LongFlights.

Lemma sf_signed_number (s : bool) (x : spec_float) : sf_signed s x -> x <> S754_nan.
Proof. destruct x; cbn; try tauto; discriminate. Qed.

(** One more or one less than a number is a number. *)
Lemma step_number (x : float) :
  number x -> number (x + 1) /\ number (x - 1).
Proof.
  unfold number. rewrite add_spec, sub_spec.
  change SF64add with (SFadd prec emax). change SF64sub with (SFsub prec emax).
  change (Prim2SF 1) with (S754_finite false 4503599627370496 (-52)).
  destruct (Prim2SF x) as [s | s | | s m e]; cbn [SFadd SFsub]; try congruence;
    intros _; split; try discriminate.
  - set (M := cond_Zopp s (Zpos (fst (shl_align m e (Z.min e (-52)))))
              + cond_Zopp false (Zpos (fst (shl_align 4503599627370496 (-52) (Z.min e (-52)))))).
    destruct (Z.eq_dec M 0) as [-> | HM]; [discriminate |].
    exact (sf_signed_number _ _ (normalize_signed M _ HM)).
  - set (M := cond_Zopp s (Zpos (fst (shl_align m e (Z.min e (-52)))))
              - cond_Zopp false (Zpos (fst (shl_align 4503599627370496 (-52) (Z.min e (-52)))))).
    destruct (Z.eq_dec M 0) as [-> | HM]; [discriminate |].
    exact (sf_signed_number _ _ (normalize_signed M _ HM)).
Qed.

Section Flights.
Context {R : GoRuntime}.

Lemma key_update_power (m : model) (key : string) :
  number (power m) -> number (power (fst (key_update m key))).
Proof.
  intros Hp. destruct (step_number _ Hp) as [H1 H2]. unfold key_update.
  repeat match goal with
         | |- context [if ?b then _ else _] => destruct b
         end; cbn [fst power set_aim set_flight]; assumption.
Qed.

(** The power of every reachable model is a number. *)
Lemma reachable_power_number (m : model) (g : rng) : reachable m g -> number (power m).
Proof.
  induction 1 as [g m g' H | m g msg m' c g' _ IH H].
  - unfold initialModel in H.
    destruct (generateTerrain 100 6 g) as [[t g0] |]; [| discriminate].
    cbn [rand_Intn] in H. destruct (index t _); [| discriminate].
    inversion H; subst. cbn [power]. unfold number. discriminate.
  - destruct msg as [key | | |]; cbn [Update] in H.
    + pose proof (key_update_power m key IH) as Hk.
      destruct (key_update m key) as [m1 c1]. inversion H; subst. exact Hk.
    + destruct (simulate m) as [[m1 c1] |] eqn:E; [| discriminate].
      apply simulate_frame in E. destruct E as (_ & _ & _ & _ & E).
      inversion H; subst. rewrite E. exact IH.
    + destruct (resetGame m g) as [[m1 g1] |] eqn:E; [| discriminate].
      destruct (resetGame_inv _ _ _ _ E) as (t & y & _ & _ & _ & ->).
      inversion H; subst. cbn [power]. unfold number. discriminate.
    + inversion H; subst. exact IH.
Qed.

Lemma reachable_heights (m : model) (g : rng) :
  cos_in_range 6 -> reachable m g -> heights_in_range (terrain m).
Proof.
  intros Hcos. induction 1 as [g m g' H | m g msg m' c g' _ IH H].
  - unfold initialModel in H.
    destruct (generateTerrain 100 6 g) as [[t g0] |] eqn:E; [| discriminate].
    cbn [rand_Intn] in H. destruct (index t (g0 O mod 5 + 1)); [| discriminate].
    inversion H; subst. cbn [terrain].
    eapply generateTerrain_heights; [exact Hcos | lia | exact E].
  - eapply Update_heights; eassumption.
Qed.

(** A tick that leaves the projectile in flight leaves the clock below
    [2^49]. *)
Lemma tick_keeps_clock (m : model) (g : rng) (m1 : model) (c1 : Cmd) :
  reachable m g -> cos_in_range 6 -> steady_aim (angle m) -> conversions_leave_field ->
  simulating m = true -> sf_clock (Prim2SF (timePassed m)) ->
  simulate m = Some (m1, c1) -> simulating m1 = true ->
  sf_clock (Prim2SF (timePassed m1)).
Proof.
  intros Hr Hcos Haim Hconv Hs Hclk Hsim Hs1.
  pose proof (reachable_well_formed m g Hr) as Hw.
  pose proof (reachable_heights m g Hcos Hr) as Hh.
  pose proof (reachable_power_number m g Hr) as Hp.
  destruct (well_formed_index_tank m Hw) as [h0 Hi].
  assert (Hh0 : 0 <= h0 <= 1765).
  { unfold index in Hi. destruct (_ <? 0); [discriminate |].
    apply nth_error_In in Hi. unfold heights_in_range in Hh.
    rewrite Forall_forall in Hh. exact (Hh _ Hi). }
  pose proof (simulate_clock m m1 c1 Hs Hsim) as Ht.
  rewrite (simulate_in_flight m h0 Hs Hi) in Hsim. cbv zeta in Hsim.
  destruct (SFadd_tick (Prim2SF (timePassed m)) (Prim2SF_valid _) Hclk) as (_ & Ts & Tlt).
  assert (ET : Prim2SF (timePassed m + 0.1) = SFadd prec emax (Prim2SF (timePassed m)) sf_tenth).
  { rewrite add_spec. reflexivity. }
  rewrite <- ET in Ts, Tlt. rewrite Ht.
  destruct (sf_mag_cases (Prim2SF (timePassed m + 0.1)) 49 (sf_signed_number _ _ Ts))
    as [Hlt | Hge]; [split; assumption |].
  exfalso. destruct Hw as (Hl & Hk & _).
  rewrite (late_tick_is_out m (timePassed m + 0.1) h0 Haim Hconv Hp Hk Hl Hh Hh0 Ts Hge Tlt)
    in Hsim.
  inversion Hsim; subst. cbn in Hs1. discriminate.
Qed.

(** The clock stays below [2^49] as long as the flight lasts. *)
Lemma flight_keeps_clock (k : nat) (m : model) (g : rng) (mk : model) (gk : rng) :
  reachable m g -> cos_in_range 6 -> steady_aim (angle m) -> conversions_leave_field ->
  simulating m = true -> sf_clock (Prim2SF (timePassed m)) ->
  run (ticks k) m g = Some (mk, gk) -> simulating mk = true ->
  sf_clock (Prim2SF (timePassed mk)).
Proof.
  intros Hr Hcos Haim Hconv. revert m Hr Haim.
  induction k as [| k IH]; intros m Hr Haim Hs Hclk.
  - cbn. intros E _; inversion E; subst. exact Hclk.
  - cbn [ticks repeat run Update].
    destruct (simulate m) as [[m1 c1] |] eqn:E; [| discriminate].
    fold (ticks k). intros Hrun Hk.
    destruct (simulating m1) eqn:Hs1.
    + apply (IH m1); try assumption.
      * apply (reach_step m g tickMsg m1 c1 g Hr). cbn [Update]. rewrite E. reflexivity.
      * apply simulate_frame in E. destruct E as (_ & _ & _ & Ea & _). rewrite Ea. exact Haim.
      * exact (tick_keeps_clock m g m1 c1 Hr Hcos Haim Hconv Hs Hclk E Hs1).
    + rewrite (run_ticks_idle k m1 g Hs1) in Hrun. inversion Hrun; subst. congruence.
Qed.

Lemma run_ticks_total (k : nat) (m : model) (g : rng) :
  reachable m g -> exists mk, run (ticks k) m g = Some (mk, g) /\ reachable mk g.
Proof.
  revert m; induction k as [| k IH]; intros m Hr; [exists m; split; [reflexivity | exact Hr] |].
  cbn [ticks repeat run Update].
  destruct (simulate_total m (reachable_well_formed m g Hr)) as (m1 & c1 & E). rewrite E.
  fold (ticks k). apply IH.
  apply (reach_step m g tickMsg m1 c1 g Hr). cbn [Update]. rewrite E. reflexivity.
Qed.

Lemma clock_step_up (t : float) :
  sf_clock (Prim2SF t) -> (t <? t + 0.1)%float = true.
Proof.
  intros Hclk. rewrite ltb_spec, add_spec.
  exact (proj1 (SFadd_tick (Prim2SF t) (Prim2SF_valid t) Hclk)).
Qed.

(** C7.  When fire is accepted in the aiming state the clock is set to
    zero and the first tick is scheduled.  From then on, for every number
    [k] of ticks, the run of [k] ticks has a result, and as long as the
    model is still in flight after them its clock holds [0.1] added [k]
    times; the next tick has a result too, adds exactly [0.1] again
    whatever its outcome, and the clock after it is strictly greater than
    before.  The clock is a binary64, so a sum that reached [2^49] would no
    longer grow; no flight lasts that long, since a shot with the power
    to stay up until then has left the field.  What is assumed of the
    runtime: [math.Cos] stays within [[-1, 1]] at the arguments of the
    terrain's interpolation (so that no height is negative); at the angle
    of the shot it is not within [2^-82] of zero and [math.Sin] is at most
    1 in absolute value; and the conversion to [int] of a value outside
    [int64] that is not NaN names no column of the field. *)
Theorem clock_restarts_and_steps (m : model) (g : rng) :
  reachable m g -> simulating m = false ->
  cos_in_range 6 -> steady_aim (angle m) -> conversions_leave_field ->
  exists m0,
    Update m (KeyMsg "enter") g = Some (m0, CmdTick, g) /\
    simulating m0 = true /\ timePassed m0 = 0%float /\
    forall k, exists mk,
      run (ticks k) m0 g = Some (mk, g) /\
      (simulating mk = true ->
       timePassed mk = tick_time k /\
       exists m' c,
         simulate mk = Some (m', c) /\
         timePassed m' = (timePassed mk + 0.1)%float /\
         timePassed m' = tick_time (S k) /\
         (timePassed mk <? timePassed m')%float = true).
Proof.
  intros Hr Hs Hcos Haim Hconv. exists (set_flight m true (hit m) 0%float).
  assert (E0 : Update m (KeyMsg "enter") g = Some (set_flight m true (hit m) 0%float, CmdTick, g)).
  { cbn. unfold key_update. rewrite Hs. reflexivity. }
  split; [exact E0 |]. split; [reflexivity |]. split; [reflexivity |].
  pose proof (reach_step m g _ _ _ g Hr E0) as Hr0.
  intros k. destruct (run_ticks_total k _ g Hr0) as (mk & Hrun & Hrk).
  exists mk. split; [exact Hrun |]. intros Hk.
  pose proof (run_ticks_clock k _ g mk g Hrun Hk) as Ht. cbn [timePassed set_flight] in Ht.
  fold (tick_time k) in Ht. split; [exact Ht |].
  destruct (simulate_total mk (reachable_well_formed mk g Hrk)) as (m' & c & Hsim).
  exists m', c. split; [exact Hsim |].
  pose proof (simulate_clock mk m' c Hk Hsim) as Hc.
  split; [exact Hc |]. split; [rewrite Hc, Ht; reflexivity |].
  rewrite Hc. apply clock_step_up.
  apply (flight_keeps_clock k (set_flight m true (hit m) 0%float) g mk g); try assumption.
  - reflexivity.
  - split; [reflexivity | exact I].
Qed.

End Flights.

(** ** The further properties at concrete inputs *)

Lemma reachable_models_keep_their_shape_witness :
  len (terrain flat_start) = 100 /\ 1 <= tankPos flat_start <= 5 /\
  75 <= targetPos flat_start <= 79 /\ tankPos flat_start <> targetPos flat_start /\
  0 <= tankPos flat_start < len (terrain flat_start) /\
  0 <= targetPos flat_start < len (terrain flat_start).
Proof.
  exact (@reachable_models_keep_their_shape go_amd64 flat_start flat_rng flat_start_reachable).
Defined.

Lemma Update_never_panics_witness :
  exists m' c g', @Update go_amd64 flat_start resetMsg flat_rng = Some (m', c, g').
Proof.
  exact (@Update_never_panics go_amd64 flat_start flat_rng resetMsg flat_start_reachable).
Defined.

Lemma simulate_outcomes_witness :
  simulating ramp = true /\
  @simulate go_amd64 ramp = Some (set_flight ramp false false (0 + 0.1)%float, CmdReset) /\
  ((CmdReset = CmdReset /\ simulating (set_flight ramp false false (0 + 0.1)%float) = false /\
    hit (set_flight ramp false false (0 + 0.1)%float) = hit ramp /\
    ballPosX (set_flight ramp false false (0 + 0.1)%float) = ballPosX ramp /\
    ballPosY (set_flight ramp false false (0 + 0.1)%float) = ballPosY ramp) \/
   (CmdReset = CmdNil /\ simulating (set_flight ramp false false (0 + 0.1)%float) = false /\
    hit (set_flight ramp false false (0 + 0.1)%float) = true) \/
   (CmdReset = CmdTick /\ simulating (set_flight ramp false false (0 + 0.1)%float) = true /\
    hit (set_flight ramp false false (0 + 0.1)%float) = hit ramp)).
Proof.
  assert (E : @simulate go_amd64 ramp
              = Some (set_flight ramp false false (0 + 0.1)%float, CmdReset))
    by (vm_compute; reflexivity).
  split; [reflexivity |]. split; [exact E |].
  exact (@simulate_outcomes go_amd64 ramp _ _ eq_refl E).
Defined.

Lemma flags_exclusive_without_fire_after_hit_witness :
  simulating flat_start && hit flat_start = false.
Proof.
  apply (@flags_exclusive_without_fire_after_hit go_amd64 flat_start flat_rng).
  exact (@played_init go_amd64 _ _ _ flat_start_is_initial).
Defined.

Lemma resetGame_restores_defaults_witness :
  @resetGame go_amd64 ramp flat_rng = Some (ramp_reset, flat_rng) /\
  angle ramp_reset = 45%float /\ power ramp_reset = 20%float /\
  simulating ramp_reset = false /\ hit ramp_reset = false /\
  timePassed ramp_reset = 0%float /\ len (terrain ramp_reset) = 100 /\
  1 <= tankPos ramp_reset <= 5 /\ 75 <= targetPos ramp_reset <= 79 /\
  flat_rng = (fun k => flat_rng (104 + k)%nat).
Proof.
  assert (E : @resetGame go_amd64 ramp flat_rng = Some (ramp_reset, flat_rng))
    by (vm_compute; reflexivity).
  split; [exact E |].
  exact (@resetGame_restores_defaults go_amd64 ramp flat_rng ramp_reset flat_rng E).
Defined.

Lemma generateTerrain_reads_width_draws_witness :
  @generateTerrain go_amd64 4 2 flat_rng = Some ([5; 5; 5; 5], flat_rng) /\
  flat_rng = (fun k => flat_rng (Z.to_nat 4 + k)%nat) /\
  forall g2, (forall k, (k < Z.to_nat 4)%nat -> g2 k = flat_rng k) ->
             option_map fst (@generateTerrain go_amd64 4 2 g2) = Some [5; 5; 5; 5].
Proof.
  assert (E : @generateTerrain go_amd64 4 2 flat_rng = Some ([5; 5; 5; 5], flat_rng))
    by (vm_compute; reflexivity).
  split; [exact E |].
  exact (@generateTerrain_reads_width_draws go_amd64 4 2 flat_rng flat_rng _ E).
Defined.

Lemma generateTerrain_no_result_from_64_octaves_witness :
  @generateTerrain go_amd64 100 70 flat_rng = None.
Proof.
  apply (@generateTerrain_no_result_from_64_octaves go_amd64 100 70 flat_rng); lia.
Defined.


Lemma stale_ticks_are_ignored_witness :
  @run_cmds go_amd64 (ticks 5) flat_start flat_rng
    = Some (flat_start, repeat CmdNil 5, flat_rng) /\
  @run go_amd64 (ticks 5) flat_start flat_rng = Some (flat_start, flat_rng).
Proof.
  apply (@stale_ticks_are_ignored go_amd64 flat_start flat_rng 5). reflexivity.
Defined.

Lemma simulate_keeps_field_and_aim_witness :
  terrain left_flying = terrain left_shot /\ tankPos left_flying = tankPos left_shot /\
  targetPos left_flying = targetPos left_shot /\
  angle left_flying = angle left_shot /\ power left_flying = power left_shot.
Proof.
  apply (@simulate_keeps_field_and_aim go_amd64 left_shot left_flying CmdTick).
  vm_compute. reflexivity.
Defined.


Lemma generateTerrain_heights_non_negative_witness :
  len [5; 5; 5; 5] = 4 /\ Forall (fun h => 0 <= h <= 1765) [5; 5; 5; 5].
Proof.
  apply (@generateTerrain_heights_non_negative go_amd64 4 2 flat_rng flat_rng [5; 5; 5; 5]);
    [lia | apply (@cos_in_rangeb_sound go_amd64 2); vm_compute; reflexivity
    | vm_compute; reflexivity].
Defined.

Lemma generateTerrain_no_result_beyond_memory_witness :
  @generateTerrain go_amd64 1 40 flat_rng = None.
Proof.
  apply (@generateTerrain_no_result_beyond_memory go_amd64 1 40 flat_rng);
    [lia | lia | vm_compute; reflexivity].
Defined.

Lemma reachable_terrain_non_negative_witness :
  Forall (fun h => 0 <= h <= 1765) (terrain flat_start) /\
  (exists y, index (terrain flat_start) (tankPos flat_start) = Some y /\ 0 <= y) /\
  (exists y, index (terrain flat_start) (targetPos flat_start) = Some y /\ 0 <= y).
Proof.
  apply (@reachable_terrain_non_negative go_amd64 flat_start flat_rng);
    [apply (@cos_in_rangeb_sound go_amd64 6); vm_compute; reflexivity
    | exact flat_start_reachable].
Defined.

Lemma clock_restarts_and_steps_witness :
  exists m0 mk m' c,
    @Update go_amd64 flat_start (KeyMsg "enter") flat_rng = Some (m0, CmdTick, flat_rng) /\
    simulating m0 = true /\ timePassed m0 = 0%float /\
    @run go_amd64 (ticks 3) m0 flat_rng = Some (mk, flat_rng) /\
    simulating mk = true /\ timePassed mk = tick_time 3 /\
    @simulate go_amd64 mk = Some (m', c) /\
    timePassed m' = (timePassed mk + 0.1)%float /\
    timePassed m' = tick_time 4 /\
    (timePassed mk <? timePassed m')%float = true.
Proof.
  destruct (@clock_restarts_and_steps go_amd64 flat_start flat_rng)
    as (m0 & E0 & S0 & T0 & Hk);
    [exact flat_start_reachable | reflexivity
    | apply (@cos_in_rangeb_sound go_amd64 6); vm_compute; reflexivity
    | vm_compute; reflexivity
    | intros x _; cbn; lia |].
  destruct (Hk 3%nat) as (mk & Hrun & Hfl).
  assert (Em0 : m0 = set_flight flat_start true false 0%float).
  { cbn in E0. inversion E0. reflexivity. }
  assert (Hs : simulating mk = true).
  { rewrite Em0 in Hrun. vm_compute in Hrun. inversion Hrun. reflexivity. }
  destruct (Hfl Hs) as (Ht & m' & c & Hsim & H1 & H2 & H3).
  exists m0, mk, m', c. repeat split; assumption.
Defined.
